(** * rui: property store, change propagation, animations and transitions

    A shallow embedding of the Go sources [animation.go], [view.go], the
    animation/transition event file and the drop-down list file, together
    with the properties established about them.

    Conventions of the embedding.
    - A Go [string] is a Rocq [string] (a sequence of bytes); a Go [int] is
      a [Z] (64-bit platform).
    - A value of the empty interface [interface{}] is a [value]; the nil
      interface is [VNil].
    - A Go map is a stdpp [gmap]; a pair [(x, ok)] returned by a lookup or a
      parser is an [option]. The maps of key frames, which [Set] changes in
      place and which several values may share, are kept in a heap and
      the values hold their addresses.
    - Methods with a pointer receiver are state transformers over a [World]:
      the receiver, the session it talks to, the trace of instructions
      sent to the rendering surface and to the log, and the heap of the
      maps of key frames.
    - A closure is named after the function it calls when it is run; the
      closures built in a loop around the variable of the loop call what
      the variable holds after the loop.
    - Functions, methods and tables that live outside the four embedded
      files are fields of the classes [Strconv], [AnimationExt], [ViewExt],
      [DropDownExt], [LookupExt] and [FloatOrder]; nothing is assumed about
      them unless a statement says so. Constants and structs declared
      outside the files are written out where the sources fix their
      content. *)

From Stdlib Require Import ZArith String Ascii List Lia DecimalString.
From Stdlib Require DecimalPos DecimalN.
From stdpp Require Import base option list gmap strings.

Set Warnings "-register-all".
Set Default Proof Using "Type".

(** ** Go strings *)

Module GoStrings.

Definition byte_in (c : ascii) (lo hi : nat) : bool :=
  (lo <=? nat_of_ascii c)%nat && (nat_of_ascii c <=? hi)%nat.

(** [unicode.ToLower] restricted to one byte: only 'A'..'Z' change. *)
Definition lowerByte (c : ascii) : ascii :=
  if byte_in c 65 90 then ascii_of_nat (nat_of_ascii c + 32) else c.

(** All bytes of [s] are below [utf8.RuneSelf]: [s] is a text of ASCII
    characters. *)
Fixpoint isASCII (s : string) : bool :=
  match s with
  | EmptyString => true
  | String c r => (nat_of_ascii c <? 128)%nat && isASCII r
  end.

(** [strings.ToLower] as it works on a text of ASCII characters, byte by
    byte: the tags of the package are such texts. On a text with a byte
    above 127 Go maps runes, not bytes; what is stated about the result of
    [ToLower] is stated for ASCII texts. *)
Fixpoint ToLower (s : string) : string :=
  match s with
  | EmptyString => EmptyString
  | String c r => String (lowerByte c) (ToLower r)
  end.

(** [len(s)] *)
Definition len (s : string) : Z := Z.of_nat (String.length s).

(** [s[i]], where Go panics out of range the result is [None]. *)
Definition byteAt (s : string) (i : Z) : option ascii :=
  if (i <? 0)%Z then None else String.get (Z.to_nat i) s.

(** [s[lo:hi]] for [0 <= lo <= hi <= len(s)]. *)
Definition slice (s : string) (lo hi : Z) : string :=
  String.substring (Z.to_nat lo) (Z.to_nat (hi - lo)) s.

(** [strings.IndexRune(s, c)] for a one-byte rune [c]: the index of the
    first [c], or [-1]. *)
Fixpoint IndexRune (s : string) (c : ascii) : Z :=
  match s with
  | EmptyString => (-1)%Z
  | String a r =>
      if Ascii.eqb a c then 0%Z
      else let i := IndexRune r c in
           if (i <? 0)%Z then (-1)%Z else (i + 1)%Z
  end.

Fixpoint inCutset (cutset : string) (c : ascii) : bool :=
  match cutset with
  | EmptyString => false
  | String a r => Ascii.eqb a c || inCutset r c
  end.

Fixpoint TrimLeft (s cutset : string) : string :=
  match s with
  | EmptyString => EmptyString
  | String c r => if inCutset cutset c then TrimLeft r cutset else s
  end.

Fixpoint TrimRight (s cutset : string) : string :=
  match s with
  | EmptyString => EmptyString
  | String c r =>
      match TrimRight r cutset with
      | EmptyString => if inCutset cutset c then EmptyString else String c EmptyString
      | r' => String c r'
      end
  end.

(** [strings.Trim(s, cutset)] for an ASCII cutset. *)
Definition Trim (s cutset : string) : string :=
  TrimRight (TrimLeft s cutset) cutset.

(** The byte [c] occurs in [s]. *)
Fixpoint occurs (c : ascii) (s : string) : bool :=
  match s with
  | EmptyString => false
  | String a r => Ascii.eqb a c || occurs c r
  end.

(** [strings.Split(s, sep)] for a one-byte separator: never empty, the
    empty string splits into one empty piece. *)
Fixpoint Split (s : string) (sep : ascii) : list string :=
  match s with
  | EmptyString => [EmptyString]
  | String a r =>
      if Ascii.eqb a sep then EmptyString :: Split r sep
      else match Split r sep with
           | h :: t => String a h :: t
           | [] => [String a EmptyString]
           end
  end.

(** [strings.ContainsAny(s, chars)] for ASCII [chars]. *)
Fixpoint ContainsAny (s chars : string) : bool :=
  match s with
  | EmptyString => false
  | String c r => inCutset chars c || ContainsAny r chars
  end.

Definition tab : ascii := ascii_of_nat 9.
Definition newline : ascii := ascii_of_nat 10.
Definition creturn : ascii := ascii_of_nat 13.

(** The cutsets [" \t\n"] and [" \t\n\r"] of the sources. *)
Definition blanks : string := String " " (String tab (String newline EmptyString)).
Definition blanksCR : string :=
  String " " (String tab (String newline (String creturn EmptyString))).

(** *** strconv *)

Definition maxInt : Z := (2 ^ 63 - 1)%Z.
Definition minInt : Z := (- 2 ^ 63)%Z.

Definition digitVal (c : ascii) : option Z :=
  if byte_in c 48 57 then Some (Z.of_nat (nat_of_ascii c) - 48)%Z else None.

Fixpoint parseDigits (s : string) (acc : Z) : option Z :=
  match s with
  | EmptyString => Some acc
  | String c r =>
      match digitVal c with
      | Some d => parseDigits r (acc * 10 + d)%Z
      | None => None
      end
  end.

(** [strconv.Atoi]: an optional sign, then one or more decimal digits, and
    the number has to fit the [int] type; [None] is a non-nil error. *)
Definition Atoi (s : string) : option Z :=
  match s with
  | EmptyString => None
  | String c r =>
      let '(neg, body) :=
        if Ascii.eqb c "-" then (true, r)
        else if Ascii.eqb c "+" then (false, r)
        else (false, s) in
      match body with
      | EmptyString => None
      | _ =>
          match parseDigits body 0 with
          | Some n =>
              let v := if neg : bool then (- n)%Z else n in
              if (minInt <=? v)%Z && (v <=? maxInt)%Z then Some v else None
          | None => None
          end
      end
  end.

(** [strconv.Itoa] *)
Definition Itoa (n : Z) : string := NilZero.string_of_int (Z.to_int n).

Fixpoint zeros (n : nat) : string :=
  match n with O => EmptyString | S k => String "0" (zeros k) end.

(** [fmt.Sprintf("%06d", n)]: the sign first, then zeros up to six
    characters in all. *)
Definition Sprintf06d (n : Z) : string :=
  let digits := NilZero.string_of_uint (N.to_uint (Z.abs_N n)) in
  let sign := if (n <? 0)%Z then "-" else EmptyString in
  sign +:+ zeros (6 - String.length sign - String.length digits) +:+ digits.

End GoStrings.
Export GoStrings.

(** [strconv.ParseFloat(s, 64)] belongs to the Go library and works on
    floating-point numbers; only whether it returns a nil error matters to
    the sources. *)
Class Strconv := {
  ParseFloat : string -> bool
}.

(** Plain decimal numerals: an optional sign, digits with at most one
    point, at least one digit, at most eighteen bytes. Go's [ParseFloat]
    gives no error on any of them. *)
Fixpoint digitsAndPoint (s : string) (points digits : nat) : option (nat * nat) :=
  match s with
  | EmptyString => Some (points, digits)
  | String c r =>
      if Ascii.eqb c "." then digitsAndPoint r (S points) digits
      else if byte_in c 48 57 then digitsAndPoint r points (S digits)
      else None
  end.

Definition plainDecimal (s : string) : bool :=
  let body := match s with
              | String c r => if Ascii.eqb c "-" || Ascii.eqb c "+" then r else s
              | EmptyString => s
              end in
  (String.length s <=? 18)%nat &&
  match digitsAndPoint body 0 0 with
  | Some (points, digits) => (points <=? 1)%nat && (1 <=? digits)%nat
  | None => false
  end.

(** ** Timing functions (animation.go) *)

Definition EaseTiming : string := "ease".
Definition EaseInTiming : string := "ease-in".
Definition EaseOutTiming : string := "ease-out".
Definition EaseInOutTiming : string := "ease-in-out".
Definition LinearTiming : string := "linear".

(** [StepsTiming] *)
Definition StepsTiming (stepCount : Z) : string :=
  "steps(" +:+ Itoa stepCount +:+ ")".

(** The first [switch] of [validateTimingFunction]. *)
Definition timingKeywords : list string :=
  [ EmptyString; EaseTiming; EaseInTiming; EaseOutTiming; EaseInOutTiming; LinearTiming ].

(** [validateTimingFunction] *)
Definition validateTimingFunction `{Strconv} (timingFunction : string) : bool :=
  if bool_decide (timingFunction ∈ timingKeywords) then true
  else
    let size := len timingFunction in
    if (0 <? size)%Z && bool_decide (byteAt timingFunction (size - 1) = Some ")"%char) then
      let index := IndexRune timingFunction "(" in
      if (0 <? index)%Z then
        let args := slice timingFunction (index + 1) (size - 1) in
        let name := slice timingFunction 0 index in
        if String.eqb name "steps" then
          match Atoi (Trim args blanks) with
          | Some _ => true
          | None => false
          end
        else if String.eqb name "cubic-bezier" then
          let params := Split args "," in
          if (length params =? 4)%nat then
            forallb (fun param => ParseFloat (Trim param blanks)) params
          else false
        else false
      else false
    else false.

(** The three families of timing functions that the spec lists: the five
    named keywords, [steps(N)] with [N] an integer for [Atoi], and
    [cubic-bezier(a,b,c,d)] with four parameters that [ParseFloat] takes. *)
Definition namedTimings : list string :=
  [EaseTiming; EaseInTiming; EaseOutTiming; EaseInOutTiming; LinearTiming].

Definition stepsForm (s : string) : Prop :=
  exists args, s = "steps(" +:+ args +:+ ")" /\ is_Some (Atoi (Trim args blanks)).

Definition cubicBezierForm `{Strconv} (s : string) : Prop :=
  exists a b c d,
    s = "cubic-bezier(" +:+ a +:+ "," +:+ b +:+ "," +:+ c +:+ "," +:+ d +:+ ")"
    /\ Forall (fun p => occurs "," p = false /\ ParseFloat (Trim p blanks) = true)
              [a; b; c; d].

Definition listedTimingFunction `{Strconv} (s : string) : Prop :=
  s ∈ namedTimings \/ stepsForm s \/ cubicBezierForm s.

(** ** Values of the empty interface *)

(** A Go function value of a fixed signature: nil, or a function known by
    an identifier. *)
Inductive goFunc :=
  | nilFunc
  | fn (id : nat).

(** Values of type [func(View, string)], the canonical listener shape: a
    function handed in by a caller (possibly nil), or one of the closures
    built by [valueToAnimationListeners] around a [func(string)], a
    [func(View)] or a [func()]. *)
Inductive listener :=
  | direct (f : goFunc)
  | wrapString (v : goFunc)
  | wrapView (v : goFunc)
  | wrapNoArg (v : goFunc).

(** Values of type [func(DropDownList, int)]: a function handed in by a
    caller, or the closure built around a [func(int)]. *)
Inductive dropDownFunc :=
  | directDropDown (f : goFunc)
  | wrapIndex (v : goFunc).

(** A non-nil [Animation] is a pointer to an [animationData]; views keep
    such pointers and never look inside. The nil interface is [None]. *)
Abbreviation animRef := nat.
Abbreviation Animation := (option animRef).

(** Modelled from the spec: the interfaces [DataNode], [DataObject] and
    [DataValue] are declared outside the embedded files; they give "a parsed
    node tree", read by the sources through [Type], [Tag], [Text], [Object],
    [ArrayElements], [PropertyCount], [Property] and [IsObject]. *)
Inductive DataNode :=
  | TextNode (tag text : string)
  | ObjectNode (tag : string) (obj : DataObject)
  | ArrayNode (tag : string) (elems : list DataValue)
with DataObject :=
  | dataObject (tag : string) (props : list DataNode)
with DataValue :=
  | TextValue (text : string)
  | ObjectValue (obj : DataObject).

(** A Go map is a reference: a value of type [map[int]interface{}] is nil
    or the address of a map in the heap. *)
Abbreviation mapRef := nat.

(** [AnimatedProperty], over the type of its values. [KeyFrames] is nil
    ([None]) or refers to a map of the heap: the copy of a struct, and two
    structs built with one map, share their key frames. *)
Record AnimatedPropertyOf (V : Type) := mkAnimatedProperty {
  Tag : string;
  From : V;
  To : V;
  KeyFrames : option mapRef
}.
Arguments mkAnimatedProperty {V}.
Arguments Tag {V}.
Arguments From {V}.
Arguments To {V}.
Arguments KeyFrames {V}.

(** [interface{}]: one constructor for each dynamic type the sources tell
    apart, [VOther] for every other type. *)
Inductive value :=
  | VNil
  | VString (s : string)
  | VInt (n : Z)
  | VBool (b : bool)
  | VFuncViewString (f : listener)
  | VFuncString (f : goFunc)
  | VFuncView (f : goFunc)
  | VFunc (f : goFunc)
  | VListeners (l : list listener)
  | VSliceFuncString (l : list goFunc)
  | VSliceFuncView (l : list goFunc)
  | VSliceFunc (l : list goFunc)
  | VSlice (l : list value)
  | VFuncDropDown (f : dropDownFunc)
  | VFuncInt (f : goFunc)
  | VDropDownListeners (l : list dropDownFunc)
  | VSliceFuncInt (l : list goFunc)
  | VAnimatedProperty (p : AnimatedPropertyOf value)
  | VAnimatedProperties (l : list (AnimatedPropertyOf value))
  | VDataNode (n : DataNode)
  | VDataValue (d : DataValue)
  | VAnimation (a : animRef)
  | VParams (p : gmap string value)
  | VOther (type : string) (id : nat).

Abbreviation AnimatedProperty := (AnimatedPropertyOf value).

(** [v == nil] *)
Definition isNil (v : value) : bool :=
  match v with VNil => true | _ => false end.

(** The conversion of an [Animation] to [interface{}]. *)
Definition valueOfAnimation (a : Animation) : value :=
  match a with
  | Some r => VAnimation r
  | None => VNil
  end.

(** ** Sessions, instructions and the state of a method call *)

(** What leaves the package: instructions for the rendering surface, log
    lines and calls of listeners. The functions [updateProperty],
    [removeProperty], [updateCSSProperty], [updateInnerHTML], [ErrorLog],
    [notCompatibleType] and the method [runScript] are outside the embedded
    files; a call is recorded with its arguments. A listener is a function
    of the caller: its call is recorded with the payload it gets beside the
    view. *)
Inductive effect :=
  | updateProperty (htmlID property text : string)
  | removeProperty (htmlID property : string)
  | updateCSSProperty (htmlID property text : string)
  | updateInnerHTML (htmlID : string)
  | runScript (script : string)
  | ErrorLog (text : string)
  | notCompatibleType (tag : string) (v : value)
  | call (f : listener) (payload : string)
  | callDropDown (f : dropDownFunc) (number : Z).

(** Modelled from the spec: the struct [sessionData] is declared outside the
    embedded files; these are the two fields that [registerAnimation] uses,
    the "per-session incrementing animation-name counter" and the style
    sheet text of the animations registered so far. *)
Record sessionData := mkSession {
  animationCounter : Z;
  animationCSS : string
}.

(** The maps of key frames of the program, by their addresses. *)
Abbreviation keyFrameMaps := (gmap mapRef (gmap Z value)).

(** The receiver of a method, its session, the effects so far (oldest
    first) and the maps of key frames that the values in reach refer to. *)
Record World (V : Type) := mkWorld {
  self : V;
  session : sessionData;
  trace : list effect;
  heap : keyFrameMaps
}.
Arguments mkWorld {V}.
Arguments self {V}.
Arguments session {V}.
Arguments trace {V}.
Arguments heap {V}.

Definition M (S A : Type) : Type := S -> A * S.

Definition ret {S A} (a : A) : M S A := fun s => (a, s).
Definition bind {S A B} (m : M S A) (k : A -> M S B) : M S B :=
  fun s => let '(a, s') := m s in k a s'.

Notation "x <- m ;; k" := (bind m (fun x => k))
  (at level 100, m at next level, right associativity).
Notation "m ;; k" := (bind m (fun _ => k))
  (at level 100, right associativity).

Definition get {S} : M S S := fun s => (s, s).
Definition modify {S} (f : S -> S) : M S unit := fun s => (tt, f s).

Definition withSelf {V} (f : V -> V) (w : World V) : World V :=
  mkWorld (f (self w)) (session w) (trace w) (heap w).
Definition withSession {V} (f : sessionData -> sessionData) (w : World V) : World V :=
  mkWorld (self w) (f (session w)) (trace w) (heap w).

Definition withHeap {V} (f : keyFrameMaps -> keyFrameMaps) (w : World V) : World V :=
  mkWorld (self w) (session w) (trace w) (f (heap w)).

(** Record one effect. *)
Definition emit {V} (e : effect) : M (World V) unit :=
  fun w => (tt, mkWorld (self w) (session w) (trace w ++ [e]) (heap w)).

(** Read the receiver. *)
Definition me {V} : M (World V) V := fun w => (self w, w).

(** Update the receiver. *)
Definition update {V} (f : V -> V) : M (World V) unit := modify (withSelf f).

(** [for _, x := range l { body(x) }] *)
Fixpoint forEach {S A} (l : list A) (body : A -> M S unit) : M S unit :=
  match l with
  | [] => ret tt
  | x :: r => body x ;; forEach r body
  end.

(** Run a method of an embedded struct on the enclosing receiver. *)
Definition embedded {V W A} (proj : W -> V) (inj : V -> W -> W)
    (m : M (World V) A) : M (World W) A :=
  fun w =>
    let '(a, w') := m (mkWorld (proj (self w)) (session w) (trace w) (heap w)) in
    (a, mkWorld (inj (self w') (self w)) (session w') (trace w') (heap w')).

(** The map at an address. The address of a value in reach always has its
    map in Go; an address without one reads as the empty map. *)
Definition framesAt (maps : keyFrameMaps) (r : mapRef) : gmap Z value :=
  default ∅ (maps !! r).

(** [m[k]] with its [ok] *)
Definition keyFrame {V} (r : mapRef) (k : Z) : M (World V) (option value) :=
  fun w => (framesAt (heap w) r !! k, w).

(** [delete(m, k)]: the map itself changes, for every value that refers to
    it. *)
Definition deleteKeyFrame {V} (r : mapRef) (k : Z) : M (World V) unit :=
  modify (withHeap (alter (delete k) r)).

(** [m[k] = v] *)
Definition setKeyFrame {V} (r : mapRef) (k : Z) (v : value) : M (World V) unit :=
  modify (withHeap (alter (<[k := v]>) r)).

(** [map[int]interface{}{k: v}]: a new map, at an address that no map has
    yet. *)
Definition newKeyFrames {V} (k : Z) (v : value) : M (World V) mapRef :=
  fun w =>
    let r := fresh (dom (heap w)) in
    (r, withHeap (<[r := {[k := v]}]>) w).

(** The double quote of Go string literals. *)
Definition quote : string := String (ascii_of_nat 34) EmptyString.
Definition quoted (s : string) : string := quote +:+ s +:+ quote.

(** ** Property lists *)

(** Modelled from the spec: the struct [propertyList] is declared outside
    the embedded files; it is the "mapping from tag to coerced value" that
    the sources reach as [properties], embedded in animations and in view
    styles. *)
Record propertyList := mkPropertyList {
  properties : gmap string value
}.

(** Modelled from the spec: the method [propertyList.getRaw] is outside the
    embedded files; by the contract of the property store,
    "get(tag) -> value|absent", it is the lookup in [properties], nil when
    the tag is absent. *)
Definition getRaw (pl : propertyList) (tag : string) : value :=
  default VNil (properties pl !! tag).

(** [properties[tag] = v] and [delete(properties, tag)] *)
Definition setProperty (tag : string) (v : value) (pl : propertyList) : propertyList :=
  mkPropertyList (<[tag := v]> (properties pl)).
Definition deleteProperty (tag : string) (pl : propertyList) : propertyList :=
  mkPropertyList (delete tag (properties pl)).

(** ** Animations (animation.go) *)

Definition AnimationTag : string := "animation".
Definition AnimationPaused : string := "animation-paused".
Definition Transition : string := "transition".
Definition PropertyTag : string := "property".
Definition Duration : string := "duration".
Definition Delay : string := "delay".
Definition TimingFunction : string := "timing-function".
Definition IterationCount : string := "iteration-count".
Definition AnimationDirection : string := "animation-direction".

(** Modelled from the spec: the tag constants [ID] and [Direction] are
    declared outside the embedded files; the documentation of [Animation]
    lists the tag "id" among its properties, and [Direction] is the short
    form that [normalizeTag] maps to "animation-direction". *)
Definition ID : string := "id".
Definition Direction : string := "direction".

Record animationData := mkAnimationData {
  animationProperties : propertyList;
  keyFramesName : string
}.

Definition withAnimationProperties (f : propertyList -> propertyList)
    (a : animationData) : animationData :=
  mkAnimationData (f (animationProperties a)) (keyFramesName a).
Definition withKeyFramesName (name : string) (a : animationData) : animationData :=
  mkAnimationData (animationProperties a) name.

(** What [animationData] uses from the rest of the package. *)
Class AnimationExt := {
  (** [float64] with the two operations the sources apply to it: the test
      [x > 0] and the verb [%g]. *)
  float64 : Type;
  floatOfInt : Z -> float64;
  MaxFloat64 : float64;
  floatNeg : float64 -> float64;
  floatPositive : float64 -> bool;
  formatG : float64 -> string;
  (** methods of [propertyList] *)
  setFloatProperty : string -> value -> float64 -> float64 -> M (World propertyList) bool;
  setIntProperty : string -> value -> M (World propertyList) bool;
  setEnumProperty : string -> value -> list string -> M (World propertyList) bool;
  (** the table [enumProperties]: [values] and [cssValues] of a tag *)
  enumValues : string -> list string;
  enumCssValues : string -> list string;
  (** the readers [floatProperty], [intProperty], [enumProperty],
      [stringProperty] applied to an animation *)
  floatProperty : animationData -> string -> sessionData -> float64 -> float64 * bool;
  intProperty : animationData -> string -> sessionData -> Z -> Z * bool;
  enumProperty : animationData -> string -> sessionData -> Z -> Z * bool;
  stringProperty : animationData -> string -> sessionData -> option string;
  (** [Session.resolveConstants] *)
  resolveConstants : sessionData -> string -> option string;
  (** [writePropertyValue(buffer, name, value, "")]: the text written *)
  writePropertyValue : string -> value -> string;
  (** the style sheet text that [registerAnimation] gets from
      [cssStyleBuilder] and [cssViewStyle] for a keyframe name and a list
      of animated properties with their maps of key frames *)
  keyframesStyle : string -> list AnimatedProperty -> keyFrameMaps -> sessionData -> string;
  (** [strings.ReplaceAll(style, "\n", `\n`)] *)
  escapeNewlines : string -> string
}.

(** The receiver's embedded [propertyList]. *)
Definition onAnimationProperties {A} (m : M (World propertyList) A)
    : M (World animationData) A :=
  embedded animationProperties (fun pl a => withAnimationProperties (fun _ => pl) a) m.

(** [hasAnimatedPropery] *)
Definition animationData_hasAnimatedPropery : M (World animationData) bool :=
  animation <- me ;;
  match getRaw (animationProperties animation) PropertyTag with
  | VNil => emit (ErrorLog "There are no animated properties.") ;; ret false
  | VAnimatedProperties _ => ret true
  | _ => emit (ErrorLog "Invalid animated properties.") ;; ret false
  end.

(** [animationName] *)
Definition animationData_animationName (animation : animationData) : string :=
  keyFramesName animation.

(** [normalizeTag] *)
Definition animationData_normalizeTag (tag : string) : string :=
  let tag := ToLower tag in
  if String.eqb tag Direction then AnimationDirection else tag.

(** [Remove] *)
Definition animationData_Remove (tag : string) : M (World animationData) unit :=
  update (withAnimationProperties (deleteProperty (animationData_normalizeTag tag))).

(** [Get] *)
Definition animationData_Get (animation : animationData) (tag : string) : value :=
  getRaw (animationProperties animation) (animationData_normalizeTag tag).

(** Lines 210-215 and 235-240 of [Set]: a key frame at 0 becomes [From]
    when [From] is nil. [Set] works on a copy of the struct, whose map is
    the map of the caller: the key frame leaves that map, for every value
    that refers to it. *)
Definition promoteFrom {V} (value : AnimatedProperty) : M (World V) AnimatedProperty :=
  if isNil (From value) then
    match KeyFrames value with
    | Some frames =>
        found <- keyFrame frames 0 ;;
        match found with
        | Some val =>
            deleteKeyFrame frames 0 ;;
            ret (mkAnimatedProperty (Tag value) val (To value) (KeyFrames value))
        | None => ret value
        end
    | None => ret value
    end
  else ret value.

(** Lines 216-221 and 241-246 of [Set]: a key frame at 100 becomes [To]
    when [To] is nil. *)
Definition promoteTo {V} (value : AnimatedProperty) : M (World V) AnimatedProperty :=
  if isNil (To value) then
    match KeyFrames value with
    | Some frames =>
        found <- keyFrame frames 100 ;;
        match found with
        | Some val =>
            deleteKeyFrame frames 100 ;;
            ret (mkAnimatedProperty (Tag value) (From value) val (KeyFrames value))
        | None => ret value
        end
    | None => ret value
    end
  else ret value.

(** The loop of the [[]AnimatedProperty] case of [Set]; [props] is the
    slice built so far. The variable [val] of the loop is a copy of the
    element; its map is the map of the element. *)
Fixpoint keepAnimatedProperties {V} (value props : list AnimatedProperty)
    : M (World V) (list AnimatedProperty) :=
  match value with
  | [] => ret props
  | val :: rest =>
      val <- promoteFrom val ;;
      val <- promoteTo val ;;
      if isNil (From val) then
        emit (ErrorLog "AnimatedProperty.From is nil") ;; keepAnimatedProperties rest props
      else if isNil (To val) then
        emit (ErrorLog "AnimatedProperty.To is nil") ;; keepAnimatedProperties rest props
      else keepAnimatedProperties rest (props ++ [val])
  end.

(** [err.Error()] for the error of [strconv.Atoi(s)] (without the escapes
    that Go applies to unusual bytes of [s]). *)
Definition AtoiError (s : string) : string :=
  let body := match s with
              | String c r => if Ascii.eqb c "-" || Ascii.eqb c "+" then r else s
              | EmptyString => s
              end in
  let syntaxOk := match body with
                  | EmptyString => false
                  | _ => bool_decide (is_Some (parseDigits body 0))
                  end in
  "strconv.Atoi: parsing " +:+ quoted s +:+
  (if syntaxOk then ": value out of range" else ": invalid syntax").

(** One round of the loop of the closure [parseObject] in [Set]. *)
Definition parseObjectNode {V} (result : AnimatedProperty) (node : DataNode)
    : M (World V) AnimatedProperty :=
  match node with
  | TextNode nodeTag text =>
      let propTag := ToLower nodeTag in
      if bool_decide (propTag ∈ ["from"; "0"; "0%"]) then
        ret (mkAnimatedProperty (Tag result) (VString text) (To result) (KeyFrames result))
      else if bool_decide (propTag ∈ ["to"; "100"; "100%"]) then
        ret (mkAnimatedProperty (Tag result) (From result) (VString text) (KeyFrames result))
      else
        let tagLen := len propTag in
        let propTag :=
          if (0 <? tagLen)%Z && bool_decide (byteAt propTag (tagLen - 1) = Some "%"%char)
          then slice propTag 0 (tagLen - 1) else propTag in
        match Atoi propTag with
        | None => emit (ErrorLog (AtoiError propTag)) ;; ret result
        | Some n =>
            if (n <? 0)%Z || (100 <? n)%Z then
              emit (ErrorLog ("key-frame " +:+ quoted (Itoa n) +:+ " is out of range")) ;;
              ret result
            else
              match KeyFrames result with
              | None =>
                  frames <- newKeyFrames n (VString text) ;;
                  ret (mkAnimatedProperty (Tag result) (From result) (To result)
                         (Some frames))
              | Some frames => setKeyFrame frames n (VString text) ;; ret result
              end
        end
  | _ => ret result
  end.

Fixpoint parseObjectLoop {V} (nodes : list DataNode) (result : AnimatedProperty)
    : M (World V) AnimatedProperty :=
  match nodes with
  | [] => ret result
  | node :: rest => r <- parseObjectNode result node ;; parseObjectLoop rest r
  end.

(** The closure [parseObject] of [Set]: the property and whether both ends
    are there. *)
Definition parseObject {V} (obj : DataObject) : M (World V) (AnimatedProperty * bool) :=
  let 'dataObject _ nodes := obj in
  result <- parseObjectLoop nodes (mkAnimatedProperty EmptyString VNil VNil None) ;;
  ret (result, negb (isNil (From result)) && negb (isNil (To result))).

(** The loop over [value.ArrayElements()] in [Set]. *)
Fixpoint parseArrayElements {V} (tag : string) (elems : list DataValue)
    (props : list AnimatedProperty) : M (World V) (list AnimatedProperty) :=
  match elems with
  | [] => ret props
  | val :: rest =>
      match val with
      | ObjectValue obj =>
          r <- parseObject obj ;;
          let '(prop, ok) := r in
          parseArrayElements tag rest (if ok : bool then props ++ [prop] else props)
      | TextValue _ =>
          emit (notCompatibleType tag (VDataValue val)) ;;
          parseArrayElements tag rest props
      end
  end.

(** [animation.properties[tag] = v] *)
Definition animationData_store (tag : string) (v : value) : M (World animationData) unit :=
  update (withAnimationProperties (setProperty tag v)).

(** The case [PropertyTag] of [Set]. *)
Definition animationData_setProperty (tag : string) (value : value)
    : M (World animationData) bool :=
  match value with
  | VAnimatedProperty value =>
      value <- promoteFrom value ;;
      value <- promoteTo value ;;
      if isNil (From value) then
        emit (ErrorLog "AnimatedProperty.From is nil") ;; ret false
      else if isNil (To value) then
        emit (ErrorLog "AnimatedProperty.To is nil") ;; ret false
      else
        animationData_store tag (VAnimatedProperties [value]) ;; ret true
  | VAnimatedProperties value =>
      props <- keepAnimatedProperties value [] ;;
      if (0 <? length props)%nat then
        animationData_store tag (VAnimatedProperties props) ;; ret true
      else
        emit (ErrorLog "[]AnimatedProperty is empty") ;; ret false
  | VDataNode node =>
      match node with
      | ObjectNode _ obj =>
          r <- parseObject obj ;;
          let '(prop, ok) := r in
          if ok : bool then
            animationData_store tag (VAnimatedProperties [prop]) ;; ret true
          else ret false
      | ArrayNode _ elems =>
          props <- parseArrayElements tag elems [] ;;
          if (0 <? length props)%nat then
            animationData_store tag (VAnimatedProperties props) ;; ret true
          else ret false
      | TextNode _ _ =>
          emit (notCompatibleType tag value) ;; ret false
      end
  | _ => emit (notCompatibleType tag value) ;; ret false
  end.

(** [Set] *)
Definition animationData_Set `{AnimationExt} (tag : string) (value : value)
    : M (World animationData) bool :=
  if isNil value then
    animationData_Remove tag ;; ret true
  else
    let tag := animationData_normalizeTag tag in
    if String.eqb tag ID then
      match value with
      | VString text =>
          let text := Trim text blanksCR in
          (if String.eqb text EmptyString
           then update (withAnimationProperties (deleteProperty tag))
           else animationData_store tag (VString text)) ;;
          ret true
      | _ => emit (notCompatibleType tag value) ;; ret false
      end
    else if String.eqb tag PropertyTag then
      animationData_setProperty tag value
    else if String.eqb tag Duration then
      onAnimationProperties (setFloatProperty tag value (floatOfInt 0) MaxFloat64)
    else if String.eqb tag Delay then
      onAnimationProperties (setFloatProperty tag value (floatNeg MaxFloat64) MaxFloat64)
    else if String.eqb tag TimingFunction then
      match value with
      | VString text => animationData_store tag (VString text) ;; ret true
      | _ => ret false
      end
    else if String.eqb tag IterationCount then
      onAnimationProperties (setIntProperty tag value)
    else if String.eqb tag AnimationDirection then
      onAnimationProperties
        (setEnumProperty AnimationDirection value (enumValues AnimationDirection))
    else
      emit (ErrorLog ("The " +:+ quoted tag +:+ " property is not supported by Animation")) ;;
      ret false.

(** [String] *)
Definition animationData_String (animation : animationData) : string :=
  "animation {" +:+ "}".

(** [timingFunctionCSS] *)
Definition animationData_timingFunctionCSS `{Strconv} `{AnimationExt}
    (animation : animationData) (session : sessionData) : string :=
  match stringProperty animation TimingFunction session with
  | Some timingFunction =>
      match resolveConstants session timingFunction with
      | Some timingFunction =>
          if validateTimingFunction timingFunction then timingFunction else "ease"
      | None => "ease"
      end
  | None => "ease"
  end.

(** [session.animationCounter++] on a 64-bit [int]. *)
Definition wrapInt (n : Z) : Z :=
  ((n + 2 ^ 63) mod 2 ^ 64 - 2 ^ 63)%Z.

(** [sessionData.registerAnimation]: the counter is advanced, the name is
    made of it, and the style sheet text for the key frames is added to the
    session and sent to the page. *)
Definition registerAnimation `{AnimationExt} {V} (props : list AnimatedProperty)
    : M (World V) string :=
  fun w =>
    let counter := wrapInt (animationCounter (session w) + 1) in
    let name := "kf" +:+ Sprintf06d counter in
    let style := keyframesStyle name props (heap w) (session w) in
    let session' := mkSession counter (animationCSS (session w) +:+ style) in
    let script := "document.querySelector('style').textContent += " +:+
                  quoted (escapeNewlines style) in
    (name, mkWorld (self w) session' (trace w ++ [runScript script]) (heap w)).

(** The part of [animationCSS] after the name is known. *)
Definition animationData_animationCSS_text `{Strconv} `{AnimationExt}
    (animation : animationData) (session : sessionData) : string :=
  let duration := fst (floatProperty animation Duration session (floatOfInt 1)) in
  let delay := fst (floatProperty animation Delay session (floatOfInt 0)) in
  let iterationCount := fst (intProperty animation IterationCount session 0) in
  let direction := fst (enumProperty animation AnimationDirection session 0) in
  let values := enumCssValues AnimationDirection in
  let direction :=
    if (direction <? 0)%Z || (Z.of_nat (length values) <=? direction)%Z
    then 0%Z else direction in
  keyFramesName animation
  +:+ (if floatPositive duration then " " +:+ formatG duration +:+ "s " else " 1s ")
  +:+ animationData_timingFunctionCSS animation session
  +:+ (if floatPositive delay then " " +:+ formatG delay +:+ "s" else " 0s")
  +:+ (if (0 <=? iterationCount)%Z
       then " " +:+ Itoa (if (iterationCount =? 0)%Z then 1%Z else iterationCount) +:+ " "
       else " infinite ")
  +:+ nth (Z.to_nat direction) values EmptyString
  +:+ " forwards".

(** [animationCSS] *)
Definition animationData_animationCSS `{Strconv} `{AnimationExt}
    : M (World animationData) string :=
  animation <- me ;;
  let text : M (World animationData) string :=
    (w <- get ;; ret (animationData_animationCSS_text (self w) (session w))) in
  if String.eqb (keyFramesName animation) EmptyString then
    match getRaw (animationProperties animation) PropertyTag with
    | VNil =>
        emit (ErrorLog "There are no animated properties.") ;; ret EmptyString
    | VAnimatedProperties animatedProps =>
        name <- registerAnimation animatedProps ;;
        update (withKeyFramesName name) ;;
        text
    | _ =>
        emit (ErrorLog "Invalid animated properties.") ;; ret EmptyString
    end
  else text.

(** [transitionCSS]: the text written to the buffer. *)
Definition animationData_transitionCSS `{Strconv} `{AnimationExt}
    (animation : animationData) (session : sessionData) : string :=
  let duration := fst (floatProperty animation Duration session (floatOfInt 1)) in
  let delay := fst (floatProperty animation Delay session (floatOfInt 0)) in
  (if floatPositive duration then " " +:+ formatG duration +:+ "s " else " 1s ")
  +:+ animationData_timingFunctionCSS animation session
  +:+ (if floatPositive delay then " " +:+ formatG delay +:+ "s" else EmptyString).

(** [writeTransitionString]: the text written to the buffer. The closure
    [writeFloatProperty] gives its text, the next [lead] and its result. *)
Definition animationData_writeTransitionString `{AnimationExt}
    (animation : animationData) (tag : string) : string :=
  let writeFloatProperty (lead name : string) : string * string * bool :=
    match getRaw (animationProperties animation) name with
    | VNil => (EmptyString, lead, false)
    | value => (lead +:+ name +:+ " = " +:+ writePropertyValue name value, ", ", true)
    end in
  let '(text1, lead1, ok1) := writeFloatProperty " " Duration in
  let '(text1, lead1) :=
    if ok1 : bool then (text1, lead1) else (" duration = 1", ", ") in
  let '(text2, lead2, _) := writeFloatProperty lead1 Delay in
  let text3 :=
    match getRaw (animationProperties animation) TimingFunction with
    | VString timingFunction =>
        if negb (String.eqb timingFunction EmptyString) then
          lead2 +:+ TimingFunction +:+ " = " +:+
          (if ContainsAny timingFunction " ,()" then quoted timingFunction else EmptyString)
        else EmptyString
    | _ => EmptyString
    end in
  tag +:+ "{" +:+ text1 +:+ text2 +:+ text3 +:+ " }".

(** ** Transition and animation events: listeners *)

Definition TransitionRunEvent : string := "transition-run-event".
Definition TransitionStartEvent : string := "transition-start-event".
Definition TransitionEndEvent : string := "transition-end-event".
Definition TransitionCancelEvent : string := "transition-cancel-event".
Definition AnimationStartEvent : string := "animation-start-event".
Definition AnimationEndEvent : string := "animation-end-event".
Definition AnimationCancelEvent : string := "animation-cancel-event".
Definition AnimationIterationEvent : string := "animation-iteration-event".

(** [fn == nil] for a [func(View, string)] *)
Definition isNilListener (f : listener) : bool :=
  match f with direct nilFunc => true | _ => false end.

(** [v == nil] for the other function types *)
Definition isNilFunc (v : goFunc) : bool :=
  match v with nilFunc => true | fn _ => false end.

(** The loop of the case [[]func(View, string)]: [false] as soon as an
    element is nil. *)
Fixpoint checkListeners (value : list listener) : bool :=
  match value with
  | [] => true
  | f :: rest => if isNilListener f then false else checkListeners rest
  end.

(** The loops of the cases [[]func(string)], [[]func(View)] and [[]func()]:
    a round fails on a nil element, and otherwise stores a closure around
    the variable [v] of the loop. The loop has one variable [v] for all of
    its rounds (the language of the sources is Go before version 1.22,
    which gave every round a variable of its own), and the closures are
    called after the loop, when [v] holds the last element: [captured] is
    that element, the function that every one of the closures calls. *)
Fixpoint wrapListenersLoop (wrap : goFunc -> listener) (value : list goFunc)
    (captured : goFunc) : option (list listener) :=
  match value with
  | [] => Some []
  | v :: rest =>
      if isNilFunc v then None
      else match wrapListenersLoop wrap rest captured with
           | Some listeners => Some (wrap captured :: listeners)
           | None => None
           end
  end.

Definition wrapListeners (wrap : goFunc -> listener) (value : list goFunc)
    : option (list listener) :=
  wrapListenersLoop wrap value (List.last value nilFunc).

(** The loop of the case [[]interface{}]: the type switch [switch v := v.(type)]
    declares a new [v] in every round, so each closure calls its own element. *)
Fixpoint convertListeners (value : list value) : option (list listener) :=
  match value with
  | [] => Some []
  | v :: rest =>
      if isNil v then None
      else
        let next (f : listener) :=
          match convertListeners rest with
          | Some listeners => Some (f :: listeners)
          | None => None
          end in
        match v with
        | VFuncViewString f => next f
        | VFuncString v => next (wrapString v)
        | VFuncView v => next (wrapView v)
        | VFunc v => next (wrapNoArg v)
        | _ => None
        end
  end.

(** [valueToAnimationListeners]. The result slice is nil exactly when it is
    empty, so a list stands for it. *)
Definition valueToAnimationListeners (value : value) : list listener * bool :=
  let result (r : option (list listener)) :=
    match r with
    | Some listeners => (listeners, true)
    | None => ([], false)
    end in
  match value with
  | VNil => ([], true)
  | VFuncViewString f => ([f], true)
  | VFuncString v => ([wrapString v], true)
  | VFuncView v => ([wrapView v], true)
  | VFunc v => ([wrapNoArg v], true)
  | VListeners l =>
      if (length l =? 0)%nat then ([], true)
      else if checkListeners l then (l, true) else ([], false)
  | VSliceFuncString l =>
      if (length l =? 0)%nat then ([], true) else result (wrapListeners wrapString l)
  | VSliceFuncView l =>
      if (length l =? 0)%nat then ([], true) else result (wrapListeners wrapView l)
  | VSliceFunc l =>
      if (length l =? 0)%nat then ([], true) else result (wrapListeners wrapNoArg l)
  | VSlice l =>
      if (length l =? 0)%nat then ([], true) else result (convertListeners l)
  | _ => ([], false)
  end.

(** The tables [transitionEvents] and [animationEvents]: [jsEvent] and
    [jsFunc] of a tag. *)
Definition transitionEvents : list (string * (string * string)) :=
  [ (TransitionRunEvent, ("ontransitionrun", "transitionRunEvent"));
    (TransitionStartEvent, ("ontransitionstart", "transitionStartEvent"));
    (TransitionEndEvent, ("ontransitionend", "transitionEndEvent"));
    (TransitionCancelEvent, ("ontransitioncancel", "transitionCancelEvent")) ].

Definition animationEvents : list (string * (string * string)) :=
  [ (AnimationStartEvent, ("onanimationstart", "animationStartEvent"));
    (AnimationEndEvent, ("onanimationend", "animationEndEvent"));
    (AnimationIterationEvent, ("onanimationiteration", "animationIterationEvent"));
    (AnimationCancelEvent, ("onanimationcancel", "animationCancelEvent")) ].

(** [table[tag]] *)
Fixpoint lookupEvent (table : list (string * (string * string))) (tag : string)
    : option (string * string) :=
  match table with
  | [] => None
  | (t, js) :: rest => if String.eqb t tag then Some js else lookupEvent rest tag
  end.

(** ** Views (view.go) *)

(** Modelled from the spec: the struct [viewStyle] is declared outside the
    embedded files; the sources use its embedded property list and its
    [transitions] map, "tag -> currently-effective Animation". *)
Record viewStyle := mkViewStyle {
  stylePropertyList : propertyList;
  transitions : gmap string Animation
}.

(** The struct [viewData]; the session is kept in the [World], and the
    fields [addCSS], [frame] and [scroll] play no part in what follows. *)
Record viewData := mkViewData {
  style : viewStyle;
  tag : string;
  viewID : string;
  _htmlID : string;
  parentID : string;
  systemClass : string;
  changeListener : gmap string listener;
  singleTransition : gmap string Animation;
  noResizeEvent : bool;
  created : bool;
  hasFocus : bool
}.

Definition withStyle (f : viewStyle -> viewStyle) (v : viewData) : viewData :=
  mkViewData (f (style v)) (tag v) (viewID v) (_htmlID v) (parentID v) (systemClass v)
    (changeListener v) (singleTransition v) (noResizeEvent v) (created v) (hasFocus v).
Definition withViewID (id : string) (v : viewData) : viewData :=
  mkViewData (style v) (tag v) id (_htmlID v) (parentID v) (systemClass v)
    (changeListener v) (singleTransition v) (noResizeEvent v) (created v) (hasFocus v).
Definition withHtmlID (id : string) (v : viewData) : viewData :=
  mkViewData (style v) (tag v) (viewID v) id (parentID v) (systemClass v)
    (changeListener v) (singleTransition v) (noResizeEvent v) (created v) (hasFocus v).
Definition withParentID (id : string) (v : viewData) : viewData :=
  mkViewData (style v) (tag v) (viewID v) (_htmlID v) id (systemClass v)
    (changeListener v) (singleTransition v) (noResizeEvent v) (created v) (hasFocus v).
Definition withChangeListener (f : gmap string listener -> gmap string listener)
    (v : viewData) : viewData :=
  mkViewData (style v) (tag v) (viewID v) (_htmlID v) (parentID v) (systemClass v)
    (f (changeListener v)) (singleTransition v) (noResizeEvent v) (created v) (hasFocus v).
Definition withSingleTransition (f : gmap string Animation -> gmap string Animation)
    (v : viewData) : viewData :=
  mkViewData (style v) (tag v) (viewID v) (_htmlID v) (parentID v) (systemClass v)
    (changeListener v) (f (singleTransition v)) (noResizeEvent v) (created v) (hasFocus v).
Definition withCreated (b : bool) (v : viewData) : viewData :=
  mkViewData (style v) (tag v) (viewID v) (_htmlID v) (parentID v) (systemClass v)
    (changeListener v) (singleTransition v) (noResizeEvent v) b (hasFocus v).
Definition withHasFocus (b : bool) (v : viewData) : viewData :=
  mkViewData (style v) (tag v) (viewID v) (_htmlID v) (parentID v) (systemClass v)
    (changeListener v) (singleTransition v) (noResizeEvent v) (created v) b.

Definition withProperties (f : propertyList -> propertyList) (v : viewData) : viewData :=
  withStyle (fun s => mkViewStyle (f (stylePropertyList s)) (transitions s)) v.
Definition withTransitions (f : gmap string Animation -> gmap string Animation)
    (v : viewData) : viewData :=
  withStyle (fun s => mkViewStyle (stylePropertyList s) (f (transitions s))) v.

(** [view.properties] and [view.transitions], through the embedded structs *)
Definition viewProperties (v : viewData) : gmap string value :=
  properties (stylePropertyList (style v)).
Definition viewTransitions (v : viewData) : gmap string Animation :=
  transitions (style v).

(** The interface [BorderProperty], by the three methods used here. *)
Record BorderProperty := mkBorderProperty {
  cssWidthValue : sessionData -> string;
  cssColorValue : sessionData -> string;
  cssStyleValue : sessionData -> string
}.

(** Modelled from the spec: the tag constants of views are declared outside
    the embedded files; each is the lower-case, hyphenated spelling of its
    name, the way the spec writes the border tags ("border-left-width") and
    the sources write the event tags ("transition-end-event"). *)
Definition UserData : string := "user-data".
Definition Style : string := "style".
Definition StyleDisabled : string := "style-disabled".
Definition Content : string := "content".
Definition FocusEvent : string := "focus-event".
Definition LostFocusEvent : string := "lost-focus-event".
Definition KeyDownEvent : string := "key-down-event".
Definition KeyUpEvent : string := "key-up-event".
Definition ClickEvent : string := "click-event".
Definition DoubleClickEvent : string := "double-click-event".
Definition MouseDown : string := "mouse-down".
Definition MouseUp : string := "mouse-up".
Definition MouseMove : string := "mouse-move".
Definition MouseOut : string := "mouse-out".
Definition MouseOver : string := "mouse-over".
Definition ContextMenuEvent : string := "context-menu-event".
Definition PointerDown : string := "pointer-down".
Definition PointerUp : string := "pointer-up".
Definition PointerMove : string := "pointer-move".
Definition PointerOut : string := "pointer-out".
Definition PointerOver : string := "pointer-over".
Definition PointerCancel : string := "pointer-cancel".
Definition TouchStart : string := "touch-start".
Definition TouchEnd : string := "touch-end".
Definition TouchMove : string := "touch-move".
Definition TouchCancel : string := "touch-cancel".
Definition ResizeEvent : string := "resize-event".
Definition ScrollEvent : string := "scroll-event".

Definition Border : string := "border".
Definition BorderLeft : string := "border-left".
Definition BorderRight : string := "border-right".
Definition BorderTop : string := "border-top".
Definition BorderBottom : string := "border-bottom".
Definition BorderStyle : string := "border-style".
Definition BorderLeftStyle : string := "border-left-style".
Definition BorderRightStyle : string := "border-right-style".
Definition BorderTopStyle : string := "border-top-style".
Definition BorderBottomStyle : string := "border-bottom-style".
Definition BorderColor : string := "border-color".
Definition BorderLeftColor : string := "border-left-color".
Definition BorderRightColor : string := "border-right-color".
Definition BorderTopColor : string := "border-top-color".
Definition BorderBottomColor : string := "border-bottom-color".
Definition BorderWidth : string := "border-width".
Definition BorderLeftWidth : string := "border-left-width".
Definition BorderRightWidth : string := "border-right-width".
Definition BorderTopWidth : string := "border-top-width".
Definition BorderBottomWidth : string := "border-bottom-width".

Definition CellBorder : string := "cell-border".
Definition CellBorderStyle : string := "cell-border-style".
Definition CellBorderColor : string := "cell-border-color".
Definition CellBorderWidth : string := "cell-border-width".
Definition CellBorderLeft : string := "cell-border-left".
Definition CellBorderLeftStyle : string := "cell-border-left-style".
Definition CellBorderLeftColor : string := "cell-border-left-color".
Definition CellBorderLeftWidth : string := "cell-border-left-width".
Definition CellBorderRight : string := "cell-border-right".
Definition CellBorderRightStyle : string := "cell-border-right-style".
Definition CellBorderRightColor : string := "cell-border-right-color".
Definition CellBorderRightWidth : string := "cell-border-right-width".
Definition CellBorderTop : string := "cell-border-top".
Definition CellBorderTopStyle : string := "cell-border-top-style".
Definition CellBorderTopColor : string := "cell-border-top-color".
Definition CellBorderTopWidth : string := "cell-border-top-width".
Definition CellBorderBottom : string := "cell-border-bottom".
Definition CellBorderBottomStyle : string := "cell-border-bottom-style".
Definition CellBorderBottomColor : string := "cell-border-bottom-color".
Definition CellBorderBottomWidth : string := "cell-border-bottom-width".

Definition Outline : string := "outline".
Definition OutlineColor : string := "outline-color".
Definition OutlineStyle : string := "outline-style".
Definition OutlineWidth : string := "outline-width".

Definition Radius : string := "radius".
Definition RadiusX : string := "radius-x".
Definition RadiusY : string := "radius-y".
Definition RadiusTopLeft : string := "radius-top-left".
Definition RadiusTopLeftX : string := "radius-top-left-x".
Definition RadiusTopLeftY : string := "radius-top-left-y".
Definition RadiusTopRight : string := "radius-top-right".
Definition RadiusTopRightX : string := "radius-top-right-x".
Definition RadiusTopRightY : string := "radius-top-right-y".
Definition RadiusBottomLeft : string := "radius-bottom-left".
Definition RadiusBottomLeftX : string := "radius-bottom-left-x".
Definition RadiusBottomLeftY : string := "radius-bottom-left-y".
Definition RadiusBottomRight : string := "radius-bottom-right".
Definition RadiusBottomRightX : string := "radius-bottom-right-x".
Definition RadiusBottomRightY : string := "radius-bottom-right-y".

Definition Margin : string := "margin".
Definition MarginTop : string := "margin-top".
Definition MarginRight : string := "margin-right".
Definition MarginBottom : string := "margin-bottom".
Definition MarginLeft : string := "margin-left".
Definition Padding : string := "padding".
Definition PaddingTop : string := "padding-top".
Definition PaddingRight : string := "padding-right".
Definition PaddingBottom : string := "padding-bottom".
Definition PaddingLeft : string := "padding-left".
Definition CellPadding : string := "cell-padding".
Definition CellPaddingTop : string := "cell-padding-top".
Definition CellPaddingRight : string := "cell-padding-right".
Definition CellPaddingBottom : string := "cell-padding-bottom".
Definition CellPaddingLeft : string := "cell-padding-left".
Definition ColumnSeparator : string := "column-separator".
Definition ColumnSeparatorStyle : string := "column-separator-style".
Definition ColumnSeparatorWidth : string := "column-separator-width".
Definition ColumnSeparatorColor : string := "column-separator-color".

(** The families of tags named together by a [case] of the sources. *)
Definition styleTags : list string := [Style; StyleDisabled].
Definition focusTags : list string := [FocusEvent; LostFocusEvent].
Definition keyTags : list string := [KeyDownEvent; KeyUpEvent].
Definition mouseTags : list string :=
  [ClickEvent; DoubleClickEvent; MouseDown; MouseUp; MouseMove; MouseOut; MouseOver;
   ContextMenuEvent].
Definition pointerTags : list string :=
  [PointerDown; PointerUp; PointerMove; PointerOut; PointerOver; PointerCancel].
Definition touchTags : list string := [TouchStart; TouchEnd; TouchMove; TouchCancel].
Definition transitionTags : list string :=
  [TransitionRunEvent; TransitionStartEvent; TransitionEndEvent; TransitionCancelEvent].
Definition animationTags : list string :=
  [AnimationStartEvent; AnimationEndEvent; AnimationIterationEvent; AnimationCancelEvent].
Definition frameTags : list string := [ResizeEvent; ScrollEvent].

Definition borderEdgeTags : list string := [BorderLeft; BorderRight; BorderTop; BorderBottom].
Definition borderStyleTags : list string :=
  [BorderStyle; BorderLeftStyle; BorderRightStyle; BorderTopStyle; BorderBottomStyle].
Definition borderColorTags : list string :=
  [BorderColor; BorderLeftColor; BorderRightColor; BorderTopColor; BorderBottomColor].
Definition borderWidthTags : list string :=
  [BorderWidth; BorderLeftWidth; BorderRightWidth; BorderTopWidth; BorderBottomWidth].
(** The four tags of the width of one edge. *)
Definition borderEdgeWidthTags : list string :=
  [BorderLeftWidth; BorderRightWidth; BorderTopWidth; BorderBottomWidth].

Definition cellBorderTags : list string :=
  [CellBorderStyle; CellBorderColor; CellBorderWidth;
   CellBorderLeft; CellBorderLeftStyle; CellBorderLeftColor; CellBorderLeftWidth;
   CellBorderRight; CellBorderRightStyle; CellBorderRightColor; CellBorderRightWidth;
   CellBorderTop; CellBorderTopStyle; CellBorderTopColor; CellBorderTopWidth;
   CellBorderBottom; CellBorderBottomStyle; CellBorderBottomColor; CellBorderBottomWidth].
Definition outlineTags : list string := [OutlineColor; OutlineStyle; OutlineWidth].
Definition radiusTags : list string :=
  [RadiusX; RadiusY; RadiusTopLeft; RadiusTopLeftX; RadiusTopLeftY;
   RadiusTopRight; RadiusTopRightX; RadiusTopRightY;
   RadiusBottomLeft; RadiusBottomLeftX; RadiusBottomLeftY;
   RadiusBottomRight; RadiusBottomRightX; RadiusBottomRightY].
Definition marginTags : list string :=
  [MarginTop; MarginRight; MarginBottom; MarginLeft;
   "top-margin"; "right-margin"; "bottom-margin"; "left-margin"].
Definition paddingTags : list string :=
  [PaddingTop; PaddingRight; PaddingBottom; PaddingLeft;
   "top-padding"; "right-padding"; "bottom-padding"; "left-padding"].
Definition cellPaddingTags : list string :=
  [CellPaddingTop; CellPaddingRight; CellPaddingBottom; CellPaddingLeft].
Definition columnSeparatorTags : list string :=
  [ColumnSeparatorStyle; ColumnSeparatorWidth; ColumnSeparatorColor].

(** [tag] is one of the constants of a [case]. *)
Definition isOneOf (tag : string) (tags : list string) : bool :=
  bool_decide (tag ∈ tags).

(** What [viewData] uses from the rest of the package. Readers are functions
    of the view and the session; methods that may change the view or send
    instructions are state transformers. *)
Class ViewExt := {
  (** [Session.nextViewID] *)
  nextViewID : sessionData -> string * sessionData;
  (** [IsDisabled(view, "")] and [stringProperty(view, tag, session)] *)
  IsDisabled : viewData -> sessionData -> bool;
  viewStringProperty : viewData -> string -> sessionData -> option string;
  (** the listener setters and removers of the other event files *)
  setFocusListener : string -> value -> M (World viewData) bool;
  setKeyListener : string -> value -> M (World viewData) bool;
  setMouseListener : string -> value -> M (World viewData) bool;
  setPointerListener : string -> value -> M (World viewData) bool;
  setTouchListener : string -> value -> M (World viewData) bool;
  setFrameListener : string -> value -> M (World viewData) bool;
  removeFocusListener : string -> M (World viewData) unit;
  removeKeyListener : string -> M (World viewData) unit;
  removeMouseListener : string -> M (World viewData) unit;
  removePointerListener : string -> M (World viewData) unit;
  removeTouchListener : string -> M (World viewData) unit;
  (** [viewStyle.set], [viewStyle.remove] and [viewStyle.get], methods of
      the embedded style *)
  viewStyle_set : string -> value -> M (World viewStyle) bool;
  viewStyle_remove : string -> M (World viewStyle) unit;
  viewStyle_get : viewStyle -> string -> value;
  (** [viewData.updateTransformProperty] *)
  updateTransformProperty : string -> M (World viewData) bool;
  (** [getBorder(view, tag)] *)
  getBorder : viewData -> string -> option BorderProperty;
  (** the cases of [viewPropertyChanged] for the tags outside the border
      family, and what follows its [switch] *)
  otherPropertyChanged : string -> string -> M (World viewData) unit;
  (** [viewStyle.transitionCSS]: tag and [animation.transitionCSS] of every
      entry of [transitions], joined with ", ", in the order in which Go
      happens to range over the map *)
  viewStyle_transitionCSS : gmap string Animation -> sessionData -> string;
  (** [DataObject.PropertyValue] *)
  PropertyValue : DataObject -> string -> option string
}.

(** The embedded [viewStyle] of the receiver. *)
Definition onStyle {A} (m : M (World viewStyle) A) : M (World viewData) A :=
  embedded style (fun s v => withStyle (fun _ => s) v) m.

(** [htmlID] *)
Definition viewData_htmlID `{ViewExt} : M (World viewData) string :=
  fun w =>
    if String.eqb (_htmlID (self w)) EmptyString then
      let '(id, session') := nextViewID (session w) in
      (id, mkWorld (withHtmlID id (self w)) session' (trace w) (heap w))
    else (_htmlID (self w), w).

(** [htmlClass] *)
Definition viewData_htmlClass `{ViewExt} (view : viewData) (session : sessionData)
    (disabled : bool) : string :=
  let cls := "ruiView" in
  let '(cls, disabledStyle) :=
    if disabled then
      match viewStringProperty view StyleDisabled session with
      | Some value =>
          if negb (String.eqb value EmptyString) then (cls +:+ " " +:+ value, true)
          else (cls, false)
      | None => (cls, false)
      end
    else (cls, false) in
  let cls :=
    if negb disabledStyle then
      match viewStringProperty view Style session with
      | Some value => cls +:+ " " +:+ value
      | None => cls
      end
    else cls in
  if negb (String.eqb (systemClass view) EmptyString)
  then systemClass view +:+ " " +:+ cls else cls.

(** [updateProperty(view.htmlID(), "class",
    view.htmlClass(IsDisabled(view, "")), view.session)] *)
Definition viewData_updateClass `{ViewExt} : M (World viewData) unit :=
  htmlID <- viewData_htmlID ;;
  w <- get ;;
  emit (updateProperty htmlID "class"
          (viewData_htmlClass (self w) (session w) (IsDisabled (self w) (session w)))).

(** [updateTransitionCSS] *)
Definition viewData_updateTransitionCSS `{ViewExt} : M (World viewData) unit :=
  htmlID <- viewData_htmlID ;;
  w <- get ;;
  emit (updateCSSProperty htmlID "transition"
          (viewStyle_transitionCSS (viewTransitions (self w)) (session w))).

(** [getTransitions] *)
Definition viewData_getTransitions (view : viewData) : gmap string value :=
  valueOfAnimation <$> viewTransitions view.

(** [propertyChangedEvent] *)
Definition viewData_propertyChangedEvent (tag : string) : M (World viewData) unit :=
  view <- me ;;
  match changeListener view !! tag with
  | Some listener => emit (call listener tag)
  | None => ret tt
  end ;;
  let group : option string :=
    if isOneOf tag (borderEdgeTags ++ borderStyleTags ++ borderColorTags ++ borderWidthTags)
    then Some Border
    else if isOneOf tag cellBorderTags then Some CellBorder
    else if isOneOf tag outlineTags then Some Outline
    else if isOneOf tag radiusTags then Some Radius
    else if isOneOf tag marginTags then Some Margin
    else if isOneOf tag paddingTags then Some Padding
    else if isOneOf tag cellPaddingTags then Some CellPadding
    else if isOneOf tag columnSeparatorTags then Some ColumnSeparator
    else None in
  match group with
  | Some tag =>
      match changeListener view !! tag with
      | Some listener => emit (call listener tag)
      | None => ret tt
      end
  | None => ret tt
  end.

(** The three instructions for the border of a view. *)
Definition updateBorderCSS (htmlID : string) (border : BorderProperty)
    : M (World viewData) unit :=
  w <- get ;;
  emit (updateCSSProperty htmlID BorderWidth (cssWidthValue border (session w))) ;;
  emit (updateCSSProperty htmlID BorderColor (cssColorValue border (session w))) ;;
  emit (updateCSSProperty htmlID BorderStyle (cssStyleValue border (session w))).

(** [viewPropertyChanged]: the cases of the border family are written out;
    the cases of the other tags and the tables after the [switch] are
    [otherPropertyChanged]. *)
Definition viewPropertyChanged `{ViewExt} (tag : string) : M (World viewData) unit :=
  done <- updateTransformProperty tag ;;
  if done : bool then ret tt
  else
    htmlID <- viewData_htmlID ;;
    w <- get ;;
    let view := self w in
    let session := session w in
    if String.eqb tag Border then
      match getBorder view Border with
      | None =>
          emit (updateCSSProperty htmlID BorderWidth EmptyString) ;;
          emit (updateCSSProperty htmlID BorderColor EmptyString) ;;
          emit (updateCSSProperty htmlID BorderStyle "none")
      | Some _ =>
          (* fallthrough *)
          match getBorder view Border with
          | Some border => updateBorderCSS htmlID border
          | None => ret tt
          end
      end
    else if isOneOf tag borderEdgeTags then
      match getBorder view Border with
      | Some border => updateBorderCSS htmlID border
      | None => ret tt
      end
    else if isOneOf tag borderStyleTags then
      match getBorder view Border with
      | Some border => emit (updateCSSProperty htmlID BorderStyle (cssStyleValue border session))
      | None => ret tt
      end
    else if isOneOf tag borderColorTags then
      match getBorder view Border with
      | Some border => emit (updateCSSProperty htmlID BorderColor (cssColorValue border session))
      | None => ret tt
      end
    else if isOneOf tag borderWidthTags then
      match getBorder view Border with
      | Some border => emit (updateCSSProperty htmlID BorderWidth (cssWidthValue border session))
      | None => ret tt
      end
    else otherPropertyChanged htmlID tag.

(** [removeTransitionListener] and [removeAnimationListener] *)
Definition viewData_removeEventListener `{ViewExt}
    (table : list (string * (string * string))) (tag : string) : M (World viewData) unit :=
  update (withProperties (deleteProperty tag)) ;;
  view <- me ;;
  if created view then
    match lookupEvent table tag with
    | Some (jsEvent, _) =>
        htmlID <- viewData_htmlID ;; emit (removeProperty htmlID jsEvent)
    | None => ret tt
    end
  else ret tt.

Definition viewData_removeTransitionListener `{ViewExt} (tag : string)
    : M (World viewData) unit :=
  viewData_removeEventListener transitionEvents tag.

Definition viewData_removeAnimationListener `{ViewExt} (tag : string)
    : M (World viewData) unit :=
  viewData_removeEventListener animationEvents tag.

(** [setTransitionListener] and [setAnimationListener], which differ by
    their table and their remover only. *)
Definition viewData_setEventListener `{ViewExt}
    (table : list (string * (string * string))) (tag : string) (value : value)
    : M (World viewData) bool :=
  let '(listeners, ok) := valueToAnimationListeners value in
  if negb ok then
    emit (notCompatibleType tag value) ;; ret false
  else
    match listeners with
    | [] => viewData_removeEventListener table tag ;; ret true
    | _ =>
        match lookupEvent table tag with
        | Some (jsEvent, jsFunc) =>
            update (withProperties (setProperty tag (VListeners listeners))) ;;
            view <- me ;;
            (if created view then
               htmlID <- viewData_htmlID ;;
               emit (updateProperty htmlID jsEvent (jsFunc +:+ "(this, event)"))
             else ret tt) ;;
            ret true
        | None => ret false
        end
    end.

Definition viewData_setTransitionListener `{ViewExt} (tag : string) (value : value)
    : M (World viewData) bool :=
  viewData_setEventListener transitionEvents tag value.

Definition viewData_setAnimationListener `{ViewExt} (tag : string) (value : value)
    : M (World viewData) bool :=
  viewData_setEventListener animationEvents tag value.

(** [remove] *)
Definition viewData_remove `{ViewExt} (tag : string) : M (World viewData) unit :=
  (if String.eqb tag ID then
     update (withViewID EmptyString)
   else if String.eqb tag UserData then
     update (withProperties (deleteProperty tag))
   else if isOneOf tag styleTags then
     view <- me ;;
     match viewProperties view !! tag with
     | Some _ =>
         update (withProperties (deleteProperty tag)) ;;
         viewData_updateClass
     | None => ret tt
     end
   else if isOneOf tag focusTags then removeFocusListener tag
   else if isOneOf tag keyTags then removeKeyListener tag
   else if isOneOf tag mouseTags then removeMouseListener tag
   else if isOneOf tag pointerTags then removePointerListener tag
   else if isOneOf tag touchTags then removeTouchListener tag
   else if isOneOf tag transitionTags then viewData_removeTransitionListener tag
   else if isOneOf tag animationTags then viewData_removeAnimationListener tag
   else if isOneOf tag frameTags then
     update (withProperties (deleteProperty tag))
   else if String.eqb tag Content then
     view <- me ;;
     match viewProperties view !! Content with
     | Some _ =>
         update (withProperties (deleteProperty Content)) ;;
         htmlID <- viewData_htmlID ;;
         emit (updateInnerHTML htmlID)
     | None => ret tt
     end
   else
     onStyle (viewStyle_remove tag) ;;
     viewPropertyChanged tag) ;;
  viewData_propertyChangedEvent tag.

(** [Remove] *)
Definition viewData_Remove `{ViewExt} (tag : string) : M (World viewData) unit :=
  viewData_remove (ToLower tag).

(** [set]; [result] is the closure of the same name. *)
Definition viewData_set `{ViewExt} (tag : string) (value : value)
    : M (World viewData) bool :=
  if isNil value then
    viewData_remove tag ;; ret true
  else
    let result (res : bool) : M (World viewData) bool :=
      (if res then viewData_propertyChangedEvent tag else ret tt) ;; ret res in
    let changed : M (World viewData) bool :=
      viewData_propertyChangedEvent tag ;; ret true in
    if String.eqb tag ID then
      match value with
      | VString text => update (withViewID text) ;; changed
      | _ => emit (notCompatibleType ID value) ;; ret false
      end
    else if String.eqb tag UserData then
      update (withProperties (setProperty tag value)) ;; changed
    else if isOneOf tag styleTags then
      match value with
      | VString text =>
          update (withProperties (setProperty tag (VString text))) ;;
          view <- me ;;
          (if created view then viewData_updateClass else ret tt) ;;
          changed
      | _ => emit (notCompatibleType ID value) ;; ret false
      end
    else if isOneOf tag focusTags then res <- setFocusListener tag value ;; result res
    else if isOneOf tag keyTags then res <- setKeyListener tag value ;; result res
    else if isOneOf tag mouseTags then res <- setMouseListener tag value ;; result res
    else if isOneOf tag pointerTags then res <- setPointerListener tag value ;; result res
    else if isOneOf tag touchTags then res <- setTouchListener tag value ;; result res
    else if isOneOf tag transitionTags then
      res <- viewData_setTransitionListener tag value ;; result res
    else if isOneOf tag animationTags then
      res <- viewData_setAnimationListener tag value ;; result res
    else if isOneOf tag frameTags then res <- setFrameListener tag value ;; result res
    else
      ok <- onStyle (viewStyle_set tag value) ;;
      if negb ok then ret false
      else
        view <- me ;;
        (if created view then viewPropertyChanged tag else ret tt) ;;
        changed.

(** [Set] *)
Definition viewData_Set `{ViewExt} (tag : string) (value : value)
    : M (World viewData) bool :=
  viewData_set (ToLower tag) value.

(** [get] and [Get] *)
Definition viewData_get `{ViewExt} (view : viewData) (tag : string) : value :=
  if String.eqb tag ID then
    if negb (String.eqb (viewID view) EmptyString) then VString (viewID view) else VNil
  else viewStyle_get (style view) tag.

Definition viewData_Get `{ViewExt} (view : viewData) (tag : string) : value :=
  viewData_get view (ToLower tag).

(** [SetChangeListener]; a nil function removes the entry. *)
Definition viewData_SetChangeListener (tag : string) (listener : listener)
    : M (World viewData) unit :=
  if isNilListener listener then update (withChangeListener (delete tag))
  else update (withChangeListener (<[tag := listener]>)).

(** [getAnimationListeners(view, "", tag)] for a [viewData] receiver *)
Definition viewData_getAnimationListeners `{ViewExt} (view : viewData) (tag : string)
    : list listener :=
  match viewData_Get view tag with
  | VListeners result => result
  | _ => []
  end.

(** [handleTransitionEvents] *)
Definition viewData_handleTransitionEvents `{ViewExt} (tag : string) (data : DataObject)
    : M (World viewData) unit :=
  match PropertyValue data "property" with
  | Some property =>
      (if String.eqb tag TransitionEndEvent || String.eqb tag TransitionCancelEvent then
         view <- me ;;
         match singleTransition view !! property with
         | Some animation =>
             update (withSingleTransition (delete property)) ;;
             match animation with
             | Some _ => update (withTransitions (<[property := animation]>))
             | None => update (withTransitions (delete property))
             end ;;
             viewData_updateTransitionCSS
         | None => ret tt
         end
       else ret tt) ;;
      view <- me ;;
      forEach (viewData_getAnimationListeners view tag)
              (fun listener => emit (call listener property))
  | None => ret tt
  end.

(** [viewData.SetAnimated] *)
Definition viewData_SetAnimated `{ViewExt} (tag : string) (value : value)
    (animation : Animation) : M (World viewData) bool :=
  match animation with
  | None => viewData_Set tag value
  | Some _ =>
      htmlID <- viewData_htmlID ;;
      emit (updateProperty htmlID "ontransitionend" "transitionEndEvent(this, event)") ;;
      htmlID <- viewData_htmlID ;;
      emit (updateProperty htmlID "ontransitioncancel" "transitionCancelEvent(this, event)") ;;
      view <- me ;;
      match viewTransitions view !! tag with
      | Some prevAnimation => update (withSingleTransition (<[tag := prevAnimation]>))
      | None => update (withSingleTransition (<[tag := None]>))
      end ;;
      update (withTransitions (<[tag := animation]>)) ;;
      viewData_updateTransitionCSS ;;
      result <- viewData_Set tag value ;;
      if negb result then
        update (withSingleTransition (delete tag)) ;;
        viewData_updateTransitionCSS ;;
        ret result
      else ret result
  end.

(** ** Drop-down lists *)

Definition DropDownEvent : string := "drop-down-event".

(** Modelled from the spec: the tag constants [Items], [DisabledItems] and
    [Current] are declared outside the embedded files; same spelling rule as
    for the tags of views. *)
Definition Items : string := "items".
Definition DisabledItems : string := "disabled-items".
Definition Current : string := "current".

(** The struct [dropDownListData]. *)
Record dropDownListData := mkDropDownList {
  listView : viewData;
  items : list string;
  disabledItems : list value;
  dropDownListener : list dropDownFunc
}.

Definition withListView (f : viewData -> viewData) (l : dropDownListData) : dropDownListData :=
  mkDropDownList (f (listView l)) (items l) (disabledItems l) (dropDownListener l).
Definition withItems (x : list string) (l : dropDownListData) : dropDownListData :=
  mkDropDownList (listView l) x (disabledItems l) (dropDownListener l).
Definition withDisabledItems (x : list value) (l : dropDownListData) : dropDownListData :=
  mkDropDownList (listView l) (items l) x (dropDownListener l).
Definition withDropDownListener (x : list dropDownFunc) (l : dropDownListData)
    : dropDownListData :=
  mkDropDownList (listView l) (items l) (disabledItems l) x.

(** What [dropDownListData] uses beside [ViewExt]. [setItems] and
    [setDisabledItems] convert item values of types that are not told apart
    in [value]; they are taken as they are. *)
Class DropDownExt := {
  (** [GetCurrent(list, "")] *)
  GetCurrent : dropDownListData -> sessionData -> Z;
  (** [list.setIntProperty(Current, value)], a method of the property list *)
  listSetIntProperty : string -> value -> M (World propertyList) bool;
  dropDownListData_setItems : value -> M (World dropDownListData) bool;
  dropDownListData_setDisabledItems : value -> M (World dropDownListData) bool
}.

(** The embedded [viewData] of the receiver. *)
Definition onListView {A} (m : M (World viewData) A) : M (World dropDownListData) A :=
  embedded listView (fun v l => withListView (fun _ => v) l) m.

(** [fmt.Sprintf(`selectDropDownListItem('%s', %d)`, htmlID, n)] *)
Definition selectScript (htmlID : string) (n : Z) : string :=
  "selectDropDownListItem('" +:+ htmlID +:+ "', " +:+ Itoa n +:+ ")".

(** [onSelectedItemChanged] *)
Definition dropDownListData_onSelectedItemChanged `{ViewExt} (number : Z)
    : M (World dropDownListData) unit :=
  list <- me ;;
  forEach (dropDownListener list) (fun listener => emit (callDropDown listener number)) ;;
  onListView (viewData_propertyChangedEvent Current).

(** [if list.created { updateInnerHTML(list.htmlID(), list.session) }] *)
Definition dropDownListData_refresh `{ViewExt} : M (World dropDownListData) unit :=
  list <- me ;;
  if created (listView list) then
    htmlID <- onListView viewData_htmlID ;; emit (updateInnerHTML htmlID)
  else ret tt.

(** [if list.created { list.session.runScript(...) }] *)
Definition dropDownListData_select `{ViewExt} (n : Z) : M (World dropDownListData) unit :=
  list <- me ;;
  if created (listView list) then
    htmlID <- onListView viewData_htmlID ;; emit (runScript (selectScript htmlID n))
  else ret tt.

(** [dropDownListData.remove] *)
Definition dropDownListData_remove `{ViewExt} `{DropDownExt} (tag : string)
    : M (World dropDownListData) unit :=
  list <- me ;;
  if String.eqb tag Items then
    if (0 <? length (items list))%nat then
      update (withItems []) ;;
      dropDownListData_refresh ;;
      onListView (viewData_propertyChangedEvent tag)
    else ret tt
  else if String.eqb tag DisabledItems then
    if (0 <? length (disabledItems list))%nat then
      update (withDisabledItems []) ;;
      dropDownListData_refresh ;;
      onListView (viewData_propertyChangedEvent tag)
    else ret tt
  else if String.eqb tag DropDownEvent then
    if (0 <? length (dropDownListener list))%nat then
      update (withDropDownListener []) ;;
      onListView (viewData_propertyChangedEvent tag)
    else ret tt
  else if String.eqb tag Current then
    w <- get ;;
    let oldCurrent := GetCurrent (self w) (session w) in
    update (withListView (withProperties (deleteProperty Current))) ;;
    if negb (oldCurrent =? 0)%Z then
      dropDownListData_select 0 ;;
      dropDownListData_onSelectedItemChanged 0
    else ret tt
  else onListView (viewData_remove tag).

(** [dropDownListData.Remove] *)
Definition dropDownListData_Remove `{ViewExt} `{DropDownExt} (tag : string)
    : M (World dropDownListData) unit :=
  dropDownListData_remove (ToLower tag).

(** The loop of [setDropDownListener] over [[]func(int)]: as in
    [wrapListenersLoop], every closure is around the one variable [val] of
    the loop and calls, after the loop, the last element, [captured]. *)
Fixpoint wrapIndexListenersLoop (value : list goFunc) (captured : goFunc)
    : option (list dropDownFunc) :=
  match value with
  | [] => Some []
  | val :: rest =>
      if isNilFunc val then None
      else match wrapIndexListenersLoop rest captured with
           | Some listeners => Some (wrapIndex captured :: listeners)
           | None => None
           end
  end.

Definition wrapIndexListeners (value : list goFunc) : option (list dropDownFunc) :=
  wrapIndexListenersLoop value (List.last value nilFunc).

(** The loop of [setDropDownListener] over [[]interface{}]: the type switch
    gives every round a variable [val] of its own. *)
Fixpoint convertDropDownListeners (value : list value) : option (list dropDownFunc) :=
  match value with
  | [] => Some []
  | val :: rest =>
      if isNil val then None
      else
        let next (f : dropDownFunc) :=
          match convertDropDownListeners rest with
          | Some listeners => Some (f :: listeners)
          | None => None
          end in
        match val with
        | VFuncDropDown f => next f
        | VFuncInt v => next (wrapIndex v)
        | _ => None
        end
  end.

(** [setDropDownListener] *)
Definition dropDownListData_setDropDownListener `{ViewExt} (value : value)
    : M (World dropDownListData) bool :=
  let accept (listeners : list dropDownFunc) : M (World dropDownListData) bool :=
    update (withDropDownListener listeners) ;;
    onListView (viewData_propertyChangedEvent DropDownEvent) ;;
    ret true in
  let reject : M (World dropDownListData) bool :=
    emit (notCompatibleType DropDownEvent value) ;; ret false in
  match value with
  | VFuncDropDown f => accept [f]
  | VFuncInt v => accept [wrapIndex v]
  | VDropDownListeners l => accept l
  | VSliceFuncInt l =>
      match wrapIndexListeners l with
      | Some listeners => accept listeners
      | None => reject
      end
  | VSlice l =>
      match convertDropDownListeners l with
      | Some listeners => accept listeners
      | None => reject
      end
  | _ => reject
  end.

(** [dropDownListData.set] *)
Definition dropDownListData_set `{ViewExt} `{DropDownExt} (tag : string) (value : value)
    : M (World dropDownListData) bool :=
  if isNil value then
    dropDownListData_remove tag ;; ret true
  else if String.eqb tag Items then dropDownListData_setItems value
  else if String.eqb tag DisabledItems then dropDownListData_setDisabledItems value
  else if String.eqb tag DropDownEvent then dropDownListData_setDropDownListener value
  else if String.eqb tag Current then
    w <- get ;;
    let oldCurrent := GetCurrent (self w) (session w) in
    ok <- onListView (onStyle
            (embedded stylePropertyList (fun pl s => mkViewStyle pl (transitions s))
               (listSetIntProperty Current value))) ;;
    if negb ok then ret false
    else
      w <- get ;;
      let current := GetCurrent (self w) (session w) in
      (if negb (oldCurrent =? current)%Z then
         dropDownListData_select current ;;
         dropDownListData_onSelectedItemChanged current
       else ret tt) ;;
      ret true
  else onListView (viewData_set tag value).

(** [dropDownListData.Set] *)
Definition dropDownListData_Set `{ViewExt} `{DropDownExt} (tag : string) (value : value)
    : M (World dropDownListData) bool :=
  dropDownListData_set (ToLower tag) value.

(** ** The interface [View] and the functions over it (animation.go) *)

(** The two implementations of [View] in the embedded files. *)
Inductive viewObject :=
  | PlainView (view : viewData)
  | DropDownView (list : dropDownListData).

(** A [View] is nil or a pointer into the store of views. *)
Abbreviation View := (option nat).

(** [ViewByID(view, subviewID)] searches the tree of views; it is declared
    outside the embedded files and is read as a lookup that may write to the
    log. *)
Class LookupExt := {
  ViewByID : gmap nat viewObject -> View -> string -> View * list effect
}.

(** The [viewData] of an object, through the embedding. *)
Definition viewDataOf (o : viewObject) : viewData :=
  match o with
  | PlainView view => view
  | DropDownView list => listView list
  end.

(** Dispatch of a method of [View] on the dynamic type. *)
Definition dispatch {A} (onView : M (World viewData) A)
    (onList : M (World dropDownListData) A) : M (World viewObject) A :=
  fun w =>
    match self w with
    | PlainView view =>
        let '(a, w') := onView (mkWorld view (session w) (trace w) (heap w)) in
        (a, mkWorld (PlainView (self w')) (session w') (trace w') (heap w'))
    | DropDownView list =>
        let '(a, w') := onList (mkWorld list (session w) (trace w) (heap w)) in
        (a, mkWorld (DropDownView (self w')) (session w') (trace w') (heap w'))
    end.

(** [view.Set(tag, value)], [view.SetAnimated(tag, value, animation)] and
    [view.getTransitions()] for a [View]. *)
Definition View_Set `{ViewExt} `{DropDownExt} (tag : string) (value : value)
    : M (World viewObject) bool :=
  dispatch (viewData_Set tag value) (dropDownListData_Set tag value).

Definition View_SetAnimated `{ViewExt} (tag : string) (value : value) (animation : Animation)
    : M (World viewObject) bool :=
  dispatch (viewData_SetAnimated tag value animation)
           (onListView (viewData_SetAnimated tag value animation)).

Definition View_getTransitions (o : viewObject) : gmap string value :=
  viewData_getTransitions (viewDataOf o).

(** A method call through a non-nil [View]; a pointer always has its object
    in Go, [absent] stands for the case that cannot arise. *)
Definition atView {A} (r : nat) (m : M (World viewObject) A) (absent : A)
    : M (World (gmap nat viewObject)) A :=
  fun w =>
    match self w !! r with
    | Some o =>
        let '(a, w') := m (mkWorld o (session w) (trace w) (heap w)) in
        (a, mkWorld (<[r := self w']> (self w)) (session w') (trace w') (heap w'))
    | None => (absent, w)
    end.

(** [view = ViewByID(view, subviewID)] *)
Definition resolveView `{LookupExt} (view : View) (subviewID : string)
    : M (World (gmap nat viewObject)) View :=
  fun w =>
    let '(found, log) := ViewByID (self w) view subviewID in
    (found, mkWorld (self w) (session w) (trace w ++ log) (heap w)).

(** [SetAnimated], the function of the package *)
Definition SetAnimated `{ViewExt} `{LookupExt} (rootView : View) (viewID tag : string)
    (value : value) (animation : Animation) : M (World (gmap nat viewObject)) bool :=
  view <- resolveView rootView viewID ;;
  match view with
  | Some r => atView r (View_SetAnimated tag value animation) false
  | None => ret false
  end.

(** [GetTransition] *)
Definition GetTransition `{LookupExt} (view : View) (subviewID : string)
    : M (World (gmap nat viewObject)) (gmap string value) :=
  view <- (if negb (String.eqb subviewID EmptyString)
           then resolveView view subviewID else ret view) ;;
  match view with
  | Some r => atView r (o <- me ;; ret (View_getTransitions o)) ∅
  | None => ret ∅
  end.

(** [AddTransition] *)
Definition AddTransition `{ViewExt} `{DropDownExt} `{LookupExt}
    (view : View) (subviewID tag : string) (animation : Animation)
    : M (World (gmap nat viewObject)) bool :=
  if String.eqb tag EmptyString then ret false
  else
    view <- (if negb (String.eqb subviewID EmptyString)
             then resolveView view subviewID else ret view) ;;
    match view with
    | None => ret false
    | Some r =>
        atView r
          (o <- me ;;
           let transitions := <[tag := valueOfAnimation animation]> (View_getTransitions o) in
           View_Set Transition (VParams transitions))
          false
    end.

(** ** Instances used to run the definitions

    Small stand-ins for the parts outside the embedded files, on which the
    definitions above can be evaluated. *)

Module Samples.

(** [ParseFloat] accepts the plain decimal numerals and nothing else. *)
Definition strconv : Strconv := {| ParseFloat := plainDecimal |}.

(** An animation environment in which numbers are integers, constants
    resolve to themselves and every property is read off the map. *)
Definition animationExt : AnimationExt := {|
  float64 := Z;
  floatOfInt := fun n => n;
  MaxFloat64 := (2 ^ 1024)%Z;
  floatNeg := Z.opp;
  floatPositive := fun x => (0 <? x)%Z;
  formatG := Itoa;
  setFloatProperty := fun _ _ _ _ => ret false;
  setIntProperty := fun _ _ => ret false;
  setEnumProperty := fun _ _ _ => ret false;
  enumValues := fun _ => ["normal"; "reverse"; "alternate"; "alternate-reverse"];
  enumCssValues := fun _ => ["normal"; "reverse"; "alternate"; "alternate-reverse"];
  floatProperty := fun _ _ _ d => (d, false);
  intProperty := fun _ _ _ d => (d, false);
  enumProperty := fun _ _ _ d => (d, false);
  stringProperty := fun a tag _ =>
    match getRaw (animationProperties a) tag with
    | VString s => Some s
    | _ => None
    end;
  resolveConstants := fun _ s => Some s;
  writePropertyValue := fun _ _ => EmptyString;
  keyframesStyle := fun name _ _ _ => "@keyframes " +:+ name;
  escapeNewlines := fun s => s
|}.

Definition border : BorderProperty := {|
  cssWidthValue := fun _ => "1px";
  cssColorValue := fun _ => "black";
  cssStyleValue := fun _ => "solid"
|}.

(** The animations of a [Params] value. *)
Definition animationsOf (params : gmap string value) : gmap string Animation :=
  omap (fun v => match v with VAnimation r => Some (Some r) | _ => None end) params.

(** A view environment: the style takes a [Params] under "transition" as
    its new transitions and refuses every other value, no tag is a transform
    tag, and a border is configured exactly when the view has a "border"
    property. *)
Definition viewExt : ViewExt := {|
  nextViewID := fun s => ("id1", s);
  IsDisabled := fun _ _ => false;
  viewStringProperty := fun _ _ _ => None;
  setFocusListener := fun _ _ => ret false;
  setKeyListener := fun _ _ => ret false;
  setMouseListener := fun _ _ => ret false;
  setPointerListener := fun _ _ => ret false;
  setTouchListener := fun _ _ => ret false;
  setFrameListener := fun _ _ => ret false;
  removeFocusListener := fun _ => ret tt;
  removeKeyListener := fun _ => ret tt;
  removeMouseListener := fun _ => ret tt;
  removePointerListener := fun _ => ret tt;
  removeTouchListener := fun _ => ret tt;
  viewStyle_set := fun tag value =>
    match value with
    | VParams params =>
        if String.eqb tag Transition then
          update (fun s => mkViewStyle (stylePropertyList s) (animationsOf params)) ;;
          ret true
        else ret false
    | _ => ret false
    end;
  viewStyle_remove := fun _ => ret tt;
  viewStyle_get := fun s tag => getRaw (stylePropertyList s) tag;
  updateTransformProperty := fun _ => ret false;
  getBorder := fun view _ =>
    match viewProperties view !! Border with
    | Some _ => Some border
    | None => None
    end;
  otherPropertyChanged := fun _ _ => ret tt;
  viewStyle_transitionCSS := fun _ _ => EmptyString;
  PropertyValue := fun data name =>
    let 'dataObject _ nodes := data in
    match nodes with
    | TextNode t text :: _ => if String.eqb t name then Some text else None
    | _ => None
    end
|}.

Definition dropDownExt : DropDownExt := {|
  GetCurrent := fun _ _ => 0%Z;
  listSetIntProperty := fun _ _ => ret false;
  dropDownListData_setItems := fun _ => ret false;
  dropDownListData_setDisabledItems := fun _ => ret false
|}.

Definition lookupExt : LookupExt := {|
  ViewByID := fun _ _ _ => (None, [])
|}.

(** A fresh view, as [Init] leaves it, already given its HTML id. *)
Definition view0 : viewData := {|
  style := mkViewStyle (mkPropertyList ∅) ∅;
  tag := "View";
  viewID := EmptyString;
  _htmlID := "id0";
  parentID := EmptyString;
  systemClass := EmptyString;
  changeListener := ∅;
  singleTransition := ∅;
  noResizeEvent := false;
  created := false;
  hasFocus := false
|}.

(** The same view once shown, with a border configured. *)
Definition borderedView : viewData :=
  withCreated true (withProperties (setProperty Border (VOther "BorderProperty" 0)) view0).

(** The same view while an override of "opacity" is in flight: no
    transition was declared before, [A1] is the override. *)
Definition overridingView : viewData :=
  withSingleTransition (<["opacity" := None]>)
    (withTransitions (<["opacity" := Some 1%nat]>) view0).

(** The data of an event about the property "opacity". *)
Definition opacityEvent : DataObject :=
  dataObject EmptyString [TextNode "property" "opacity"].

Definition session0 : sessionData := mkSession 0 EmptyString.

(** A world without effects so far, with the maps of key frames [maps],
    and one without any map. *)
Definition worldWith {V} (maps : keyFrameMaps) (v : V) : World V :=
  mkWorld v session0 [] maps.

Definition world0 {V} (v : V) : World V := worldWith ∅ v.

(** Two animations. *)
Definition A1 : animRef := 1%nat.
Definition A2 : animRef := 2%nat.

(** The animated property of the spec: key frames at 0, 50 and 100 and
    neither end given. Its map is at the address 7. *)
Definition redBlueGreenFrames : gmap Z value :=
  <[0%Z := VString "red"]> (<[50%Z := VString "blue"]> (<[100%Z := VString "green"]> ∅)).

Definition redBlueGreen : AnimatedProperty := {|
  Tag := "background-color";
  From := VNil;
  To := VNil;
  KeyFrames := Some 7%nat
|}.

Definition redBlueGreenMaps : keyFrameMaps := {[ 7%nat := redBlueGreenFrames ]}.

Definition animation0 : animationData := mkAnimationData (mkPropertyList ∅) EmptyString.

(** An animation with one valid animated property and no name yet. *)
Definition redToGreen : AnimatedProperty :=
  mkAnimatedProperty "background-color" (VString "red") (VString "green") None.

Definition animation1 : animationData :=
  withAnimationProperties (setProperty PropertyTag (VAnimatedProperties [redToGreen]))
    animation0.

End Samples.

(** ** Notions used in the statements *)

(** An end of an animated property after the promotion of [Set]: the end
    that is given or, when none is given, the key frame at [k] that the map
    of the property holds in [maps] (nil when it holds none). *)
Definition promotedEnd (maps : keyFrameMaps) (p : AnimatedProperty) (given : value)
    (k : Z) : value :=
  if isNil given then
    match KeyFrames p with
    | Some r => default VNil (framesAt maps r !! k)
    | None => VNil
    end
  else given.

(** An animated property after the two promotions, for the maps [maps]. *)
Definition normalized (maps : keyFrameMaps) (p : AnimatedProperty) : AnimatedProperty :=
  mkAnimatedProperty (Tag p) (promotedEnd maps p (From p) 0) (promotedEnd maps p (To p) 100)
    (KeyFrames p).

(** What the promotions of [p] leave of its key frames: the key frame at 0
    is gone when [From] is not given, the one at 100 when [To] is not. *)
Definition withoutEnds (p : AnimatedProperty) (frames : gmap Z value) : gmap Z value :=
  let frames := if isNil (From p) then delete 0%Z frames else frames in
  if isNil (To p) then delete 100%Z frames else frames.

(** The maps after the promotions of [p]. *)
Definition promotedMaps (maps : keyFrameMaps) (p : AnimatedProperty) : keyFrameMaps :=
  match KeyFrames p with
  | Some r => alter (withoutEnds p) r maps
  | None => maps
  end.

(** The entries of a list after their promotions, one after the other: an
    entry finds the maps as the entries before it have left them. *)
Fixpoint normalizedList (maps : keyFrameMaps) (l : list AnimatedProperty)
    : list AnimatedProperty :=
  match l with
  | [] => []
  | p :: rest => normalized maps p :: normalizedList (promotedMaps maps p) rest
  end.

(** The maps after the promotions of all entries of a list. *)
Definition promotedMapsList (maps : keyFrameMaps) (l : list AnimatedProperty)
    : keyFrameMaps :=
  fold_left promotedMaps l maps.

(** Both ends of a property are there, and the log line written for a
    property, promoted already, that is dropped. *)
Definition resolvable (p : AnimatedProperty) : bool :=
  negb (isNil (From p)) && negb (isNil (To p)).

Definition dropLog (p : AnimatedProperty) : list effect :=
  if isNil (From p) then [ErrorLog "AnimatedProperty.From is nil"]
  else if isNil (To p) then [ErrorLog "AnimatedProperty.To is nil"]
  else [].

(** The entries of a list that [Set] keeps, in their order, and the log line
    written when none is kept. *)
Definition keptProperties (maps : keyFrameMaps) (l : list AnimatedProperty)
    : list AnimatedProperty :=
  List.filter resolvable (normalizedList maps l).

Definition emptyLog (maps : keyFrameMaps) (l : list AnimatedProperty) : list effect :=
  match keptProperties maps l with
  | [] => [ErrorLog "[]AnimatedProperty is empty"]
  | _ => []
  end.

(** The maps of key frames that a value of the tag "property" refers to. *)
Definition keyFrameRefs (v : value) : list mapRef :=
  match v with
  | VAnimatedProperty p => option_list (KeyFrames p)
  | VAnimatedProperties l => omap KeyFrames l
  | _ => []
  end.

(** The maps [after] are the maps [before] but for key frames at 0 and at
    100 taken out of the maps at [touched], and for new maps. *)
Definition endsTaken (touched : list mapRef) (before after : keyFrameMaps) : Prop :=
  forall r frames,
    before !! r = Some frames ->
    exists frames',
      after !! r = Some frames'
      /\ (r ∉ touched -> frames' = frames)
      /\ (forall k, k <> 0%Z -> k <> 100%Z -> frames' !! k = frames !! k)
      /\ (forall k v, frames' !! k = Some v -> frames !! k = Some v).

(** The animation with [props] under the tag "property". *)
Definition stored (props : list AnimatedProperty) (a : animationData) : animationData :=
  withAnimationProperties (setProperty PropertyTag (VAnimatedProperties props)) a.

(** The four callback shapes that an element of a heterogeneous list may
    have. *)
Definition isCallback (v : value) : bool :=
  match v with
  | VFuncViewString _ | VFuncString _ | VFuncView _ | VFunc _ => true
  | _ => false
  end.

(** An element of a heterogeneous list that holds a nil function of one of
    the four shapes: the interface itself is not nil for Go. *)
Definition boxedNil (v : value) : bool :=
  match v with
  | VFuncViewString (direct nilFunc) | VFuncString nilFunc | VFuncView nilFunc
  | VFunc nilFunc => true
  | _ => false
  end.

(** A listener that is a nil function, or a closure around one: its call
    fails. *)
Definition callsNil (f : listener) : bool :=
  match f with
  | direct nilFunc | wrapString nilFunc | wrapView nilFunc | wrapNoArg nilFunc => true
  | _ => false
  end.

(** Listener collections with a nil element or an element of an
    unsupported type. An element is nil when [== nil] holds for it in Go: a
    nil function in a list of functions, the nil interface in a
    heterogeneous list. *)
Inductive rejectedCollection : value -> Prop :=
  | nil_in_listeners (l : list listener) :
      direct nilFunc ∈ l -> rejectedCollection (VListeners l)
  | nil_in_string_listeners (l : list goFunc) :
      nilFunc ∈ l -> rejectedCollection (VSliceFuncString l)
  | nil_in_view_listeners (l : list goFunc) :
      nilFunc ∈ l -> rejectedCollection (VSliceFuncView l)
  | nil_in_plain_listeners (l : list goFunc) :
      nilFunc ∈ l -> rejectedCollection (VSliceFunc l)
  | nil_in_slice (l : list value) :
      VNil ∈ l -> rejectedCollection (VSlice l)
  | unsupported_in_slice (l : list value) (v : value) :
      v ∈ l -> isCallback v = false -> rejectedCollection (VSlice l).

(** The two kinds of transition events. *)
Definition terminalEvent (tag : string) : Prop :=
  tag = TransitionEndEvent \/ tag = TransitionCancelEvent.

Definition progressEvent (tag : string) : Prop :=
  tag = TransitionRunEvent \/ tag = TransitionStartEvent.

(** The view that [AddTransition] and [GetTransition] work on, with the log
    lines of the lookup. *)
Definition resolved `{LookupExt} (view : View) (subviewID : string)
    (views : gmap nat viewObject) : View * list effect :=
  if negb (String.eqb subviewID EmptyString) then ViewByID views view subviewID
  else (view, []).

(** The instructions [updateCSSProperty] of a trace, and the effects that a
    computation adds to the trace of a world. *)
Definition isCSSUpdate (e : effect) : bool :=
  match e with
  | updateCSSProperty _ _ _ => true
  | _ => false
  end.

Definition cssUpdates (t : list effect) : list effect := List.filter isCSSUpdate t.

Definition issued {V A} (m : M (World V) A) (w : World V) : list effect :=
  drop (length (trace w)) (trace (snd (m w))).

(** The propagation that the spec describes for the width of one edge:
    three instructions when a border is configured, none otherwise. *)
Definition tripleOrNothing `{ViewExt} (tag : string) (w : World viewData) : Prop :=
  length (cssUpdates (issued (viewPropertyChanged tag) w)) =
    match getBorder (self w) Border with
    | Some _ => 3%nat
    | None => 0%nat
    end.

(** A computation on a view that leaves [singleTransition] as it is. *)
Definition keepsSingleTransition {A} (m : M (World viewData) A) : Prop :=
  forall w, singleTransition (self (snd (m w))) = singleTransition (self w).

(** The methods of [viewData] that are outside the embedded files leave
    [singleTransition] as it is. *)
Class SingleTransitionUntouched `{ViewExt} : Prop := {
  setFocusListener_keeps : forall tag value, keepsSingleTransition (setFocusListener tag value);
  setKeyListener_keeps : forall tag value, keepsSingleTransition (setKeyListener tag value);
  setMouseListener_keeps : forall tag value, keepsSingleTransition (setMouseListener tag value);
  setPointerListener_keeps :
    forall tag value, keepsSingleTransition (setPointerListener tag value);
  setTouchListener_keeps : forall tag value, keepsSingleTransition (setTouchListener tag value);
  setFrameListener_keeps : forall tag value, keepsSingleTransition (setFrameListener tag value);
  removeFocusListener_keeps : forall tag, keepsSingleTransition (removeFocusListener tag);
  removeKeyListener_keeps : forall tag, keepsSingleTransition (removeKeyListener tag);
  removeMouseListener_keeps : forall tag, keepsSingleTransition (removeMouseListener tag);
  removePointerListener_keeps : forall tag, keepsSingleTransition (removePointerListener tag);
  removeTouchListener_keeps : forall tag, keepsSingleTransition (removeTouchListener tag);
  updateTransformProperty_keeps :
    forall tag, keepsSingleTransition (updateTransformProperty tag);
  otherPropertyChanged_keeps :
    forall htmlID tag, keepsSingleTransition (otherPropertyChanged htmlID tag)
}.


(** ** More of the sources *)

(** *** Timing functions: [CubicBezierTiming] (animation.go) *)

(** The comparison [x < y] of [float64], the one operation that
    [CubicBezierTiming] needs beside those of [AnimationExt]. *)
Class FloatOrder `{AnimationExt} := {
  floatLess : float64 -> float64 -> bool
}.

(** [CubicBezierTiming]; [fmt.Sprintf] with four verbs [%g]. *)
Definition CubicBezierTiming `{FloatOrder} (x1 y1 x2 y2 : float64) : string :=
  let x1 :=
    if floatLess x1 (floatOfInt 0) then floatOfInt 0
    else if floatLess (floatOfInt 1) x1 then floatOfInt 1
    else x1 in
  let x2 :=
    if floatLess x2 (floatOfInt 0) then floatOfInt 0
    else if floatLess (floatOfInt 1) x2 then floatOfInt 1
    else x2 in
  "cubic-bezier(" +:+ formatG x1 +:+ ", " +:+ formatG y1 +:+ ", "
  +:+ formatG x2 +:+ ", " +:+ formatG y2 +:+ ")".

(** The order of the integers, for the numbers of [Samples.animationExt]. *)
Definition integerOrder : FloatOrder (H := Samples.animationExt) :=
  {| floatLess := Z.ltb : float64 (AnimationExt := Samples.animationExt) ->
                          float64 (AnimationExt := Samples.animationExt) -> bool |}.

(** *** The key frames of [registerAnimation] (animation.go) *)

(** One round of the loop over the key frames of a property (lines 550 to
    563): the slice [frames] after the round for [frame]. The loop over the
    slice stops at an element equal to [frame], or at the first element [n]
    with [frame < n]; there
    [append(append(frames[:i], frame), frames[i+1:]...)] writes [frame] at
    index [i], within the capacity of the slice, and puts the elements after
    [i] behind it. When the loop runs to the end, [frame] is appended. *)
Fixpoint insertFrame (frames : list Z) (frame : Z) : list Z :=
  match frames with
  | [] => [frame]
  | n :: rest =>
      if (n =? frame)%Z then frames
      else if (frame <? n)%Z then frame :: rest
      else n :: insertFrame rest frame
  end.

(** The slice [frames] after the loops of lines 545 to 566, for the key
    frames in the order in which the loops come to them: property after
    property, the keys of one map in the order in which Go happens to range
    over it. *)
Definition collectFrames (visited : list Z) : list Z :=
  fold_left insertFrame visited [].

(** *** Animations from a parsed object (animation.go) *)

(** One round of the loop of [parseAnimation]: the text of a text node, or
    the node itself, is set under the tag of the node. *)
Definition parseAnimationNode `{AnimationExt} (node : DataNode)
    : M (World animationData) unit :=
  match node with
  | TextNode nodeTag text => animationData_Set nodeTag (VString text) ;; ret tt
  | ObjectNode nodeTag _ => animationData_Set nodeTag (VDataNode node) ;; ret tt
  | ArrayNode nodeTag _ => animationData_Set nodeTag (VDataNode node) ;; ret tt
  end.

(** Modelled from the spec: the method [init] of the property list is
    declared outside the embedded files; the entries of a property store
    "are created empty at initialization". The keyframe name of a new
    [animationData] is the empty string of a new struct. *)
Definition newAnimationData : animationData :=
  mkAnimationData (mkPropertyList ∅) EmptyString.

(** [parseAnimation]: a new animation takes the properties of the object one
    after the other; the caller gets the animation, and the session and the
    log go on. *)
Definition parseAnimation `{AnimationExt} {V} (obj : DataObject)
    : M (World V) animationData :=
  fun w =>
    let 'dataObject _ nodes := obj in
    let '(_, w') := forEach nodes parseAnimationNode
                      (mkWorld newAnimationData (session w) (trace w) (heap w)) in
    (self w', mkWorld (self w) (session w') (trace w') (heap w')).

(** *** The animations of a style (animation.go) *)

(** A method call through a non-nil [Animation], a pointer into the store of
    animations; a pointer always has its object in Go, [absent] stands for
    the case that cannot arise. *)
Definition atAnimation {A} (r : animRef) (m : M (World animationData) A) (absent : A)
    : M (World (gmap animRef animationData)) A :=
  fun w =>
    match self w !! r with
    | Some animation =>
        let '(a, w') := m (mkWorld animation (session w) (trace w) (heap w)) in
        (a, mkWorld (<[r := self w']> (self w)) (session w') (trace w') (heap w'))
    | None => (absent, w)
    end.

(** The loop of [viewStyle.animationCSS] over the animations that the style
    holds under the tag "animation" (lines 636 to 643); [buffer] is the text
    written so far, and the result is the text at the end of the loop. *)
Fixpoint viewStyle_animationCSS `{Strconv} `{AnimationExt} (animations : list animRef)
    (buffer : string) : M (World (gmap animRef animationData)) string :=
  match animations with
  | [] => ret buffer
  | animation :: rest =>
      css <- atAnimation animation animationData_animationCSS EmptyString ;;
      let buffer :=
        if negb (String.eqb css EmptyString) then
          (if (0 <? len buffer)%Z then buffer +:+ ", " else buffer) +:+ css
        else buffer in
      viewStyle_animationCSS rest buffer
  end.

(** *** Event attributes of the page (transition and animation events) *)

(** [js.jsEvent + `="` + js.jsFunc + `(this, event)" `] *)
Definition eventAttribute (js : string * string) : string :=
  fst js +:+ "=" +:+ quote +:+ snd js +:+ "(this, event)" +:+ quote +:+ " ".

(** [transitionEventsHtml] for a [viewData]: the strings written to the
    buffer. [visited] is the table [transitionEvents] in the order in which
    the loop ranges over it. *)
Definition transitionEventsHtml (view : viewData)
    (visited : list (string * (string * string))) : list string :=
  flat_map
    (fun entry =>
       match getRaw (stylePropertyList (style view)) (fst entry) with
       | VListeners listeners =>
           if (0 <? length listeners)%nat then [eventAttribute (snd entry)] else []
       | _ => []
       end)
    visited.

(** [animationEventsHtml] for a [viewData]; its type assertion is to
    [[]func(View)]. *)
Definition animationEventsHtml (view : viewData)
    (visited : list (string * (string * string))) : list string :=
  flat_map
    (fun entry =>
       match getRaw (stylePropertyList (style view)) (fst entry) with
       | VSliceFuncView listeners =>
           if (0 <? length listeners)%nat then [eventAttribute (snd entry)] else []
       | _ => []
       end)
    visited.

(** *** Drop-down lists: the command of the page *)


(** ** More notions used in the statements *)


(** A list of integers in strictly ascending order. *)
Fixpoint ascending (l : list Z) : bool :=
  match l with
  | [] => true
  | x :: rest =>
      match rest with
      | [] => true
      | y :: _ => (x <? y)%Z && ascending rest
      end
  end.

(** A number as [%g] writes it can be a parameter of [cubic-bezier]: it has
    no comma, and [ParseFloat] takes it. *)
Definition printable `{Strconv} `{AnimationExt} (x : float64) : Prop :=
  occurs "," (formatG x) = false /\ ParseFloat (Trim (formatG x) blanks) = true.

(** The listener that [valueToAnimationListeners] makes of an element of a
    heterogeneous list. *)
Definition asListener (v : value) : option listener :=
  match v with
  | VFuncViewString f => Some f
  | VFuncString f => Some (wrapString f)
  | VFuncView f => Some (wrapView f)
  | VFunc f => Some (wrapNoArg f)
  | _ => None
  end.

(** A computation that leaves the receiver, the session and the maps of
    key frames as they are and only adds to the effects. *)
Definition onlyEffects {V A} (m : M (World V) A) : Prop :=
  forall w, exists log,
    snd (m w) = mkWorld (self w) (session w) (trace w ++ log) (heap w).

(** An animated property as [Set] stores it: both ends are there. *)
Definition complete (p : AnimatedProperty) : Prop :=
  isNil (From p) = false /\ isNil (To p) = false.

(** The key frames of a property, in the maps [maps], lie between 0 and
    100 and hold texts; the map of the property, when it has one, is among
    [maps]. *)
Definition framesInRange (maps : keyFrameMaps) (p : AnimatedProperty) : Prop :=
  forall r,
    KeyFrames p = Some r ->
    exists frames,
      maps !! r = Some frames
      /\ forall k v, frames !! k = Some v -> (0 <= k <= 100)%Z /\ exists text, v = VString text.

(** An end of a property parsed from a node: absent, or a text. *)
Definition textOrNil (v : value) : Prop :=
  v = VNil \/ exists text, v = VString text.

(** What the closure [parseObject] builds. *)
Definition parsedShape (maps : keyFrameMaps) (p : AnimatedProperty) : Prop :=
  Tag p = EmptyString /\ textOrNil (From p) /\ textOrNil (To p) /\ framesInRange maps p.

(** The state of the closure [parseObject] in the course of its loop, for
    the maps [base] that were there when it was called: these maps are as
    they were, the map of the result is none of them, and the result has
    the shape of a parsed property. *)
Definition parsing (base maps : keyFrameMaps) (result : AnimatedProperty) : Prop :=
  (forall r frames, base !! r = Some frames -> maps !! r = Some frames)
  /\ (forall r, KeyFrames result = Some r -> base !! r = None)
  /\ parsedShape maps result.

(** From [w] to [w'] the receiver and the session are kept and the log is
    extended. *)
Definition logsOnly {V} (w w' : World V) : Prop :=
  self w' = self w /\ session w' = session w /\ exists log, trace w' = trace w ++ log.

(** A method of the property list that leaves the entry of "property" as
    it is, together with the maps of key frames that are there. *)
Definition leavesAnimatedProperties {A} (m : M (World propertyList) A) : Prop :=
  forall w,
    getRaw (self (snd (m w))) PropertyTag = getRaw (self w) PropertyTag
    /\ forall r frames, heap w !! r = Some frames -> heap (snd (m w)) !! r = Some frames.

(** An animation as [parseAnimation] can build it: it has no keyframe name,
    and its animated properties, if any, are parsed ones with both ends. *)
Definition parsedAnimation (maps : keyFrameMaps) (animation : animationData) : Prop :=
  keyFramesName animation = EmptyString
  /\ (getRaw (animationProperties animation) PropertyTag = VNil
      \/ exists props,
           getRaw (animationProperties animation) PropertyTag = VAnimatedProperties props
           /\ props <> []
           /\ Forall (fun p => parsedShape maps p /\ complete p) props).

(** A view without its property list and its HTML identifier. *)
Definition restOf (v : viewData) :=
  (transitions (style v), tag v, viewID v, parentID v, systemClass v, changeListener v,
   singleTransition v, noResizeEvent v, created v, hasFocus v).

(** The table of the transition events and of the animation events. *)
Definition listenerEvents : list (string * (string * string)) :=
  transitionEvents ++ animationEvents.

(** * Properties

    ** Go strings *)

Lemma app_cons (x : ascii) (a b : string) : String x a +:+ b = String x (a +:+ b).
Proof. reflexivity. Qed.

Lemma app_nil (b : string) : EmptyString +:+ b = b.
Proof. reflexivity. Qed.

Lemma app_assoc_s (a b c : string) : (a +:+ b) +:+ c = a +:+ (b +:+ c).
Proof. induction a as [|x a IH]; [done | by rewrite !app_cons, IH]. Qed.

Lemma app_empty_r (a : string) : a +:+ EmptyString = a.
Proof. induction a as [|x a IH]; [done | by rewrite app_cons, IH]. Qed.

Lemma length_app_s (a b : string) :
  String.length (a +:+ b) = (String.length a + String.length b)%nat.
Proof. induction a as [|x a IH]; [done | rewrite app_cons; simpl; by rewrite IH]. Qed.

Lemma IndexRune_ge (s : string) (c : ascii) : (-1 <= IndexRune s c)%Z.
Proof.
  induction s as [|a r IH]; simpl; [lia |].
  destruct (Ascii.eqb a c); [lia |].
  destruct (Z.ltb_spec (IndexRune r c) 0); lia.
Qed.

Lemma IndexRune_app (pre rest : string) (c : ascii) :
  occurs c pre = false ->
  IndexRune (pre +:+ String c rest) c = len pre.
Proof.
  unfold len. induction pre as [|a r IH]; rewrite ?app_cons, ?app_nil; simpl; intros Hno.
  - by rewrite Ascii.eqb_refl.
  - apply orb_false_iff in Hno as [Ha Hr]. rewrite Ha, (IH Hr).
    destruct (Z.ltb_spec (Z.of_nat (String.length r)) 0); lia.
Qed.

Lemma IndexRune_found (s : string) (c : ascii) :
  (0 <= IndexRune s c)%Z ->
  exists pre rest, s = pre +:+ String c rest /\ occurs c pre = false
                   /\ len pre = IndexRune s c.
Proof.
  unfold len. induction s as [|a r IH]; simpl; [lia |].
  destruct (Ascii.eqb a c) eqn:Ha.
  - intros _. apply Ascii.eqb_eq in Ha as ->. by exists EmptyString, r.
  - destruct (Z.ltb_spec (IndexRune r c) 0); [lia |]. intros _.
    destruct IH as (pre & rest & -> & Hno & Hlen); [lia |].
    exists (String a pre), rest. simpl. rewrite Ha, Hno, app_cons. split_and!; [done.. | lia].
Qed.

Lemma substring_0_app (a b : string) :
  String.substring 0 (String.length a) (a +:+ b) = a.
Proof.
  induction a as [|x a IH]; rewrite ?app_cons, ?app_nil; simpl;
    [by destruct b | by rewrite IH].
Qed.

Lemma substring_skip (a b : string) (n : nat) :
  String.substring (String.length a) n (a +:+ b) = String.substring 0 n b.
Proof. induction a as [|x a IH]; rewrite ?app_cons, ?app_nil; simpl; [done | by rewrite IH]. Qed.

Lemma slice_prefix (a b : string) : slice (a +:+ b) 0 (len a) = a.
Proof.
  unfold slice, len. rewrite Z.sub_0_r, Nat2Z.id. apply substring_0_app.
Qed.

Lemma slice_middle (a : string) (c : ascii) (b d : string) :
  slice (a +:+ String c (b +:+ d)) (len a + 1) (len a + 1 + len b) = b.
Proof.
  unfold slice, len.
  replace (Z.to_nat (Z.of_nat (String.length a) + 1)) with (String.length (a +:+ String c EmptyString)).
  2:{ rewrite length_app_s. simpl. lia. }
  replace (a +:+ String c (b +:+ d)) with ((a +:+ String c EmptyString) +:+ (b +:+ d)).
  2:{ by rewrite app_assoc_s, app_cons, app_nil. }
  rewrite substring_skip.
  replace (Z.to_nat _) with (String.length b) by lia.
  apply substring_0_app.
Qed.

Lemma get_last (s : string) (c : ascii) :
  String.get (String.length s) (s +:+ String c EmptyString) = Some c.
Proof. induction s as [|a r IH]; rewrite ?app_cons, ?app_nil; simpl; done. Qed.

Lemma get_last_inv (s : string) (c : ascii) :
  String.get (String.length s - 1) s = Some c ->
  s <> EmptyString ->
  exists body, s = body +:+ String c EmptyString.
Proof.
  induction s as [|a r IH]; [done |]. intros Hget _.
  destruct r as [|b r].
  - simpl in Hget. injection Hget as ->. by exists EmptyString.
  - simpl in Hget, IH. rewrite Nat.sub_0_r in IH.
    destruct IH as [body Hb]; [done.. |]. exists (String a body).
    by rewrite app_cons, <- Hb.
Qed.

Lemma byteAt_last (s : string) (c : ascii) :
  (0 <? len s)%Z = true ->
  byteAt s (len s - 1) = Some c ->
  exists body, s = body +:+ String c EmptyString.
Proof.
  unfold byteAt, len. intros Hpos.
  apply Z.ltb_lt in Hpos.
  destruct (Z.ltb_spec (Z.of_nat (String.length s) - 1) 0); [lia |].
  replace (Z.to_nat (Z.of_nat (String.length s) - 1)) with (String.length s - 1)%nat by lia.
  intros Hget. apply get_last_inv; [done |]. intros ->. simpl in Hpos. lia.
Qed.

Lemma byteAt_last_app (s : string) (c : ascii) :
  byteAt (s +:+ String c EmptyString) (len (s +:+ String c EmptyString) - 1) = Some c.
Proof.
  unfold byteAt, len. rewrite length_app_s. simpl.
  match goal with |- context [(?x <? 0)%Z] => destruct (Z.ltb_spec x 0); [lia |] end.
  replace (Z.to_nat _) with (String.length s) by lia. apply get_last.
Qed.

Lemma app_last_inv (a : string) (c : ascii) (r body : string) (d : ascii) :
  a +:+ String c r = body +:+ String d EmptyString ->
  c <> d ->
  exists args, r = args +:+ String d EmptyString.
Proof.
  revert body. induction a as [|x a IH]; intros body Heq Hne;
    rewrite ?app_cons, ?app_nil in Heq.
  - destruct body as [|y body]; rewrite ?app_cons, ?app_nil in Heq; [congruence |].
    injection Heq as -> ->. by exists body.
  - destruct body as [|y body]; rewrite ?app_cons, ?app_nil in Heq.
    + injection Heq as -> Heq. by destruct a.
    + injection Heq as -> Heq. eauto.
Qed.

Lemma Split_not_nil (s : string) (sep : ascii) : Split s sep <> [].
Proof.
  destruct s as [|a r]; simpl; [done |].
  destruct (Ascii.eqb a sep); [done |]. by destruct (Split r sep).
Qed.

Lemma Split_app (a : string) (sep : ascii) (rest : string) :
  occurs sep a = false ->
  Split (a +:+ String sep rest) sep = a :: Split rest sep.
Proof.
  induction a as [|x a IH]; rewrite ?app_cons, ?app_nil; simpl; intros Hno.
  - by rewrite Ascii.eqb_refl.
  - apply orb_false_iff in Hno as [Hx Ha]. by rewrite Hx, (IH Ha).
Qed.

Lemma Split_single (a : string) (sep : ascii) :
  occurs sep a = false -> Split a sep = [a].
Proof.
  induction a as [|x a IH]; simpl; intros Hno; [done |].
  apply orb_false_iff in Hno as [Hx Ha]. by rewrite Hx, (IH Ha).
Qed.

Lemma Split_inv (s : string) (sep : ascii) (h : string) (t : list string) :
  Split s sep = h :: t ->
  occurs sep h = false /\
  ((t = [] /\ s = h) \/ exists rest, s = h +:+ String sep rest /\ Split rest sep = t).
Proof.
  revert h t. induction s as [|x r IH]; simpl; intros h t Hs.
  - injection Hs as <- <-. split; [done | by left].
  - destruct (Ascii.eqb x sep) eqn:Hx.
    + apply Ascii.eqb_eq in Hx as ->. injection Hs as <- <-.
      split; [done |]. right. by exists r.
    + destruct (Split r sep) as [|h' t'] eqn:Hr; [by apply Split_not_nil in Hr |].
      injection Hs as <- <-.
      destruct (IH h' t' eq_refl) as [Hno Hcase]. split.
      * simpl. by rewrite Hx, Hno.
      * destruct Hcase as [[-> ->] | (rest & -> & Hrest)]; [by left |].
        right. exists rest. by rewrite app_cons.
Qed.

Lemma Split_four (args : string) (a b c d : string) :
  Split args "," = [a; b; c; d] <->
  args = a +:+ "," +:+ b +:+ "," +:+ c +:+ "," +:+ d
  /\ Forall (fun p => occurs "," p = false) [a; b; c; d].
Proof.
  split.
  - intros H1.
    apply Split_inv in H1 as [Ha [[? _] | (r1 & -> & H2)]]; [done |].
    apply Split_inv in H2 as [Hb [[? _] | (r2 & -> & H3)]]; [done |].
    apply Split_inv in H3 as [Hc [[? _] | (r3 & -> & H4)]]; [done |].
    apply Split_inv in H4 as [Hd [[_ ->] | (r4 & -> & H5)]];
      [| by apply Split_not_nil in H5].
    split; [reflexivity |]. repeat (apply Forall_cons_2; [assumption |]). apply Forall_nil_2.
  - intros [-> Hall].
    apply Forall_cons in Hall as [Ha Hall].
    apply Forall_cons in Hall as [Hb Hall].
    apply Forall_cons in Hall as [Hc Hall].
    apply Forall_cons in Hall as [Hd _].
    rewrite !(app_cons ","), !app_nil.
    rewrite !Split_app by done. by rewrite Split_single.
Qed.

Lemma keyword_no_paren (s : string) :
  s ∈ timingKeywords -> byteAt s (len s - 1) <> Some ")"%char.
Proof.
  unfold timingKeywords. rewrite !elem_of_cons, elem_of_nil.
  intros [-> | [-> | [-> | [-> | [-> | [-> | []]]]]]]; by vm_compute.
Qed.

Lemma len_app (a b : string) : len (a +:+ b) = (len a + len b)%Z.
Proof. unfold len. rewrite length_app_s. lia. Qed.

(** The test after the keywords, for a string of the shape
    [name(args)]. *)
Lemma validate_call `{Strconv} (name args : string) :
  occurs "(" name = false ->
  name <> EmptyString ->
  validateTimingFunction (name +:+ String "(" (args +:+ ")")) =
    if String.eqb name "steps" then bool_decide (is_Some (Atoi (Trim args blanks)))
    else if String.eqb name "cubic-bezier" then
      let params := Split args "," in
      if (length params =? 4)%nat
      then forallb (fun param => ParseFloat (Trim param blanks)) params else false
    else false.
Proof.
  intros Hno Hne. unfold validateTimingFunction.
  set (s := name +:+ String "(" (args +:+ ")")).
  assert (Hs : s = (name +:+ String "(" args) +:+ String ")" EmptyString).
  { subst s. by rewrite app_assoc_s, app_cons. }
  assert (Hlast : byteAt s (len s - 1) = Some ")"%char).
  { rewrite Hs. apply byteAt_last_app. }
  rewrite bool_decide_eq_false_2 by (intros Hk; by apply keyword_no_paren in Hk).
  assert (Hlen : len s = (len name + 1 + len args + 1)%Z).
  { subst s. rewrite !len_app. unfold len. simpl. rewrite length_app_s. simpl. lia. }
  assert (Hname : (0 < len name)%Z).
  { unfold len. destruct name; [done | simpl; lia]. }
  assert (Hargs : (0 <= len args)%Z) by (unfold len; lia).
  rewrite (proj2 (Z.ltb_lt 0 (len s))) by lia.
  rewrite Hlast, bool_decide_eq_true_2 by done. simpl andb. cbv iota.
  assert (Hidx : IndexRune s "(" = len name) by (subst s; by apply IndexRune_app).
  rewrite Hidx, (proj2 (Z.ltb_lt 0 (len name))) by lia.
  replace (len s - 1)%Z with (len name + 1 + len args)%Z by lia.
  subst s. rewrite slice_middle, slice_prefix.
  destruct (String.eqb name "steps"); [| done].
  destruct (Atoi (Trim args blanks)) eqn:E.
  - by rewrite bool_decide_eq_true_2.
  - rewrite bool_decide_eq_false_2; [done |]. by intros [? ?].
Qed.

(** Every accepted string that is not a keyword has the shape
    [name(args)]. *)
Lemma validate_shape `{Strconv} (s : string) :
  validateTimingFunction s = true ->
  s ∈ timingKeywords \/
  exists name args, s = name +:+ String "(" (args +:+ ")")
                    /\ occurs "(" name = false /\ name <> EmptyString.
Proof.
  unfold validateTimingFunction.
  destruct (bool_decide (s ∈ timingKeywords)) eqn:Hk.
  { left. by apply bool_decide_eq_true in Hk. }
  destruct (0 <? len s)%Z eqn:Hpos; [| done]. simpl andb.
  destruct (bool_decide (byteAt s (len s - 1) = Some ")"%char)) eqn:Hlast; [| done].
  apply bool_decide_eq_true in Hlast.
  destruct (Z.ltb_spec 0 (IndexRune s "(")) as [Hidx |]; [| done]. intros _. right.
  destruct (IndexRune_found s "(") as (name & rest & Hs & Hno & Hlen); [lia |].
  destruct (byteAt_last s ")" Hpos Hlast) as [body Hb].
  destruct (app_last_inv name "(" rest body ")") as [args ->]; [congruence | done |].
  exists name, args. split_and!; [done.. |].
  intros ->. unfold len in Hlen. simpl in Hlen. lia.
Qed.

Lemma steps_literal (args : string) :
  "steps(" +:+ args +:+ ")" = "steps" +:+ String "(" (args +:+ ")").
Proof. reflexivity. Qed.

Lemma cubic_literal (args : string) :
  "cubic-bezier(" +:+ args +:+ ")" = "cubic-bezier" +:+ String "(" (args +:+ ")").
Proof. reflexivity. Qed.

Lemma four_params_literal (a b c d : string) :
  "cubic-bezier(" +:+ a +:+ "," +:+ b +:+ "," +:+ c +:+ "," +:+ d +:+ ")" =
  "cubic-bezier" +:+ String "(" ((a +:+ "," +:+ b +:+ "," +:+ c +:+ "," +:+ d) +:+ ")").
Proof. rewrite !app_assoc_s. reflexivity. Qed.

Lemma validate_iff `{Strconv} (s : string) :
  validateTimingFunction s = true <->
  s = EmptyString \/ listedTimingFunction s.
Proof.
  unfold listedTimingFunction. split.
  - intros Hv. destruct (validate_shape s Hv) as [Hk | (name & args & -> & Hno & Hne)].
    + unfold timingKeywords in Hk. apply elem_of_cons in Hk as [-> | Hk]; [by left |].
      right. by left.
    + right. right. rewrite validate_call in Hv by done.
      destruct (String.eqb_spec name "steps") as [-> | _].
      * left. exists args. split; [reflexivity |]. by apply bool_decide_eq_true in Hv.
      * destruct (String.eqb_spec name "cubic-bezier") as [-> | _]; [| done].
        right. simpl in Hv.
        destruct (Split args ",") as [|a [|b [|c [|d [|e l]]]]] eqn:Hsplit; try done.
        apply Split_four in Hsplit as [-> Hall].
        simpl in Hv. rewrite !andb_true_iff in Hv.
        destruct Hv as (Ha & Hb & Hc & Hd & _).
        apply Forall_cons in Hall as [Ha' Hall].
        apply Forall_cons in Hall as [Hb' Hall].
        apply Forall_cons in Hall as [Hc' Hall].
        apply Forall_cons in Hall as [Hd' _].
        exists a, b, c, d. split; [by rewrite four_params_literal |].
        repeat (apply Forall_cons_2; [by split |]). apply Forall_nil_2.
  - intros [-> | [Hk | [(args & -> & Hint) | (a & b & c & d & -> & Hall)]]].
    + reflexivity.
    + unfold validateTimingFunction. rewrite bool_decide_eq_true_2; [done |].
      unfold timingKeywords. apply elem_of_cons. by right.
    + rewrite steps_literal, validate_call by done. simpl.
      by apply bool_decide_eq_true.
    + apply Forall_cons in Hall as [[Ha Ha'] Hall].
      apply Forall_cons in Hall as [[Hb Hb'] Hall].
      apply Forall_cons in Hall as [[Hc Hc'] Hall].
      apply Forall_cons in Hall as [[Hd Hd'] _].
      rewrite four_params_literal, validate_call by done. simpl.
      rewrite (proj2 (Split_four _ a b c d)).
      * simpl. by rewrite Ha', Hb', Hc', Hd'.
      * split; [reflexivity |].
        repeat (apply Forall_cons_2; [assumption |]). apply Forall_nil_2.
Qed.

Lemma timingFunctionCSS_resolved `{Strconv} `{AnimationExt}
    (animation : animationData) (session : sessionData) (given resolved : string) :
  stringProperty animation TimingFunction session = Some given ->
  resolveConstants session given = Some resolved ->
  animationData_timingFunctionCSS animation session =
    if validateTimingFunction resolved then resolved else "ease".
Proof.
  intros H1 H2. unfold animationData_timingFunctionCSS. by rewrite H1, H2.
Qed.

(** ** Timing functions

    C7, as the sources have it: [validateTimingFunction] accepts exactly the
    empty string, the five named keywords, [steps(N)] where [N] is an
    integer for [Atoi] once trimmed, and [cubic-bezier(a,b,c,d)] where the
    four parameters are floats for [ParseFloat] once trimmed; so "steps(4)"
    and "cubic-bezier(0.1,0.7,1,0.1)" are accepted and "steps(a)",
    "cubic-bezier(1,2,3)" and "bounce" are not. [timingFunctionCSS] is a
    total function that gives the resolved timing function when it is
    accepted and "ease" otherwise, in particular for the three rejected
    examples. *)
Theorem timing_function_validation `{Strconv} `{AnimationExt}
    (Hdecimal : forall s, plainDecimal s = true -> ParseFloat s = true) :
  (forall s, validateTimingFunction s = true <-> s = EmptyString \/ listedTimingFunction s)
  /\ validateTimingFunction "steps(4)" = true
  /\ validateTimingFunction "cubic-bezier(0.1,0.7,1,0.1)" = true
  /\ validateTimingFunction "steps(a)" = false
  /\ validateTimingFunction "cubic-bezier(1,2,3)" = false
  /\ validateTimingFunction "bounce" = false
  /\ (forall animation session given resolved,
        stringProperty animation TimingFunction session = Some given ->
        resolveConstants session given = Some resolved ->
        animationData_timingFunctionCSS animation session =
          if validateTimingFunction resolved then resolved else "ease")
  /\ (forall animation session given resolved,
        stringProperty animation TimingFunction session = Some given ->
        resolveConstants session given = Some resolved ->
        resolved ∈ ["steps(a)"; "cubic-bezier(1,2,3)"; "bounce"] ->
        animationData_timingFunctionCSS animation session = "ease").
Proof.
  assert (Hbad : forall r, r ∈ ["steps(a)"; "cubic-bezier(1,2,3)"; "bounce"] ->
                           validateTimingFunction r = false).
  { intros r. rewrite !elem_of_cons, elem_of_nil.
    intros [-> | [-> | [-> | []]]]; by vm_compute. }
  split_and!.
  - apply validate_iff.
  - by vm_compute.
  - apply validate_iff. right. right. right.
    exists "0.1", "0.7", "1", "0.1". split; [reflexivity |].
    repeat (apply Forall_cons_2; [split; [reflexivity | by apply Hdecimal] |]).
    apply Forall_nil_2.
  - by vm_compute.
  - by vm_compute.
  - by vm_compute.
  - intros animation session given resolved H1 H2.
    by apply (timingFunctionCSS_resolved _ _ given).
  - intros animation session given resolved H1 H2 Hr.
    rewrite (timingFunctionCSS_resolved _ _ _ _ H1 H2). by rewrite (Hbad _ Hr).
Qed.

(** The theorem at the plain-decimal [ParseFloat]. *)
Lemma timing_function_validation_witness :
  validateTimingFunction (H := Samples.strconv) "cubic-bezier(0.1,0.7,1,0.1)" = true.
Proof.
  apply (timing_function_validation (H := Samples.strconv) (H0 := Samples.animationExt)).
  intros s Hs. exact Hs.
Defined.

(** C7 as stated fails: the empty string is accepted and is none of the
    listed forms. *)
Lemma empty_timing_function_accepted :
  ~ (forall s, validateTimingFunction (H := Samples.strconv) s = true ->
               listedTimingFunction (H := Samples.strconv) s).
Proof.
  intros Hall. specialize (Hall EmptyString eq_refl).
  destruct Hall as [Hk | [(args & Hs & _) | (a & b & c & d & Hs & _)]].
  - unfold namedTimings in Hk. rewrite !elem_of_cons, elem_of_nil in Hk.
    by destruct Hk as [? | [? | [? | [? | [? | []]]]]].
  - done.
  - done.
Qed.


(** ** Views *)

(** [htmlID] touches the field [_htmlID] and the session only. *)
Lemma htmlID_spec `{ViewExt} (w : World viewData) :
  exists id session',
    viewData_htmlID w = (id, mkWorld (withHtmlID id (self w)) session' (trace w) (heap w)).
Proof.
  unfold viewData_htmlID.
  destruct (String.eqb_spec (_htmlID (self w)) EmptyString) as [He | Hne].
  - destruct (nextViewID (session w)) as [id session']. by exists id, session'.
  - exists (_htmlID (self w)), (session w). destruct w as [[] ? ?]. reflexivity.
Qed.

Lemma forEach_emit {V A} (l : list A) (f : A -> effect) (w : World V) :
  forEach l (fun x => emit (f x)) w =
    (tt, mkWorld (self w) (session w) (trace w ++ map f l) (heap w)).
Proof.
  revert w. induction l as [|x l IH]; intros w; simpl.
  - unfold ret. rewrite app_nil_r. by destruct w.
  - unfold bind, emit. rewrite IH. simpl. by rewrite <- app_assoc.
Qed.

Lemma updateTransitionCSS_spec `{ViewExt} (w : World viewData) :
  exists id session',
    viewData_updateTransitionCSS w =
      (tt, mkWorld (withHtmlID id (self w)) session'
             (trace w ++ [updateCSSProperty id "transition"
                            (viewStyle_transitionCSS (viewTransitions (self w)) session')]) (heap w)).
Proof.
  unfold viewData_updateTransitionCSS, bind.
  destruct (htmlID_spec w) as (id & session' & ->).
  exists id, session'. reflexivity.
Qed.

(** *** What leaves [singleTransition] alone *)

(** Follow the structure of a computation: [leaf] closes the goals about
    its primitive steps, conditionals and matches are split. *)
Ltac follow leaf :=
  repeat first
    [ leaf
    | progress cbv zeta
    | match goal with
      | |- _ (if ?b then _ else _) => destruct b
      | |- _ (match ?x with _ => _ end) => destruct x
      end ].

Lemma keeps_ret {A} (a : A) : keepsSingleTransition (ret a).
Proof. by intros w. Qed.

Lemma keeps_bind {A B} (m : M (World viewData) A) (k : A -> M (World viewData) B) :
  keepsSingleTransition m -> (forall a, keepsSingleTransition (k a)) ->
  keepsSingleTransition (bind m k).
Proof.
  intros Hm Hk w. unfold bind. specialize (Hm w).
  destruct (m w) as [a w1]. simpl in Hm. by rewrite (Hk a w1).
Qed.

Lemma keeps_emit (e : effect) : keepsSingleTransition (emit e).
Proof. by intros w. Qed.

Lemma keeps_me : keepsSingleTransition me.
Proof. by intros w. Qed.

Lemma keeps_get : keepsSingleTransition get.
Proof. by intros w. Qed.

Lemma keeps_update (f : viewData -> viewData) :
  (forall v, singleTransition (f v) = singleTransition v) ->
  keepsSingleTransition (update f).
Proof. intros Hf w. apply Hf. Qed.

Lemma keeps_htmlID `{ViewExt} : keepsSingleTransition viewData_htmlID.
Proof. intros w. by destruct (htmlID_spec w) as (id & session' & ->). Qed.

Lemma keeps_onStyle {A} (m : M (World viewStyle) A) : keepsSingleTransition (onStyle m).
Proof.
  intros w. unfold onStyle, embedded.
  by destruct (m _) as [a w1].
Qed.

Lemma keeps_updateClass `{ViewExt} : keepsSingleTransition viewData_updateClass.
Proof.
  unfold viewData_updateClass.
  follow ltac:(first [ apply keeps_htmlID | apply keeps_get | apply keeps_emit
                     | apply keeps_bind; [| intros ?] ]).
Qed.

Lemma keeps_updateTransitionCSS `{ViewExt} :
  keepsSingleTransition viewData_updateTransitionCSS.
Proof.
  unfold viewData_updateTransitionCSS.
  follow ltac:(first [ apply keeps_htmlID | apply keeps_get | apply keeps_emit
                     | apply keeps_bind; [| intros ?] ]).
Qed.

Lemma keeps_propertyChangedEvent (tag : string) :
  keepsSingleTransition (viewData_propertyChangedEvent tag).
Proof.
  unfold viewData_propertyChangedEvent.
  follow ltac:(first [ apply keeps_me | apply keeps_ret | apply keeps_emit
                     | apply keeps_bind; [| intros ?] ]).
Qed.

Lemma keeps_viewPropertyChanged `{ViewExt} `{!SingleTransitionUntouched} (tag : string) :
  keepsSingleTransition (viewPropertyChanged tag).
Proof.
  unfold viewPropertyChanged, updateBorderCSS.
  follow ltac:(first [ apply updateTransformProperty_keeps
                     | apply otherPropertyChanged_keeps
                     | apply keeps_htmlID | apply keeps_get | apply keeps_ret
                     | apply keeps_emit | apply keeps_bind; [| intros ?] ]).
Qed.

Lemma keeps_removeEventListener `{ViewExt} (table : list (string * (string * string)))
    (tag : string) :
  keepsSingleTransition (viewData_removeEventListener table tag).
Proof.
  unfold viewData_removeEventListener.
  follow ltac:(first [ apply keeps_htmlID | apply keeps_me | apply keeps_ret
                     | apply keeps_emit | apply keeps_update; intros ?; reflexivity
                     | apply keeps_bind; [| intros ?] ]).
Qed.

Lemma keeps_setEventListener `{ViewExt} (table : list (string * (string * string)))
    (tag : string) (value : value) :
  keepsSingleTransition (viewData_setEventListener table tag value).
Proof.
  unfold viewData_setEventListener.
  destruct (valueToAnimationListeners value) as [listeners ok].
  follow ltac:(first [ apply keeps_removeEventListener
                     | apply keeps_htmlID | apply keeps_me | apply keeps_ret
                     | apply keeps_emit | apply keeps_update; intros ?; reflexivity
                     | apply keeps_bind; [| intros ?] ]).
Qed.

Lemma keeps_remove `{ViewExt} `{!SingleTransitionUntouched} (tag : string) :
  keepsSingleTransition (viewData_remove tag).
Proof.
  unfold viewData_remove, viewData_removeTransitionListener,
    viewData_removeAnimationListener.
  follow ltac:(first [ apply removeFocusListener_keeps | apply removeKeyListener_keeps
                     | apply removeMouseListener_keeps | apply removePointerListener_keeps
                     | apply removeTouchListener_keeps
                     | apply keeps_removeEventListener | apply keeps_viewPropertyChanged
                     | apply keeps_propertyChangedEvent | apply keeps_updateClass
                     | apply keeps_onStyle
                     | apply keeps_htmlID | apply keeps_me | apply keeps_ret
                     | apply keeps_emit | apply keeps_update; intros ?; reflexivity
                     | apply keeps_bind; [| intros ?] ]).
Qed.

Lemma keeps_set `{ViewExt} `{!SingleTransitionUntouched} (tag : string) (value : value) :
  keepsSingleTransition (viewData_set tag value).
Proof.
  unfold viewData_set, viewData_setTransitionListener, viewData_setAnimationListener.
  follow ltac:(first [ apply setFocusListener_keeps | apply setKeyListener_keeps
                     | apply setMouseListener_keeps | apply setPointerListener_keeps
                     | apply setTouchListener_keeps | apply setFrameListener_keeps
                     | apply keeps_remove
                     | apply keeps_setEventListener | apply keeps_viewPropertyChanged
                     | apply keeps_propertyChangedEvent | apply keeps_updateClass
                     | apply keeps_onStyle
                     | apply keeps_htmlID | apply keeps_me | apply keeps_ret
                     | apply keeps_emit | apply keeps_update; intros ?; reflexivity
                     | apply keeps_bind; [| intros ?] ]).
Qed.

Lemma keeps_Set `{ViewExt} `{!SingleTransitionUntouched} (tag : string) (value : value) :
  keepsSingleTransition (viewData_Set tag value).
Proof. apply keeps_set. Qed.

(** ** Transition events

    C3: in the Overriding state of a tag ([singleTransition] has an entry
    for it), a terminal event (end or cancel) that carries the tag removes
    the entry, puts the saved animation back into [transitions] when it is
    a real animation and deletes the tag from [transitions] when it is the
    nil sentinel, and then sends the recomputed CSS transition declaration
    before the listeners are called; a run or start event leaves the view
    as it is and calls the listeners only. *)
Theorem transition_events `{ViewExt} (tag property : string) (data : DataObject)
    (saved : Animation) (w : World viewData)
    (Hproperty : PropertyValue data "property" = Some property)
    (Hsaved : singleTransition (self w) !! property = Some saved) :
  (terminalEvent tag ->
   let '(_, w') := viewData_handleTransitionEvents tag data w in
   singleTransition (self w') = delete property (singleTransition (self w))
   /\ viewTransitions (self w') =
        match saved with
        | Some animation => <[property := Some animation]> (viewTransitions (self w))
        | None => delete property (viewTransitions (self w))
        end
   /\ exists id,
        trace w' =
          trace w
          ++ [updateCSSProperty id "transition"
                (viewStyle_transitionCSS (viewTransitions (self w')) (session w'))]
          ++ map (fun listener => call listener property)
                 (viewData_getAnimationListeners (self w') tag))
  /\ (progressEvent tag ->
      viewData_handleTransitionEvents tag data w =
        (tt, mkWorld (self w) (session w)
               (trace w ++ map (fun listener => call listener property)
                               (viewData_getAnimationListeners (self w) tag)) (heap w))).
Proof.
  split.
  - intros Hterm. unfold viewData_handleTransitionEvents. rewrite Hproperty.
    assert (Htest : String.eqb tag TransitionEndEvent
                    || String.eqb tag TransitionCancelEvent = true).
    { destruct Hterm as [-> | ->]; reflexivity. }
    rewrite Htest. cbv [bind me update modify]. rewrite Hsaved.
    set (w1 := withSelf (withSingleTransition (delete property)) w).
    destruct saved as [animation |].
    + set (w2 := withSelf (withTransitions <[property:=Some animation]>) w1).
      destruct (updateTransitionCSS_spec w2) as (id & session' & ->).
      rewrite forEach_emit. simpl.
      split_and!; [done | done |]. exists id. by rewrite <- app_assoc.
    + set (w2 := withSelf (withTransitions (delete property)) w1).
      destruct (updateTransitionCSS_spec w2) as (id & session' & ->).
      rewrite forEach_emit. simpl.
      split_and!; [done | done |]. exists id. by rewrite <- app_assoc.
  - intros Hprog. unfold viewData_handleTransitionEvents. rewrite Hproperty.
    assert (Htest : String.eqb tag TransitionEndEvent
                    || String.eqb tag TransitionCancelEvent = false).
    { destruct Hprog as [-> | ->]; reflexivity. }
    rewrite Htest. unfold bind, ret, me. by rewrite forEach_emit.
Qed.

(** The theorem for the end of an override of "opacity" that had no
    transition before: the tag is gone from both maps. *)
Lemma transition_events_witness :
  let '(_, w') :=
    viewData_handleTransitionEvents (H := Samples.viewExt) TransitionEndEvent
      Samples.opacityEvent (Samples.world0 Samples.overridingView) in
  singleTransition (self w') =
    delete "opacity" (singleTransition Samples.overridingView)
  /\ viewTransitions (self w') = delete "opacity" (viewTransitions Samples.overridingView)
  /\ exists id,
       trace w' =
         []
         ++ [updateCSSProperty id "transition"
               (viewStyle_transitionCSS (ViewExt := Samples.viewExt)
                  (viewTransitions (self w')) (session w'))]
         ++ map (fun listener => call listener "opacity")
                (viewData_getAnimationListeners (H := Samples.viewExt) (self w')
                   TransitionEndEvent).
Proof.
  refine (proj1 (transition_events (H := Samples.viewExt) TransitionEndEvent "opacity"
                   Samples.opacityEvent None (Samples.world0 Samples.overridingView)
                   _ _) _).
  - reflexivity.
  - reflexivity.
  - by left.
Defined.

Lemma checkListeners_nil (l : list listener) :
  direct nilFunc ∈ l -> checkListeners l = false.
Proof.
  induction l as [|f l IH]; [by intros ?%elem_of_nil |].
  intros [<- | Hin]%elem_of_cons; simpl; [done |].
  destruct (isNilListener f); [done | by apply IH].
Qed.

Lemma wrapListenersLoop_nil (wrap : goFunc -> listener) (l : list goFunc)
    (captured : goFunc) :
  nilFunc ∈ l -> wrapListenersLoop wrap l captured = None.
Proof.
  induction l as [|f l IH]; [by intros ?%elem_of_nil |].
  intros [<- | Hin]%elem_of_cons; simpl; [done |].
  destruct (isNilFunc f); [done |]. by rewrite IH.
Qed.

Lemma wrapListeners_nil (wrap : goFunc -> listener) (l : list goFunc) :
  nilFunc ∈ l -> wrapListeners wrap l = None.
Proof. apply wrapListenersLoop_nil. Qed.

Lemma convertListeners_unsupported (l : list value) (v : value) :
  v ∈ l -> isCallback v = false -> convertListeners l = None.
Proof.
  intros Hin Hv. induction l as [|x l IH]; [by apply elem_of_nil in Hin |].
  apply elem_of_cons in Hin as [<- | Hin]; simpl.
  - by destruct v.
  - rewrite (IH Hin). by destruct x.
Qed.

Lemma length_elem {A} (l : list A) (x : A) : x ∈ l -> (length l =? 0)%nat = false.
Proof. destruct l; [by intros ?%elem_of_nil | done]. Qed.

Lemma rejected_normalization (v : value) :
  rejectedCollection v -> valueToAnimationListeners v = ([], false).
Proof.
  intros [l Hin | l Hin | l Hin | l Hin | l Hin | l x Hin Hx]; simpl;
    rewrite (length_elem _ _ Hin).
  - by rewrite checkListeners_nil.
  - by rewrite wrapListeners_nil.
  - by rewrite wrapListeners_nil.
  - by rewrite wrapListeners_nil.
  - by rewrite (convertListeners_unsupported l VNil).
  - by rewrite (convertListeners_unsupported l x).
Qed.

Lemma rejected_not_nil (v : value) : rejectedCollection v -> isNil v = false.
Proof. by intros []. Qed.

Lemma setEventListener_rejected `{ViewExt} (table : list (string * (string * string)))
    (tag : string) (v : value) (w : World viewData) :
  rejectedCollection v ->
  viewData_setEventListener table tag v w =
    (false, mkWorld (self w) (session w) (trace w ++ [notCompatibleType tag v]) (heap w)).
Proof.
  intros Hv. unfold viewData_setEventListener.
  by rewrite (rejected_normalization v Hv).
Qed.

Lemma set_transition_tag `{ViewExt} (tag : string) (v : value) :
  tag ∈ transitionTags -> isNil v = false ->
  viewData_set tag v =
    (res <- viewData_setTransitionListener tag v ;;
     (if res : bool then viewData_propertyChangedEvent tag else ret tt) ;; ret res).
Proof.
  unfold transitionTags. rewrite !elem_of_cons, elem_of_nil.
  intros [-> | [-> | [-> | [-> | []]]]] Hnil;
    unfold viewData_set; rewrite Hnil; reflexivity.
Qed.

Lemma set_animation_tag `{ViewExt} (tag : string) (v : value) :
  tag ∈ animationTags -> isNil v = false ->
  viewData_set tag v =
    (res <- viewData_setAnimationListener tag v ;;
     (if res : bool then viewData_propertyChangedEvent tag else ret tt) ;; ret res).
Proof.
  unfold animationTags. rewrite !elem_of_cons, elem_of_nil.
  intros [-> | [-> | [-> | [-> | []]]]] Hnil;
    unfold viewData_set; rewrite Hnil; reflexivity.
Qed.

(** ** Listener collections

    X26. A listener collection (a list of one callback shape, or a
    heterogeneous list) with an element for which Go's [== nil] holds (a
    nil function in a typed list, the nil interface in a heterogeneous
    list), or with an element of an unsupported type, is refused: the
    normalization gives not-ok and no list, the setters of the transition
    and animation event tags return false, and the view, hence the listener
    list stored for the tag, is as before the call; only the log gets a
    line. *)
Theorem rejected_listener_collection `{ViewExt} (v : value) (w : World viewData)
    (Hv : rejectedCollection v) :
  let unchanged (tag : string) : World viewData :=
    mkWorld (self w) (session w) (trace w ++ [notCompatibleType tag v]) (heap w) in
  valueToAnimationListeners v = ([], false)
  /\ (forall tag, viewData_setTransitionListener tag v w = (false, unchanged tag))
  /\ (forall tag, viewData_setAnimationListener tag v w = (false, unchanged tag))
  /\ (forall tag, tag ∈ transitionTags ++ animationTags ->
        viewData_set tag v w = (false, unchanged tag))
  /\ (forall tag, ToLower tag ∈ transitionTags ++ animationTags ->
        let '(ok, w') := viewData_Set tag v w in
        ok = false
        /\ self w' = self w
        /\ viewData_getAnimationListeners (self w') tag =
           viewData_getAnimationListeners (self w) tag).
Proof.
  intros unchanged.
  assert (Hset : forall tag, tag ∈ transitionTags ++ animationTags ->
            viewData_set tag v w = (false, unchanged tag)).
  { intros tag [Ht | Ha]%elem_of_app.
    - rewrite set_transition_tag by (done || by apply rejected_not_nil).
      unfold bind, viewData_setTransitionListener.
      by rewrite setEventListener_rejected.
    - rewrite set_animation_tag by (done || by apply rejected_not_nil).
      unfold bind, viewData_setAnimationListener.
      by rewrite setEventListener_rejected. }
  split_and!.
  - by apply rejected_normalization.
  - intros tag. by apply setEventListener_rejected.
  - intros tag. by apply setEventListener_rejected.
  - exact Hset.
  - intros tag Htag. unfold viewData_Set. by rewrite (Hset _ Htag).
Qed.

(** The theorem for the heterogeneous list of a function and nil. *)
Lemma rejected_listener_collection_witness :
  valueToAnimationListeners (VSlice [VFunc (fn 1); VNil]) = ([], false).
Proof.
  refine (proj1 (rejected_listener_collection (H := Samples.viewExt)
                   (VSlice [VFunc (fn 1); VNil]) (Samples.world0 Samples.view0) _)).
  apply nil_in_slice. apply elem_of_cons. right. apply elem_of_cons. by left.
Defined.

(** For Go an interface that holds a nil function is not nil: in a
    heterogeneous list such an element is wrapped like any other function. *)
Example boxed_nil_function_is_wrapped :
  valueToAnimationListeners (VSlice [VFunc nilFunc]) = ([wrapNoArg nilFunc], true).
Proof. reflexivity. Qed.

(** ** The promotion of key frames *)

Lemma alter_delete_absent (maps : keyFrameMaps) (r : mapRef) (k : Z) :
  framesAt maps r !! k = None -> alter (delete k) r maps = maps.
Proof.
  intros Hk. apply alter_id. intros frames Hr. apply delete_id.
  unfold framesAt in Hk. by rewrite Hr in Hk.
Qed.

Lemma framesAt_alter (f : gmap Z value -> gmap Z value) (maps : keyFrameMaps)
    (r r' : mapRef) :
  framesAt (alter f r maps) r' =
    if decide (r = r') then
      match maps !! r with Some frames => f frames | None => ∅ end
    else framesAt maps r'.
Proof.
  unfold framesAt. destruct (decide (r = r')) as [<- | Hne].
  - rewrite lookup_alter_eq. by destruct (maps !! r).
  - by rewrite lookup_alter_ne.
Qed.

Lemma isNil_true (v : value) : isNil v = true -> v = VNil.
Proof. by destruct v. Qed.

(** The promotion of [From]. *)
Lemma promoteFrom_run {V} (p : AnimatedProperty) (w : World V) :
  promoteFrom p w =
    (mkAnimatedProperty (Tag p) (promotedEnd (heap w) p (From p) 0) (To p) (KeyFrames p),
     mkWorld (self w) (session w) (trace w)
       (match KeyFrames p with
        | Some r => if isNil (From p) then alter (delete 0%Z) r (heap w) else heap w
        | None => heap w
        end)).
Proof.
  unfold promoteFrom, promotedEnd. destruct p as [tag from to frames]. simpl.
  destruct (isNil from) eqn:HF.
  - apply isNil_true in HF as ->. destruct frames as [r |]; simpl.
    + unfold bind, keyFrame. simpl.
      destruct (framesAt (heap w) r !! 0%Z) as [val |] eqn:Hk; simpl.
      * reflexivity.
      * rewrite alter_delete_absent by done. unfold ret. by destruct w.
    + unfold ret. by destruct w.
  - unfold ret. by destruct w, frames.
Qed.

Lemma promoteTo_run {V} (p : AnimatedProperty) (w : World V) :
  promoteTo p w =
    (mkAnimatedProperty (Tag p) (From p) (promotedEnd (heap w) p (To p) 100) (KeyFrames p),
     mkWorld (self w) (session w) (trace w)
       (match KeyFrames p with
        | Some r => if isNil (To p) then alter (delete 100%Z) r (heap w) else heap w
        | None => heap w
        end)).
Proof.
  unfold promoteTo, promotedEnd. destruct p as [tag from to frames]. simpl.
  destruct (isNil to) eqn:HT.
  - apply isNil_true in HT as ->. destruct frames as [r |]; simpl.
    + unfold bind, keyFrame. simpl.
      destruct (framesAt (heap w) r !! 100%Z) as [val |] eqn:Hk; simpl.
      * reflexivity.
      * rewrite alter_delete_absent by done. unfold ret. by destruct w.
    + unfold ret. by destruct w.
  - unfold ret. by destruct w, frames.
Qed.

(** The two promotions of [Set], one after the other. *)
Lemma promotions_run {V} (p : AnimatedProperty) (w : World V) :
  (q <- promoteFrom p ;; promoteTo q) w =
    (normalized (heap w) p,
     mkWorld (self w) (session w) (trace w) (promotedMaps (heap w) p)).
Proof.
  unfold bind. rewrite promoteFrom_run, promoteTo_run.
  unfold normalized, promotedMaps, withoutEnds, promotedEnd.
  destruct p as [tag from to frames]. simpl.
  destruct frames as [r |]; [| done].
  destruct (isNil from) eqn:HF, (isNil to) eqn:HT; simpl; try done.
  all: rewrite ?framesAt_alter, ?decide_True by done.
  all: unfold framesAt; destruct (heap w !! r) as [frames |] eqn:Hr; simpl.
  all: rewrite ?lookup_delete_ne by done.
  all: rewrite ?alter_alter_eq.
  all: try done.
  all: by rewrite alter_id.
Qed.

Lemma bind_assoc {S A B C} (m : M S A) (f : A -> M S B) (g : B -> M S C) (s : S) :
  (x <- m ;; y <- f x ;; g y) s = (y <- (x <- m ;; f x) ;; g y) s.
Proof. unfold bind. destruct (m s) as [a s1]. by destruct (f a s1). Qed.

Lemma keepAnimatedProperties_spec {V} (l props : list AnimatedProperty) (w : World V) :
  keepAnimatedProperties l props w =
    (props ++ keptProperties (heap w) l,
     mkWorld (self w) (session w)
       (trace w ++ flat_map dropLog (normalizedList (heap w) l))
       (promotedMapsList (heap w) l)).
Proof.
  revert props w. induction l as [|p l IH]; intros props w.
  - simpl. unfold ret, keptProperties, promotedMapsList. simpl.
    rewrite !app_nil_r. by destruct w.
  - cbn [keepAnimatedProperties]. rewrite bind_assoc.
    unfold bind at 1. rewrite promotions_run.
    unfold keptProperties, promotedMapsList.
    cbn [normalizedList List.filter flat_map fold_left].
    unfold resolvable at 1, dropLog at 1.
    destruct (isNil (From (normalized (heap w) p))) eqn:HF.
    + unfold bind, emit. rewrite IH. cbn [self session trace heap negb andb].
      by rewrite <- app_assoc.
    + destruct (isNil (To (normalized (heap w) p))) eqn:HT.
      * unfold bind, emit. rewrite IH. cbn [self session trace heap negb andb].
        by rewrite <- app_assoc.
      * rewrite IH. cbn [self session trace heap negb andb app].
        by rewrite <- app_assoc.
Qed.

Lemma alter_present {A} (f : A -> A) (m : gmap mapRef A) (r : mapRef) (x : A) :
  m !! r = Some x -> alter f r m = <[r := f x]> m.
Proof.
  intros Hr. apply map_eq. intros i. destruct (decide (i = r)) as [-> | Hne].
  - by rewrite lookup_alter_eq, lookup_insert_eq, Hr.
  - by rewrite lookup_alter_ne, lookup_insert_ne.
Qed.

(** The promotions of a property do not touch what a property with
    another map becomes. *)
Lemma normalized_other (maps : keyFrameMaps) (p q : AnimatedProperty) :
  KeyFrames q <> KeyFrames p ->
  normalized (promotedMaps maps p) q = normalized maps q.
Proof.
  intros Hne. unfold normalized, promotedEnd, promotedMaps.
  destruct (KeyFrames p) as [r |] eqn:Hp; [| done].
  destruct (KeyFrames q) as [r' |] eqn:Hq; [| done].
  rewrite framesAt_alter. rewrite decide_False; [done |]. by intros ->.
Qed.

Lemma normalizedList_unshared (maps : keyFrameMaps) (l : list AnimatedProperty) :
  NoDup (omap KeyFrames l) -> normalizedList maps l = map (normalized maps) l.
Proof.
  revert maps. induction l as [|p l IH]; intros maps Hdup; [done |].
  simpl. f_equal.
  destruct (KeyFrames p) as [r |] eqn:Hp.
  - simpl in Hdup. rewrite Hp in Hdup. apply NoDup_cons in Hdup as [Hr Hdup].
    rewrite IH by done. apply map_ext_in. intros q Hq.
    apply normalized_other. rewrite Hp. intros Hq'. apply Hr.
    apply list_elem_of_omap. exists q. split; [by apply list_elem_of_In | done].
  - simpl in Hdup. rewrite Hp in Hdup. unfold promotedMaps at 1. rewrite Hp. by apply IH.
Qed.

Lemma Set_property_tag `{AnimationExt} (tag : string) (value : value) :
  animationData_normalizeTag tag = PropertyTag ->
  isNil value = false ->
  animationData_Set tag value = animationData_setProperty PropertyTag value.
Proof.
  intros Htag Hnil. unfold animationData_Set. rewrite Hnil, Htag. reflexivity.
Qed.

Lemma Set_one_property `{AnimationExt} (tag : string) (p : AnimatedProperty)
    (w : World animationData) :
  animationData_normalizeTag tag = PropertyTag ->
  animationData_Set tag (VAnimatedProperty p) w =
    (resolvable (normalized (heap w) p),
     mkWorld (if resolvable (normalized (heap w) p)
              then stored [normalized (heap w) p] (self w) else self w)
             (session w) (trace w ++ dropLog (normalized (heap w) p))
             (promotedMaps (heap w) p)).
Proof.
  intros Htag. rewrite Set_property_tag by done.
  unfold animationData_setProperty. rewrite bind_assoc.
  unfold bind at 1. rewrite promotions_run.
  unfold resolvable, dropLog.
  destruct (isNil (From (normalized (heap w) p))) eqn:HF.
  { reflexivity. }
  destruct (isNil (To (normalized (heap w) p))) eqn:HT.
  { reflexivity. }
  unfold bind, animationData_store, update, modify, withSelf, ret.
  cbn [negb andb self session trace heap]. by rewrite app_nil_r.
Qed.

Lemma Set_property_list `{AnimationExt} (tag : string) (l : list AnimatedProperty)
    (w : World animationData) :
  animationData_normalizeTag tag = PropertyTag ->
  animationData_Set tag (VAnimatedProperties l) w =
    (negb (bool_decide (keptProperties (heap w) l = [])),
     mkWorld (match keptProperties (heap w) l with
              | [] => self w
              | kept => stored kept (self w)
              end)
             (session w)
             (trace w ++ flat_map dropLog (normalizedList (heap w) l) ++ emptyLog (heap w) l)
             (promotedMapsList (heap w) l)).
Proof.
  intros Htag. rewrite Set_property_tag by done.
  unfold animationData_setProperty, bind. rewrite keepAnimatedProperties_spec.
  unfold emptyLog. simpl. destruct (keptProperties (heap w) l) as [|q kept] eqn:Hk; simpl.
  - unfold emit, ret. simpl. by rewrite app_assoc.
  - unfold animationData_store, update, modify, withSelf, ret. simpl.
    by rewrite app_nil_r.
Qed.

(** ** Animated properties that share their key frames

    C5 does not hold on the sources. [Set] takes the key frames at 0 and at
    100 out of the map of the caller, and a map may belong to more than one
    property. Take a map with key frames at 0 and at 100 (both not nil) and
    two properties without ends that hold this one map. Each of them, given
    to [Set] alone, is stored with the two key frames as its ends. Given
    together in a list, only the first is stored: its promotion has emptied
    the map of the second, which is dropped with the line
    "AnimatedProperty.From is nil", although it was supplied with a key
    frame at 0 and without [From]. With a map of its own that holds the
    same key frames the second property is kept. *)
Theorem shared_key_frames_drop_an_entry `{AnimationExt} (tag : string)
    (w : World animationData) (name1 name2 : string) (r : mapRef)
    (frames : gmap Z value) (first last : value)
    (Htag : animationData_normalizeTag tag = PropertyTag)
    (Hframes : heap w !! r = Some frames)
    (Hfirst : frames !! 0%Z = Some first)
    (Hlast : frames !! 100%Z = Some last)
    (Hends : isNil first = false /\ isNil last = false) :
  let p1 := mkAnimatedProperty name1 VNil VNil (Some r) in
  let p2 := mkAnimatedProperty name2 VNil VNil (Some r) in
  let inner := delete 100%Z (delete 0%Z frames) in
  animationData_Set tag (VAnimatedProperty p2) w =
    (true,
     mkWorld (stored [mkAnimatedProperty name2 first last (Some r)] (self w))
       (session w) (trace w) (<[r := inner]> (heap w)))
  /\ animationData_Set tag (VAnimatedProperties [p1; p2]) w =
       (true,
        mkWorld (stored [mkAnimatedProperty name1 first last (Some r)] (self w))
          (session w) (trace w ++ [ErrorLog "AnimatedProperty.From is nil"])
          (<[r := inner]> (heap w)))
  /\ (forall r',
        r' <> r -> heap w !! r' = Some frames ->
        animationData_Set tag
          (VAnimatedProperties [p1; mkAnimatedProperty name2 VNil VNil (Some r')]) w =
          (true,
           mkWorld (stored [mkAnimatedProperty name1 first last (Some r);
                            mkAnimatedProperty name2 first last (Some r')] (self w))
             (session w) (trace w) (<[r' := inner]> (<[r := inner]> (heap w))))).
Proof.
  destruct Hends as [Hf Hl]. cbv zeta.
  assert (Hnorm : forall name r0,
             heap w !! r0 = Some frames ->
             normalized (heap w) (mkAnimatedProperty name VNil VNil (Some r0)) =
               mkAnimatedProperty name first last (Some r0)).
  { intros name r0 Hr0. unfold normalized, promotedEnd, framesAt. simpl.
    rewrite Hr0. simpl. by rewrite Hfirst, Hlast. }
  assert (Hmaps : forall name r0 maps,
             maps !! r0 = Some frames ->
             promotedMaps maps (mkAnimatedProperty name VNil VNil (Some r0)) =
               <[r0 := delete 100%Z (delete 0%Z frames)]> maps).
  { intros name r0 maps Hr0. unfold promotedMaps. simpl.
    by rewrite (alter_present _ _ _ _ Hr0). }
  assert (Hres : forall name r0,
             resolvable (mkAnimatedProperty name first last (Some r0)) = true).
  { intros name r0. unfold resolvable. simpl. by rewrite Hf, Hl. }
  assert (Hlog : forall name r0,
             dropLog (mkAnimatedProperty name first last (Some r0)) = []).
  { intros name r0. unfold dropLog. simpl. by rewrite Hf, Hl. }
  split_and!.
  - rewrite Set_one_property by done. rewrite Hnorm, Hmaps, Hres, Hlog by done.
    by rewrite app_nil_r.
  - rewrite Set_property_list by done.
    unfold emptyLog, keptProperties, promotedMapsList.
    cbn [normalizedList fold_left]. rewrite Hnorm, !Hmaps by done.
    assert (normalized (<[r := delete 100%Z (delete 0%Z frames)]> (heap w))
              (mkAnimatedProperty name2 VNil VNil (Some r)) =
            mkAnimatedProperty name2 VNil VNil (Some r)) as ->.
    { unfold normalized, promotedEnd, framesAt. cbn [From To KeyFrames Tag isNil].
      rewrite lookup_insert_eq. cbn [default from_option]. unfold id.
      rewrite (lookup_delete_ne (delete 0%Z frames) 100%Z 0%Z) by discriminate.
      by rewrite !lookup_delete_eq. }
    unfold promotedMaps at 1. cbn [KeyFrames].
    rewrite (alter_present _ _ _ _ (lookup_insert_eq _ _ _)).
    unfold withoutEnds. cbn [From To isNil].
    cbn [List.filter flat_map]. rewrite Hres, Hlog.
    change (resolvable (mkAnimatedProperty name2 VNil VNil (Some r))) with false.
    change (dropLog (mkAnimatedProperty name2 VNil VNil (Some r)))
      with [ErrorLog "AnimatedProperty.From is nil"].
    cbn [negb andb app]. rewrite bool_decide_eq_false_2 by done. cbn [negb].
    do 2 f_equal. rewrite insert_insert_eq. f_equal.
    rewrite (delete_id _ 0%Z).
    + apply delete_id. apply lookup_delete_eq.
    + rewrite lookup_delete_ne by discriminate. apply lookup_delete_eq.
  - intros r' Hne Hr'. rewrite Set_property_list by done.
    unfold emptyLog, keptProperties, promotedMapsList.
    rewrite normalizedList_unshared.
    2:{ simpl. apply NoDup_cons. split; [| apply NoDup_singleton].
        intros Hin%list_elem_of_singleton. by subst. }
    cbn [map fold_left]. rewrite !Hnorm by done.
    rewrite (Hmaps name1 r) by done.
    rewrite (Hmaps name2 r'); [| by rewrite lookup_insert_ne].
    cbn [List.filter flat_map]. rewrite !Hres, !Hlog.
    rewrite bool_decide_eq_false_2 by done. cbn [negb app]. by rewrite app_nil_r.
Qed.

(** The theorem for the property of the spec, key frames "red", "blue" and
    "green" at 0, 50 and 100, given twice in a list with its one map: one
    entry is stored. *)
Lemma shared_key_frames_drop_an_entry_witness :
  animationData_Get
    (self (snd (animationData_Set (H := Samples.animationExt) "Property"
                  (VAnimatedProperties [Samples.redBlueGreen; Samples.redBlueGreen])
                  (Samples.worldWith Samples.redBlueGreenMaps Samples.animation0))))
    PropertyTag =
  VAnimatedProperties
    [mkAnimatedProperty "background-color" (VString "red") (VString "green") (Some 7%nat)].
Proof.
  pose proof (shared_key_frames_drop_an_entry (H := Samples.animationExt) "Property"
                (Samples.worldWith Samples.redBlueGreenMaps Samples.animation0)
                "background-color" "background-color" 7%nat Samples.redBlueGreenFrames
                (VString "red") (VString "green")
                eq_refl eq_refl eq_refl eq_refl (conj eq_refl eq_refl)) as Hthm.
  cbv zeta in Hthm. destruct Hthm as (_ & Hlist & _).
  change (mkAnimatedProperty "background-color" VNil VNil (Some 7%nat))
    with Samples.redBlueGreen in Hlist.
  rewrite Hlist. reflexivity.
Defined.

(** X25. Animated properties under the tag "property", for the maps of key
    frames as they are when [Set] is called: when [From] is not given, a key
    frame at 0 becomes [From] and leaves the map of the property, a key
    frame at 100 becomes [To] likewise, and the other key frames stay; key
    frames 0 "red", 50 "blue", 100 "green" with no ends give from "red", to
    "green" and leave the key frame 50 "blue" in the map. A property that
    still lacks an end is dropped with a line in the log. The entries of a
    list are taken one after the other, each finding the maps as the
    entries before it have left them; the valid entries are stored in their
    order, and [Set] returns false and stores nothing when none is left.
    When no two entries hold the same map, every entry is promoted from the
    key frames it was given with. *)
Theorem animated_property_normalization `{AnimationExt} (tag : string)
    (w : World animationData)
    (Htag : animationData_normalizeTag tag = PropertyTag) :
  (forall p r frames val,
      isNil (From p) = true -> KeyFrames p = Some r -> heap w !! r = Some frames ->
      frames !! 0%Z = Some val ->
      From (normalized (heap w) p) = val
      /\ framesAt (promotedMaps (heap w) p) r !! 0%Z = None)
  /\ (forall p r frames val,
      isNil (To p) = true -> KeyFrames p = Some r -> heap w !! r = Some frames ->
      frames !! 100%Z = Some val ->
      To (normalized (heap w) p) = val
      /\ framesAt (promotedMaps (heap w) p) r !! 100%Z = None)
  /\ (forall p r k,
      KeyFrames p = Some r -> k <> 0%Z -> k <> 100%Z ->
      framesAt (promotedMaps (heap w) p) r !! k = framesAt (heap w) r !! k)
  /\ (heap w !! 7%nat = Some Samples.redBlueGreenFrames ->
      let '(ok, w') := animationData_Set tag (VAnimatedProperty Samples.redBlueGreen) w in
      ok = true
      /\ animationData_Get (self w') PropertyTag =
           VAnimatedProperties
             [mkAnimatedProperty "background-color" (VString "red") (VString "green")
                (Some 7%nat)]
      /\ framesAt (heap w') 7%nat = {[ 50%Z := VString "blue" ]})
  /\ (forall p,
      animationData_Set tag (VAnimatedProperty p) w =
        (resolvable (normalized (heap w) p),
         mkWorld (if resolvable (normalized (heap w) p)
                  then stored [normalized (heap w) p] (self w) else self w)
                 (session w) (trace w ++ dropLog (normalized (heap w) p))
                 (promotedMaps (heap w) p)))
  /\ (forall l,
      animationData_Set tag (VAnimatedProperties l) w =
        (negb (bool_decide (keptProperties (heap w) l = [])),
         mkWorld (match keptProperties (heap w) l with
                  | [] => self w
                  | kept => stored kept (self w)
                  end)
                 (session w)
                 (trace w ++ flat_map dropLog (normalizedList (heap w) l)
                  ++ emptyLog (heap w) l)
                 (promotedMapsList (heap w) l)))
  /\ (forall l,
      NoDup (omap KeyFrames l) ->
      normalizedList (heap w) l = map (normalized (heap w)) l).
Proof.
  split_and!.
  - intros p r frames val HF HK Hr H0. unfold normalized, promotedEnd, promotedMaps.
    rewrite HK. cbn [From]. rewrite HF. unfold framesAt at 1. rewrite Hr.
    cbn [default from_option]. unfold id. rewrite H0. split; [done |].
    rewrite framesAt_alter, decide_True, Hr by done.
    unfold withoutEnds. rewrite HF.
    destruct (isNil (To p)); [rewrite lookup_delete_ne by discriminate |];
      apply lookup_delete_eq.
  - intros p r frames val HT HK Hr H100. unfold normalized, promotedEnd, promotedMaps.
    rewrite HK. cbn [To]. rewrite HT. unfold framesAt at 1. rewrite Hr.
    cbn [default from_option]. unfold id. rewrite H100. split; [done |].
    rewrite framesAt_alter, decide_True, Hr by done.
    unfold withoutEnds. rewrite HT. apply lookup_delete_eq.
  - intros p r k HK H0 H100. unfold promotedMaps. rewrite HK.
    rewrite framesAt_alter, decide_True by done. unfold framesAt, withoutEnds.
    destruct (heap w !! r) as [frames |]; [| done]. cbn [default from_option].
    destruct (isNil (From p)), (isNil (To p)); by rewrite ?lookup_delete_ne.
  - intros Hr. rewrite Set_one_property by done.
    assert (normalized (heap w) Samples.redBlueGreen =
              mkAnimatedProperty "background-color" (VString "red") (VString "green")
                (Some 7%nat)) as ->.
    { unfold normalized, promotedEnd, framesAt. cbn. by rewrite Hr. }
    cbn [resolvable From To isNil negb andb self heap]. split_and!; [done | |].
    + unfold animationData_Get, stored, getRaw. simpl. by rewrite lookup_insert_eq.
    + unfold promotedMaps. cbn [Samples.redBlueGreen KeyFrames].
      rewrite framesAt_alter, decide_True, Hr by done. by vm_compute.
  - intros p. by apply Set_one_property.
  - intros l. by apply Set_property_list.
  - intros l. apply normalizedList_unshared.
Qed.

(** The theorem for the tag written "Property" and the property of the
    spec. *)
Lemma animated_property_normalization_witness :
  let '(ok, w') :=
    animationData_Set (H := Samples.animationExt) "Property"
      (VAnimatedProperty Samples.redBlueGreen)
      (Samples.worldWith Samples.redBlueGreenMaps Samples.animation0) in
  ok = true
  /\ animationData_Get (self w') PropertyTag =
       VAnimatedProperties
         [mkAnimatedProperty "background-color" (VString "red") (VString "green")
            (Some 7%nat)]
  /\ framesAt (heap w') 7%nat = {[ 50%Z := VString "blue" ]}.
Proof.
  apply (animated_property_normalization (H := Samples.animationExt) "Property"
           (Samples.worldWith Samples.redBlueGreenMaps Samples.animation0) eq_refl).
  reflexivity.
Defined.

Lemma animationCSS_named `{Strconv} `{AnimationExt} (w : World animationData) :
  keyFramesName (self w) <> EmptyString ->
  animationData_animationCSS w =
    (animationData_animationCSS_text (self w) (session w), w).
Proof.
  intros Hname. unfold animationData_animationCSS, bind, me. simpl.
  destruct (String.eqb_spec (keyFramesName (self w)) EmptyString); [done |].
  reflexivity.
Qed.

Lemma animationCSS_unnamed `{Strconv} `{AnimationExt} (w : World animationData)
    (props : list AnimatedProperty) :
  keyFramesName (self w) = EmptyString ->
  getRaw (animationProperties (self w)) PropertyTag = VAnimatedProperties props ->
  let name := "kf" +:+ Sprintf06d (wrapInt (animationCounter (session w) + 1)) in
  let '(css, w') := animationData_animationCSS w in
  self w' = withKeyFramesName name (self w)
  /\ animationCounter (session w') = wrapInt (animationCounter (session w) + 1)
  /\ css = animationData_animationCSS_text (self w') (session w').
Proof.
  intros Hname Hprops. unfold animationData_animationCSS, bind, me. simpl.
  rewrite Hname, Hprops. simpl. done.
Qed.

(** ** Keyframe names

    C6: for an animation with a list of animated properties, asking twice
    for its CSS animation text gives the same keyframe name both times: the
    first call registers the key frames when the animation has no name yet
    and keeps the name; every later call, whatever the session has become,
    changes neither the animation nor the session, registers nothing, and
    returns a text that starts with that name; in the same session the text
    is the same. *)
Theorem keyframe_name_is_cached `{Strconv} `{AnimationExt} (w : World animationData)
    (props : list AnimatedProperty)
    (Hprops : getRaw (animationProperties (self w)) PropertyTag = VAnimatedProperties props) :
  let '(css1, w1) := animationData_animationCSS w in
  let '(css2, w2) := animationData_animationCSS w1 in
  animationData_animationName (self w1) <> EmptyString
  /\ animationData_animationName (self w2) = animationData_animationName (self w1)
  /\ css2 = css1
  /\ w2 = w1
  /\ (exists rest, css1 = animationData_animationName (self w1) +:+ rest)
  /\ (forall later,
        self later = self w1 ->
        let '(css, w') := animationData_animationCSS later in
        w' = later
        /\ exists rest, css = animationData_animationName (self w1) +:+ rest)
  /\ (animationData_animationName (self w) = EmptyString ->
      animationData_animationName (self w1) =
        "kf" +:+ Sprintf06d (wrapInt (animationCounter (session w) + 1)))
  /\ (animationData_animationName (self w) <> EmptyString -> w1 = w).
Proof.
  unfold animationData_animationName.
  assert (Hlater : forall w1 : World animationData,
            keyFramesName (self w1) <> EmptyString ->
            forall later, self later = self w1 ->
              let '(css, w') := animationData_animationCSS later in
              w' = later /\ exists rest, css = keyFramesName (self w1) +:+ rest).
  { intros w1 Hn1 later Hself. rewrite animationCSS_named by (by rewrite Hself).
    split; [done |]. rewrite Hself. unfold animationData_animationCSS_text.
    eauto. }
  destruct (String.eqb_spec (keyFramesName (self w)) EmptyString) as [Hname | Hname].
  - pose proof (animationCSS_unnamed w props Hname Hprops) as H1. simpl in H1.
    destruct (animationData_animationCSS w) as [css1 w1].
    destruct H1 as (Hself & Hcount & Hcss).
    assert (Hn1 : keyFramesName (self w1) <> EmptyString) by (by rewrite Hself).
    rewrite (animationCSS_named w1 Hn1).
    split_and!; [done | done | done | done | | by apply Hlater | | done].
    + rewrite Hcss. unfold animationData_animationCSS_text. eauto.
    + intros _. by rewrite Hself.
  - rewrite (animationCSS_named w Hname). rewrite (animationCSS_named w Hname).
    split_and!; [done | done | done | done | | by apply Hlater | done | done].
    unfold animationData_animationCSS_text. eauto.
Qed.

(** The theorem for an animation from "red" to "green" in a new session:
    the name is "kf000001" both times. *)
Lemma keyframe_name_is_cached_witness :
  let '(css1, w1) :=
    animationData_animationCSS (H := Samples.strconv) (H0 := Samples.animationExt)
      (Samples.world0 Samples.animation1) in
  let '(css2, w2) :=
    animationData_animationCSS (H := Samples.strconv) (H0 := Samples.animationExt) w1 in
  animationData_animationName (self w1) = "kf000001"
  /\ animationData_animationName (self w2) = "kf000001".
Proof.
  pose proof (keyframe_name_is_cached (H := Samples.strconv) (H0 := Samples.animationExt)
                (Samples.world0 Samples.animation1) [Samples.redToGreen] eq_refl) as Hk.
  destruct (animationData_animationCSS (H := Samples.strconv) (H0 := Samples.animationExt)
              (Samples.world0 Samples.animation1)) as [css1 w1] eqn:E1.
  destruct (animationData_animationCSS (H := Samples.strconv) (H0 := Samples.animationExt)
              w1) as [css2 w2].
  destruct Hk as (_ & H2 & _ & _ & _ & _ & Hname & _).
  rewrite H2, (Hname eq_refl). split; reflexivity.
Defined.


(** ** [Set] with nil, [SetAnimated] without animation, [AddTransition]

    C8: for every tag, on a view, on an animation and on a drop-down list,
    [Set(tag, nil)] returns true and leaves the state that [Remove(tag)]
    leaves, effects included; the same holds for the inner [set] and
    [remove]. *)
Theorem set_nil_is_remove `{AnimationExt} `{ViewExt} `{DropDownExt} (tag : string) :
  (forall w : World viewData,
      viewData_Set tag VNil w = (true, snd (viewData_Remove tag w)))
  /\ (forall w : World animationData,
      animationData_Set tag VNil w = (true, snd (animationData_Remove tag w)))
  /\ (forall w : World dropDownListData,
      dropDownListData_Set tag VNil w = (true, snd (dropDownListData_Remove tag w)))
  /\ (forall w : World viewData,
      viewData_set tag VNil w = (true, snd (viewData_remove tag w)))
  /\ (forall w : World dropDownListData,
      dropDownListData_set tag VNil w = (true, snd (dropDownListData_remove tag w))).
Proof.
  split_and!; intros w.
  - unfold viewData_Set, viewData_Remove, viewData_set, bind, ret. simpl.
    by destruct (viewData_remove (ToLower tag) w) as [[] w'].
  - unfold animationData_Set, bind, ret. simpl.
    by destruct (animationData_Remove tag w) as [[] w'].
  - unfold dropDownListData_Set, dropDownListData_Remove, dropDownListData_set, bind, ret.
    simpl. by destruct (dropDownListData_remove (ToLower tag) w) as [[] w'].
  - unfold viewData_set, bind, ret. simpl.
    by destruct (viewData_remove tag w) as [[] w'].
  - unfold dropDownListData_set, bind, ret. simpl.
    by destruct (dropDownListData_remove tag w) as [[] w'].
Qed.

(** X27. On a view that is a [viewData] itself, [SetAnimated(tag, value,
    nil)] is [Set(tag, value)] for every tag and value: same result, same
    view afterwards, hence the same [singleTransition] and [transitions] as
    after [Set], and the same instructions; no step of the override is run.
    When the methods outside the embedded files leave [singleTransition]
    alone, so does the call: no entry is created. Through the interface
    [View] the call reaches [viewData.Set] of the embedded view, also for a
    drop-down list. *)
Theorem SetAnimated_without_animation `{ViewExt} (tag : string) (value : value) :
  (forall w : World viewData,
      viewData_SetAnimated tag value None w = viewData_Set tag value w)
  /\ (forall w : World viewData,
      let '(r, w') := viewData_SetAnimated tag value None w in
      let '(r0, w0) := viewData_Set tag value w in
      r = r0
      /\ self w' = self w0
      /\ singleTransition (self w') = singleTransition (self w0)
      /\ viewTransitions (self w') = viewTransitions (self w0)
      /\ trace w' = trace w0)
  /\ View_SetAnimated tag value None =
       dispatch (viewData_Set tag value) (onListView (viewData_Set tag value))
  /\ (SingleTransitionUntouched ->
      forall w : World viewData,
        singleTransition (self (snd (viewData_SetAnimated tag value None w))) =
          singleTransition (self w)).
Proof.
  split_and!.
  - reflexivity.
  - intros w. simpl. by destruct (viewData_Set tag value w) as [r w'].
  - reflexivity.
  - intros Hext w. by apply keeps_Set.
Qed.

Lemma samples_leave_singleTransition :
  SingleTransitionUntouched (H := Samples.viewExt).
Proof. split; intros; by intros w. Qed.

(** The theorem for "opacity" on a view with an override in flight. *)
Lemma SetAnimated_without_animation_witness :
  singleTransition
    (self (snd (viewData_SetAnimated (H := Samples.viewExt) "opacity" (VString "0.5") None
                  (Samples.world0 Samples.overridingView)))) =
  singleTransition Samples.overridingView.
Proof.
  exact (proj2 (proj2 (proj2 (SetAnimated_without_animation (H := Samples.viewExt)
                                "opacity" (VString "0.5"))))
           samples_leave_singleTransition (Samples.world0 Samples.overridingView)).
Defined.

(** C10: [AddTransition] returns false and leaves every view and the
    session as they are when the tag is empty (nothing is done at all) or
    when the view it resolves to is nil (only the lookup may write to the
    log); otherwise it is [Set] of the tag "transition" on the resolved
    view, with the transitions of that view plus the new one. *)
Theorem AddTransition_guards `{ViewExt} `{DropDownExt} `{LookupExt}
    (view : View) (subviewID : string) (animation : Animation)
    (w : World (gmap nat viewObject)) :
  AddTransition view subviewID EmptyString animation w = (false, w)
  /\ (forall tag,
        tag <> EmptyString ->
        fst (resolved view subviewID (self w)) = None ->
        AddTransition view subviewID tag animation w =
          (false, mkWorld (self w) (session w)
                          (trace w ++ snd (resolved view subviewID (self w))) (heap w)))
  /\ (forall tag r o,
        tag <> EmptyString ->
        fst (resolved view subviewID (self w)) = Some r ->
        self w !! r = Some o ->
        AddTransition view subviewID tag animation w =
          let '(ok, wo) :=
            View_Set Transition
              (VParams (<[tag := valueOfAnimation animation]> (View_getTransitions o)))
              (mkWorld o (session w) (trace w ++ snd (resolved view subviewID (self w))) (heap w)) in
          (ok, mkWorld (<[r := self wo]> (self w)) (session wo) (trace wo) (heap wo))).
Proof.
  split_and!.
  - reflexivity.
  - intros tag Htag Hnone. unfold AddTransition, resolved in *.
    destruct (String.eqb_spec tag EmptyString); [done |].
    unfold bind, resolveView, ret.
    destruct (negb (String.eqb subviewID EmptyString)).
    + destruct (ViewByID (self w) view subviewID) as [found log]. simpl in *.
      by subst found.
    + simpl in *. subst view. rewrite app_nil_r. by destruct w.
  - intros tag r o Htag Hsome Ho. unfold AddTransition, resolved in *.
    destruct (String.eqb_spec tag EmptyString); [done |].
    unfold bind, resolveView, ret.
    destruct (negb (String.eqb subviewID EmptyString)).
    + destruct (ViewByID (self w) view subviewID) as [found log]. simpl in *.
      subst found. unfold atView, me. simpl. by rewrite Ho.
    + simpl in *. subst view. unfold atView, me. simpl. rewrite Ho, app_nil_r.
      by destruct w.
Qed.

(** The theorem for a transition of "opacity" added to the view itself. *)
Lemma AddTransition_guards_witness :
  let views : gmap nat viewObject := {[ 0%nat := PlainView Samples.view0 ]} in
  fst (AddTransition (H := Samples.viewExt) (H0 := Samples.dropDownExt)
         (H1 := Samples.lookupExt) (Some 0%nat) EmptyString "opacity" (Some Samples.A1)
         (Samples.world0 views)) = true
  /\ AddTransition (H := Samples.viewExt) (H0 := Samples.dropDownExt)
        (H1 := Samples.lookupExt) (Some 0%nat) "other" "opacity" (Some Samples.A1)
        (Samples.world0 views) = (false, Samples.world0 views).
Proof.
  intros views. split.
  - rewrite (proj2 (proj2 (AddTransition_guards (H := Samples.viewExt)
               (H0 := Samples.dropDownExt) (H1 := Samples.lookupExt) (Some 0%nat)
               EmptyString (Some Samples.A1) (Samples.world0 views)))
               "opacity" 0%nat (PlainView Samples.view0));
      [reflexivity | discriminate | reflexivity | reflexivity].
  - rewrite (proj1 (proj2 (AddTransition_guards (H := Samples.viewExt)
               (H0 := Samples.dropDownExt) (H1 := Samples.lookupExt) (Some 0%nat)
               "other" (Some Samples.A1) (Samples.world0 views)))
               "opacity");
      [reflexivity | discriminate | reflexivity].
Defined.

(** ** The failure path of [SetAnimated] *)

(** [Set("id", v)] fails for every [v] that is neither nil nor a string, and
    leaves the view as it was. *)
Lemma Set_id_not_string `{ViewExt} (tag : string) (value : value) (w : World viewData) :
  ToLower tag = ID -> isNil value = false ->
  (forall text, value <> VString text) ->
  viewData_Set tag value w =
    (false, mkWorld (self w) (session w) (trace w ++ [notCompatibleType ID value]) (heap w)).
Proof.
  intros Htag Hnil Hstr. unfold viewData_Set, viewData_set. rewrite Htag, Hnil. simpl.
  destruct value; try reflexivity. by destruct (Hstr s).
Qed.

(** C1 does not hold on the sources. When [SetAnimated(tag, value,
    animation)] is called with a non-nil animation and the inner
    [Set(tag, value)] fails and leaves the view as it was, [SetAnimated]
    returns false and the entry of [singleTransition] for the tag is gone,
    whatever it held before the call; but [transitions] is not put back: it
    still maps the tag to the override. *)
Theorem SetAnimated_failure_keeps_override `{ViewExt} (tag : string) (value : value)
    (animation : animRef) (w : World viewData)
    (Hfail : forall w1 : World viewData, exists log maps,
        viewData_Set tag value w1 =
          (false, mkWorld (self w1) (session w1) (trace w1 ++ log) maps)) :
  let '(result, w') := viewData_SetAnimated tag value (Some animation) w in
  result = false
  /\ singleTransition (self w') = delete tag (singleTransition (self w))
  /\ viewTransitions (self w') = <[tag := Some animation]> (viewTransitions (self w))
  /\ viewTransitions (self w') !! tag = Some (Some animation).
Proof.
  unfold viewData_SetAnimated, viewData_updateTransitionCSS.
  cbv [bind emit me update modify get].
  repeat match goal with
  | |- context [viewData_htmlID ?w0] =>
      destruct (htmlID_spec w0) as (? & ? & ->); cbn [self session trace heap withSelf]
  | |- context [match viewTransitions ?v !! tag with _ => _ end] =>
      destruct (viewTransitions v !! tag); cbn [self session trace heap withSelf]
  | |- context [viewData_Set tag value ?w1] =>
      destruct (Hfail w1) as (? & ? & ->); cbn [negb self session trace heap withSelf]
  end.
  all: cbn [ret]; split_and!; [done | | done |].
  all: first [ apply lookup_insert_eq | simpl; by rewrite delete_insert_eq ].
Qed.

(** The theorem at [SetAnimated("id", 5, A1)] on a fresh view: "id" has no
    transition before the call and has the override [A1] after it. *)
Lemma SetAnimated_failure_keeps_override_witness :
  viewTransitions Samples.view0 !! "id" = None
  /\ let '(result, w') :=
       viewData_SetAnimated (H := Samples.viewExt) "id" (VInt 5) (Some Samples.A1)
         (Samples.world0 Samples.view0) in
     result = false
     /\ singleTransition (self w') = delete "id" (singleTransition Samples.view0)
     /\ viewTransitions (self w') =
          <["id" := Some Samples.A1]> (viewTransitions Samples.view0)
     /\ viewTransitions (self w') !! "id" = Some (Some Samples.A1).
Proof.
  split; [reflexivity |].
  apply (SetAnimated_failure_keeps_override (H := Samples.viewExt) "id" (VInt 5)
           Samples.A1 (Samples.world0 Samples.view0)).
  intros w1. exists [notCompatibleType ID (VInt 5)], (heap w1).
  by apply Set_id_not_string.
Defined.

(** ** Propagation of the border tags *)

Lemma issued_app {V A} (m : M (World V) A) (w : World V) (a : A) (v : V)
    (s : sessionData) (added : list effect) :
  m w = (a, mkWorld v s (trace w ++ added) (heap w)) -> issued m w = added.
Proof. intros Hm. unfold issued. rewrite Hm. simpl. by rewrite drop_app_length. Qed.

Lemma width_tag_cases `{ViewExt} (tag : string) :
  tag ∈ borderEdgeWidthTags ->
  String.eqb tag Border = false
  /\ isOneOf tag borderEdgeTags = false
  /\ isOneOf tag borderStyleTags = false
  /\ isOneOf tag borderColorTags = false
  /\ isOneOf tag borderWidthTags = true.
Proof.
  unfold borderEdgeWidthTags. rewrite !elem_of_cons, elem_of_nil.
  intros [-> | [-> | [-> | [-> | []]]]]; by vm_compute.
Qed.

Lemma width_tag_is_styled `{ViewExt} (tag : string) (value : value) :
  tag ∈ borderEdgeWidthTags -> isNil value = false ->
  viewData_set tag value =
    (ok <- onStyle (viewStyle_set tag value) ;;
     if negb ok then ret false
     else
       view <- me ;;
       (if created view then viewPropertyChanged tag else ret tt) ;;
       viewData_propertyChangedEvent tag ;; ret true).
Proof.
  unfold borderEdgeWidthTags. rewrite !elem_of_cons, elem_of_nil.
  intros [-> | [-> | [-> | [-> | []]]]] Hnil;
    unfold viewData_set; rewrite Hnil; reflexivity.
Qed.

(** C2, as the sources have it: after a change of the width of one edge
    (the style has taken the value and the view is shown) the propagation
    sends one instruction, for the CSS property "border-width", when a
    border is configured, and none when no border is configured; the color
    and the style of the border are not sent again. *)
Theorem border_width_propagation `{ViewExt} (tag : string) (w : World viewData)
    (Htag : tag ∈ borderEdgeWidthTags)
    (Htransform : updateTransformProperty tag w = (false, w)) :
  (exists id session',
      let view := withHtmlID id (self w) in
      viewPropertyChanged tag w =
        (tt, mkWorld view session'
               (trace w ++
                match getBorder view Border with
                | Some border =>
                    [updateCSSProperty id BorderWidth (cssWidthValue border session')]
                | None => []
                end) (heap w)))
  /\ (length (cssUpdates (issued (viewPropertyChanged tag) w)) <= 1)%nat
  /\ (forall value, isNil value = false ->
        viewData_set tag value =
          (ok <- onStyle (viewStyle_set tag value) ;;
           if negb ok then ret false
           else
             view <- me ;;
             (if created view then viewPropertyChanged tag else ret tt) ;;
             viewData_propertyChangedEvent tag ;; ret true)).
Proof.
  assert (Hrun : exists id session',
      let view := withHtmlID id (self w) in
      viewPropertyChanged tag w =
        (tt, mkWorld view session'
               (trace w ++
                match getBorder view Border with
                | Some border =>
                    [updateCSSProperty id BorderWidth (cssWidthValue border session')]
                | None => []
                end) (heap w))).
  { destruct (width_tag_cases tag Htag) as (E1 & E2 & E3 & E4 & E5).
    unfold viewPropertyChanged, bind. rewrite Htransform.
    destruct (htmlID_spec w) as (id & session' & ->).
    exists id, session'. cbv [get]. cbv zeta. cbn [self session trace heap].
    rewrite E1, E2, E3, E4, E5.
    destruct (getBorder (withHtmlID id (self w)) Border) as [border |].
    - reflexivity.
    - unfold ret. by rewrite app_nil_r. }
  split_and!.
  - exact Hrun.
  - destruct Hrun as (id & session' & Hrun). simpl in Hrun.
    rewrite (issued_app _ _ _ _ _ _ Hrun).
    destruct (getBorder (withHtmlID id (self w)) Border); simpl; lia.
  - intros value Hnil. by apply width_tag_is_styled.
Qed.

(** The theorem on a shown view with a border. *)
Lemma border_width_propagation_witness :
  (length (cssUpdates (issued (viewPropertyChanged (H := Samples.viewExt) BorderLeftWidth)
                              (Samples.world0 Samples.borderedView))) <= 1)%nat.
Proof.
  refine (proj1 (proj2 (border_width_propagation (H := Samples.viewExt) BorderLeftWidth
                          (Samples.world0 Samples.borderedView) _ _))).
  - unfold borderEdgeWidthTags. apply elem_of_cons. by left.
  - reflexivity.
Defined.

(** C2 as stated fails: with a border configured, a change of
    "border-left-width" sends one instruction, not three. *)
Lemma border_width_sends_one_instruction :
  getBorder (ViewExt := Samples.viewExt) Samples.borderedView Border = Some Samples.border
  /\ ~ tripleOrNothing (H := Samples.viewExt) BorderLeftWidth
         (Samples.world0 Samples.borderedView).
Proof. split; [reflexivity |]. unfold tripleOrNothing. by vm_compute. Qed.

(** The tags of the whole border and of a whole edge do send the triple:
    the three values of a configured border, and for "border" the three
    cleared values when no border is configured. *)
Lemma border_edge_propagation `{ViewExt} (tag : string) (w : World viewData)
    (Htag : tag ∈ Border :: borderEdgeTags)
    (Htransform : updateTransformProperty tag w = (false, w)) :
  exists id session',
    let view := withHtmlID id (self w) in
    issued (viewPropertyChanged tag) w =
      match getBorder view Border with
      | Some border =>
          [updateCSSProperty id BorderWidth (cssWidthValue border session');
           updateCSSProperty id BorderColor (cssColorValue border session');
           updateCSSProperty id BorderStyle (cssStyleValue border session')]
      | None =>
          if String.eqb tag Border then
            [updateCSSProperty id BorderWidth EmptyString;
             updateCSSProperty id BorderColor EmptyString;
             updateCSSProperty id BorderStyle "none"]
          else []
      end.
Proof.
  unfold viewPropertyChanged, bind. 
  destruct (htmlID_spec w) as (id & session' & Hid).
  exists id, session'. cbv zeta.
  unfold borderEdgeTags in Htag. rewrite !elem_of_cons, elem_of_nil in Htag.
  destruct Htag as [-> | [-> | [-> | [-> | [-> | []]]]]];
    (eapply issued_app; rewrite Htransform, Hid; cbv [get]; cbv zeta;
     cbn [self session trace heap];
     match goal with
     | |- context [String.eqb ?a ?b] => change (String.eqb a b) with true
     | |- context [String.eqb ?a ?b] =>
         change (String.eqb a b) with false;
         change (isOneOf a borderEdgeTags) with true
     end;
     destruct (getBorder (withHtmlID id (self w)) Border) as [border |];
     cbv [updateBorderCSS bind emit get ret]; cbn [self session trace heap];
     rewrite <- ?app_assoc, ?app_nil_r; reflexivity).
Qed.

(** * Further properties

    ** Decimal numerals: [Itoa], [Atoi] and [Sprintf06d] *)

Lemma parseDigits_uint_acc (d : Decimal.uint) (p : positive) :
  parseDigits (NilEmpty.string_of_uint d) (Z.pos p) = Some (Z.pos (Pos.of_uint_acc d p)).
Proof.
  revert p. induction d; intros p; simpl; [reflexivity | ..];
    unfold digitVal; simpl; rewrite <- IHd; f_equal;
    match goal with
    | |- context [Z.of_nat (nat_of_ascii ?c)] =>
        let v := eval vm_compute in (Z.of_nat (nat_of_ascii c)) in
        change (Z.of_nat (nat_of_ascii c)) with v
    end; lia.
Qed.

Lemma parseDigits_uint (d : Decimal.uint) :
  parseDigits (NilEmpty.string_of_uint d) 0 = Some (Z.of_N (Pos.of_uint d)).
Proof.
  induction d; simpl; [reflexivity | exact IHd | ..];
    unfold digitVal; simpl; apply parseDigits_uint_acc.
Qed.

Lemma parseDigits_zeros (k : nat) (s : string) :
  parseDigits (zeros k +:+ s) 0 = parseDigits s 0.
Proof. induction k as [|k IH]; [reflexivity |]. simpl zeros. rewrite app_cons. exact IH. Qed.

Lemma uint_not_blank (d : Decimal.uint) :
  ContainsAny (NilEmpty.string_of_uint d) blanks = false.
Proof. induction d; simpl; [reflexivity | ..]; exact IHd. Qed.

Lemma TrimRight_id (s cutset : string) :
  ContainsAny s cutset = false -> TrimRight s cutset = s.
Proof.
  induction s as [|c r IH]; simpl; [done |].
  intros [Hc Hr]%orb_false_iff. rewrite (IH Hr), Hc. by destruct r.
Qed.

Lemma Trim_id (s cutset : string) :
  ContainsAny s cutset = false -> Trim s cutset = s.
Proof.
  intros Hs. unfold Trim.
  assert (TrimLeft s cutset = s) as ->.
  { destruct s as [|c r]; [done |]. simpl in *.
    apply orb_false_iff in Hs as [-> _]. done. }
  by apply TrimRight_id.
Qed.

Lemma to_uint_not_nil (p : positive) : Pos.to_uint p <> Decimal.Nil.
Proof.
  intros Hnil. pose proof (DecimalPos.Unsigned.of_to p) as Hof.
  rewrite Hnil in Hof. discriminate.
Qed.

(** The numeral of a positive number: digits only, read back by
    [parseDigits]. *)
Lemma numeral_of_positive (p : positive) :
  let s := NilZero.string_of_uint (Pos.to_uint p) in
  parseDigits s 0 = Some (Z.pos p)
  /\ ContainsAny s blanks = false
  /\ exists c r, s = String c r /\ Ascii.eqb c "-" = false /\ Ascii.eqb c "+" = false.
Proof.
  pose proof (to_uint_not_nil p) as Hnil.
  pose proof (DecimalPos.Unsigned.of_to p) as Hof.
  unfold NilZero.string_of_uint.
  destruct (Pos.to_uint p) as [|d|d|d|d|d|d|d|d|d|d] eqn:E; [done | ..];
    (split_and!;
     [ rewrite parseDigits_uint, Hof; reflexivity
     | apply uint_not_blank
     | simpl; eexists _, _; split_and!; reflexivity ]).
Qed.

(** [Atoi] reads back what [Itoa] writes. *)
Lemma Atoi_Itoa (n : Z) :
  (minInt <= n <= maxInt)%Z -> Atoi (Itoa n) = Some n.
Proof.
  intros Hrange. unfold Itoa.
  assert (Hcheck : (minInt <=? n)%Z && (n <=? maxInt)%Z = true).
  { apply andb_true_iff. split; apply Z.leb_le; lia. }
  destruct n as [|p|p].
  - reflexivity.
  - simpl Z.to_int. unfold NilZero.string_of_int.
    destruct (numeral_of_positive p) as (Hparse & _ & c & r & Hs & Hm & Hp).
    simpl in Hparse, Hs. rewrite Hs in *. unfold Atoi. rewrite Hm, Hp, Hparse.
    by rewrite Hcheck.
  - simpl Z.to_int. unfold NilZero.string_of_int.
    destruct (numeral_of_positive p) as (Hparse & _ & c & r & Hs & Hm & Hp).
    simpl in Hparse, Hs. unfold Atoi. rewrite Ascii.eqb_refl.
    rewrite Hs in *. rewrite Hparse.
    change (- Z.pos p)%Z with (Z.neg p). by rewrite Hcheck.
Qed.

Lemma Itoa_not_blank (n : Z) : ContainsAny (Itoa n) blanks = false.
Proof.
  unfold Itoa. destruct n as [|p|p]; [reflexivity | ..]; simpl Z.to_int;
    unfold NilZero.string_of_int;
    destruct (numeral_of_positive p) as (_ & Hb & _); simpl in Hb.
  - exact Hb.
  - simpl. exact Hb.
Qed.

(** X1. The timing function that [StepsTiming] builds is valid for every
    step count of the [int] type, because [Atoi] reads back the numeral that
    [Itoa] writes. *)
Theorem StepsTiming_is_valid `{Strconv} (stepCount : Z)
    (Hint : (minInt <= stepCount <= maxInt)%Z) :
  Atoi (Itoa stepCount) = Some stepCount
  /\ validateTimingFunction (StepsTiming stepCount) = true.
Proof.
  split; [by apply Atoi_Itoa |].
  apply validate_iff. right. right. left. exists (Itoa stepCount).
  split; [reflexivity |].
  rewrite Trim_id by apply Itoa_not_blank. rewrite Atoi_Itoa by done. by eexists.
Qed.

(** The theorem for a negative step count. *)
Lemma StepsTiming_is_valid_witness :
  validateTimingFunction (H := Samples.strconv) (StepsTiming (-12)) = true.
Proof.
  refine (proj2 (StepsTiming_is_valid (H := Samples.strconv) (-12) _)).
  unfold minInt, maxInt. lia.
Defined.

(** ** Keyframe names and key frames of [registerAnimation] *)

Lemma Atoi_unsigned (c : ascii) (r : string) (n : Z) :
  Ascii.eqb c "-" = false -> Ascii.eqb c "+" = false ->
  parseDigits (String c r) 0 = Some n ->
  (minInt <= n <= maxInt)%Z ->
  Atoi (String c r) = Some n.
Proof.
  intros Hm Hp Hparse Hrange. unfold Atoi. rewrite Hm, Hp, Hparse.
  assert ((minInt <=? n)%Z && (n <=? maxInt)%Z = true) as ->; [| done].
  apply andb_true_iff. split; apply Z.leb_le; lia.
Qed.

Lemma Atoi_negative (body : string) (n : Z) :
  body <> EmptyString ->
  parseDigits body 0 = Some n ->
  (minInt <= - n <= maxInt)%Z ->
  Atoi (String "-" body) = Some (- n)%Z.
Proof.
  intros Hne Hparse Hrange. unfold Atoi. rewrite Ascii.eqb_refl, Hparse.
  assert ((minInt <=? - n)%Z && (- n <=? maxInt)%Z = true) as ->.
  { apply andb_true_iff. split; apply Z.leb_le; lia. }
  by destruct body.
Qed.

Lemma zeros_numeral (k : nat) (p : positive) :
  let s := zeros k +:+ NilZero.string_of_uint (Pos.to_uint p) in
  parseDigits s 0 = Some (Z.pos p)
  /\ exists c r, s = String c r /\ Ascii.eqb c "-" = false /\ Ascii.eqb c "+" = false.
Proof.
  destruct (numeral_of_positive p) as (Hparse & _ & c & r & Hs & Hm & Hp).
  simpl in Hparse, Hs. simpl. split.
  - by rewrite parseDigits_zeros.
  - destruct k as [|k]; simpl zeros.
    + rewrite app_nil. by exists c, r.
    + rewrite app_cons. by eexists _, _.
Qed.

(** [Atoi] reads back what the verb [%06d] writes. *)
Lemma Atoi_Sprintf06d (n : Z) :
  (minInt <= n <= maxInt)%Z -> Atoi (Sprintf06d n) = Some n.
Proof.
  intros Hrange. unfold Sprintf06d. destruct n as [|p|p].
  - reflexivity.
  - change (Z.pos p <? 0)%Z with false. cbv iota. rewrite app_nil.
    change (N.to_uint (Z.abs_N (Z.pos p))) with (Pos.to_uint p).
    match goal with |- context [zeros ?k] => generalize k end. intros k.
    destruct (zeros_numeral k p) as (Hparse & c & r & Hs & Hm & Hp).
    simpl in Hparse, Hs. rewrite Hs in *. by apply Atoi_unsigned.
  - change (Z.neg p <? 0)%Z with true. cbv iota. rewrite app_cons, app_nil.
    change (N.to_uint (Z.abs_N (Z.neg p))) with (Pos.to_uint p).
    match goal with |- context [zeros ?k] => generalize k end. intros k.
    destruct (zeros_numeral k p) as (Hparse & c & r & Hs & Hm & Hp).
    simpl in Hparse, Hs.
    change (Z.neg p) with (- Z.pos p)%Z. apply Atoi_negative; [| done | lia].
    rewrite Hs. done.
Qed.

Lemma wrapInt_range (n : Z) : (minInt <= wrapInt n <= maxInt)%Z.
Proof.
  unfold wrapInt, minInt, maxInt.
  pose proof (Z.mod_pos_bound (n + 2 ^ 63) (2 ^ 64)) as Hb. lia.
Qed.

Lemma wrapInt_next (n : Z) : (minInt <= n <= maxInt)%Z -> wrapInt (n + 1) <> n.
Proof.
  unfold wrapInt, minInt, maxInt. intros Hrange Heq.
  pose proof (Z.div_mod (n + 1 + 2 ^ 63) (2 ^ 64)) as Hdm.
  change (2 ^ 64)%Z with 18446744073709551616%Z in *.
  change (2 ^ 63)%Z with 9223372036854775808%Z in *.
  lia.
Qed.

(** X2. The keyframe name that [registerAnimation] returns is "kf" followed
    by a numeral that [Atoi] reads back as the new value of the counter of
    the session, which is the old one plus one (on 64 bits); hence two
    registrations in a row give two different names. *)
Theorem registered_names_differ `{AnimationExt} {V} (props1 props2 : list AnimatedProperty)
    (w : World V) :
  let '(name1, w1) := registerAnimation props1 w in
  let '(name2, w2) := registerAnimation props2 w1 in
  (exists digits,
     name1 = "kf" +:+ digits /\ Atoi digits = Some (animationCounter (session w1)))
  /\ animationCounter (session w1) = wrapInt (animationCounter (session w) + 1)
  /\ self w1 = self w
  /\ name1 <> name2.
Proof.
  unfold registerAnimation. cbn [session animationCounter self].
  set (c1 := wrapInt (animationCounter (session w) + 1)).
  set (c2 := wrapInt (c1 + 1)).
  pose proof (wrapInt_range (animationCounter (session w) + 1)) as Hc1. fold c1 in Hc1.
  pose proof (wrapInt_range (c1 + 1)) as Hc2. fold c2 in Hc2.
  split_and!; [| done | done |].
  - exists (Sprintf06d c1). split; [done |]. by apply Atoi_Sprintf06d.
  - intros Heq. rewrite !(app_cons "k"), !(app_cons "f"), !app_nil in Heq.
    injection Heq as Heq.
    assert (Some c1 = Some c2) as Hsome.
    { rewrite <- (Atoi_Sprintf06d c1), <- (Atoi_Sprintf06d c2) by done. by rewrite Heq. }
    injection Hsome as Hc. symmetry in Hc. by apply (wrapInt_next c1).
Qed.

(** *** The list of key frames *)

Lemma ascending_cons (x : Z) (l : list Z) :
  ascending (x :: l) = true <-> (forall y, y ∈ l -> (x < y)%Z) /\ ascending l = true.
Proof.
  revert x. induction l as [|y l IH]; intros x.
  - simpl. split; [| done]. intros _. split; [| done]. intros y Hy. by apply elem_of_nil in Hy.
  - change (ascending (x :: y :: l)) with ((x <? y)%Z && ascending (y :: l)).
    rewrite andb_true_iff, Z.ltb_lt. split.
    + intros [Hxy Hl]. split; [| done]. intros z Hz.
      apply elem_of_cons in Hz as [-> | Hz]; [done |].
      apply IH in Hl as [Hy _]. specialize (Hy z Hz). lia.
    + intros [Hall Hl]. split; [| done]. apply Hall. apply elem_of_cons. by left.
Qed.

Lemma insertFrame_elem (frames : list Z) (frame x : Z) :
  x ∈ insertFrame frames frame -> x = frame \/ x ∈ frames.
Proof.
  induction frames as [|n rest IH]; simpl.
  - intros Hx. apply list_elem_of_singleton in Hx. by left.
  - destruct (Z.eqb_spec n frame) as [-> | Hne]; [by right |].
    destruct (Z.ltb_spec frame n) as [Hlt | Hge]; intros Hx.
    + apply elem_of_cons in Hx as [-> | Hx]; [by left |].
      right. apply elem_of_cons. by right.
    + apply elem_of_cons in Hx as [-> | Hx].
      * right. apply elem_of_cons. by left.
      * destruct (IH Hx) as [-> | Hin]; [by left |]. right. apply elem_of_cons. by right.
Qed.

Lemma insertFrame_has (frames : list Z) (frame : Z) : frame ∈ insertFrame frames frame.
Proof.
  induction frames as [|n rest IH]; simpl.
  - by apply list_elem_of_singleton.
  - destruct (Z.eqb_spec n frame) as [-> | Hne]; [apply elem_of_cons; by left |].
    destruct (Z.ltb_spec frame n); apply elem_of_cons; [by left | by right].
Qed.

Lemma insertFrame_ascending (frames : list Z) (frame : Z) :
  ascending frames = true -> ascending (insertFrame frames frame) = true.
Proof.
  induction frames as [|n rest IH]; [done |].
  intros Hasc. pose proof Hasc as Hasc'. apply ascending_cons in Hasc' as [Hall Hrest].
  simpl insertFrame.
  destruct (Z.eqb_spec n frame) as [-> | Hne]; [done |].
  destruct (Z.ltb_spec frame n) as [Hlt | Hge]; apply ascending_cons.
  - split; [| done]. intros y Hy. specialize (Hall y Hy). lia.
  - split; [| by apply IH]. intros y Hy.
    destruct (insertFrame_elem _ _ _ Hy) as [-> | Hin]; [lia | by apply Hall].
Qed.

Lemma insertFrame_length (frames : list Z) (frame : Z) :
  (length (insertFrame frames frame) <= S (length frames))%nat.
Proof.
  induction frames as [|n rest IH]; simpl; [lia |].
  destruct (n =? frame)%Z; [simpl; lia |]. destruct (frame <? n)%Z; simpl; lia.
Qed.

Lemma insertFrame_last (frames : list Z) (frame : Z) :
  (forall y, y ∈ frames -> (y < frame)%Z) ->
  insertFrame frames frame = frames ++ [frame].
Proof.
  induction frames as [|n rest IH]; [done |]. intros Hall. simpl.
  assert (n < frame)%Z as Hn by (apply Hall; apply elem_of_cons; by left).
  destruct (Z.eqb_spec n frame); [lia |]. destruct (Z.ltb_spec frame n); [lia |].
  rewrite IH; [done |]. intros y Hy. apply Hall. apply elem_of_cons. by right.
Qed.

Lemma fold_insertFrame (visited frames : list Z) :
  ascending frames = true ->
  let result := fold_left insertFrame visited frames in
  ascending result = true
  /\ (forall x, x ∈ result -> x ∈ frames \/ x ∈ visited)
  /\ (length result <= length frames + length visited)%nat
  /\ (forall pre frame, visited = pre ++ [frame] -> frame ∈ result).
Proof.
  revert frames. induction visited as [|f rest IH]; intros frames Hasc; simpl.
  - split_and!; [done | by left | lia |]. intros pre frame Hnil. by destruct pre.
  - destruct (IH (insertFrame frames f) (insertFrame_ascending _ _ Hasc))
      as (Hsorted & Hsub & Hlen & Hlast).
    split_and!; [done | | |].
    + intros x Hx. destruct (Hsub x Hx) as [Hin | Hin].
      * destruct (insertFrame_elem _ _ _ Hin) as [-> | Hin']; [| by left].
        right. apply elem_of_cons. by left.
      * right. apply elem_of_cons. by right.
    + pose proof (insertFrame_length frames f). lia.
    + intros pre frame Hpre. destruct pre as [|f' pre].
      * simpl in Hpre. injection Hpre as Hf Hrest. subst. simpl. apply insertFrame_has.
      * simpl in Hpre. injection Hpre as Hf Hrest. subst. by apply (Hlast pre).
Qed.

Lemma fold_insertFrame_ascending (visited frames : list Z) :
  ascending (frames ++ visited) = true ->
  fold_left insertFrame visited frames = frames ++ visited.
Proof.
  revert frames. induction visited as [|f rest IH]; intros frames Hasc; simpl.
  - by rewrite app_nil_r.
  - assert (insertFrame frames f = frames ++ [f]) as ->.
    { apply insertFrame_last. clear IH. induction frames as [|n frames IHf].
      - intros y Hy. by apply elem_of_nil in Hy.
      - change ((n :: frames) ++ f :: rest) with (n :: (frames ++ f :: rest)) in Hasc.
        apply ascending_cons in Hasc as [Hall Hrest]. intros y Hy.
        apply elem_of_cons in Hy as [-> | Hy]; [| by apply IHf].
        apply Hall. apply elem_of_app. right. apply elem_of_cons. by left. }
    rewrite IH; rewrite <- app_assoc; done.
Qed.

(** X3. Whatever the order in which the key frames are visited, the list
    of frames that [registerAnimation] builds is strictly ascending, holds
    visited frames only, never more than were visited, and always the frame
    visited last; when the frames are visited in ascending order the list is
    exactly the frames visited. *)
Theorem frames_are_ascending (visited : list Z) :
  ascending (collectFrames visited) = true
  /\ (forall frame, frame ∈ collectFrames visited -> frame ∈ visited)
  /\ (length (collectFrames visited) <= length visited)%nat
  /\ (forall pre frame, visited = pre ++ [frame] -> frame ∈ collectFrames visited)
  /\ (ascending visited = true -> collectFrames visited = visited).
Proof.
  unfold collectFrames.
  destruct (fold_insertFrame visited [] eq_refl) as (Hsorted & Hsub & Hlen & Hlast).
  split_and!; [done | | done | done |].
  - intros frame Hin. destruct (Hsub frame Hin) as [Hnil | Hv]; [| done].
    by apply elem_of_nil in Hnil.
  - intros Hasc. by apply (fold_insertFrame_ascending visited []).
Qed.

(** X4. A round of the loop for a frame that is not yet in the ascending
    list and is smaller than one of its elements does not insert: it writes
    the frame over the smallest element that is larger. The list keeps its
    length and every other element, and that element is lost. *)
Theorem frame_is_overwritten (frames : list Z) (frame n : Z)
    (Hascending : ascending frames = true)
    (Hnew : frame ∉ frames)
    (Hn : n ∈ frames)
    (Hlarger : (frame < n)%Z)
    (Hsmallest : forall m, m ∈ frames -> (frame < m)%Z -> (n <= m)%Z) :
  (n ∉ insertFrame frames frame)
  /\ frame ∈ insertFrame frames frame
  /\ length (insertFrame frames frame) = length frames
  /\ (forall m, m ∈ frames -> m <> n -> m ∈ insertFrame frames frame).
Proof.
  split_and!; [| apply insertFrame_has | |].
  - revert Hascending Hnew Hn Hsmallest.
    induction frames as [|x rest IH]; intros Hasc Hnew Hn Hsmall.
    { by apply elem_of_nil in Hn. }
    apply ascending_cons in Hasc as [Hall Hrest]. simpl.
    destruct (Z.eqb_spec x frame) as [-> | Hne].
    { destruct Hnew. apply elem_of_cons. by left. }
    destruct (Z.ltb_spec frame x) as [Hlt | Hge].
    + assert (n = x) as ->.
      { apply elem_of_cons in Hn as [-> | Hn]; [done |].
        specialize (Hall n Hn).
        assert (n <= x)%Z by (apply Hsmall; [apply elem_of_cons; by left | done]). lia. }
      intros Hin. apply elem_of_cons in Hin as [-> | Hin]; [lia |].
      specialize (Hall x Hin). lia.
    + assert (n ∈ rest) as Hn'.
      { apply elem_of_cons in Hn as [-> | Hn]; [lia | done]. }
      intros Hin. apply elem_of_cons in Hin as [-> | Hin]; [lia |].
      revert Hin. apply IH; [done | | done |].
      * intros Hf. apply Hnew. apply elem_of_cons. by right.
      * intros m Hm. apply Hsmall. apply elem_of_cons. by right.
  - clear Hascending Hsmallest. revert Hnew Hn.
    induction frames as [|x rest IH]; intros Hnew Hn.
    { by apply elem_of_nil in Hn. }
    simpl. destruct (Z.eqb_spec x frame) as [-> | Hne]; [done |].
    destruct (Z.ltb_spec frame x) as [Hlt | Hge]; [done |]. simpl. f_equal.
    apply IH.
    + intros Hf. apply Hnew. apply elem_of_cons. by right.
    + apply elem_of_cons in Hn as [-> | Hn]; [lia | done].
  - revert Hascending Hnew Hn Hsmallest.
    induction frames as [|x rest IH]; intros Hasc Hnew Hn Hsmall m Hm Hmn.
    { by apply elem_of_nil in Hm. }
    apply ascending_cons in Hasc as [Hall Hrest]. simpl.
    destruct (Z.eqb_spec x frame) as [-> | Hne]; [done |].
    destruct (Z.ltb_spec frame x) as [Hlt | Hge].
    + assert (n = x) as ->.
      { apply elem_of_cons in Hn as [-> | Hn]; [done |].
        specialize (Hall n Hn).
        assert (n <= x)%Z by (apply Hsmall; [apply elem_of_cons; by left | done]). lia. }
      apply elem_of_cons in Hm as [-> | Hm]; [done |]. apply elem_of_cons. by right.
    + apply elem_of_cons in Hm as [-> | Hm]; [apply elem_of_cons; by left |].
      apply elem_of_cons. right. apply IH; try done.
      * intros Hf. apply Hnew. apply elem_of_cons. by right.
      * apply elem_of_cons in Hn as [-> | Hn]; [lia | done].
      * intros k Hk. apply Hsmall. apply elem_of_cons. by right.
Qed.

(** The theorem for the key frames 10 and 50 when 20 comes next: the list
    becomes 10, 20 and the key frame 50 is gone. *)
Lemma frame_is_overwritten_witness :
  insertFrame [10; 50]%Z 20%Z = [10; 20]%Z
  /\ (50%Z ∉ insertFrame [10; 50]%Z 20%Z).
Proof.
  split; [reflexivity |].
  refine (proj1 (frame_is_overwritten [10; 50]%Z 20%Z 50%Z _ _ _ _ _)).
  - reflexivity.
  - intros Hin. apply elem_of_cons in Hin as [Heq | Hin]; [discriminate |].
    apply elem_of_cons in Hin as [Heq | Hin]; [discriminate |].
    by apply elem_of_nil in Hin.
  - apply elem_of_cons. right. apply elem_of_cons. by left.
  - lia.
  - intros m Hm Hlt. apply elem_of_cons in Hm as [-> | Hm]; [lia |].
    apply elem_of_cons in Hm as [-> | Hm]; [lia |].
    by apply elem_of_nil in Hm.
Defined.

(** ** The properties of an animation *)












(** *** The identifier *)

Lemma TrimRight_idempotent (s cutset : string) :
  TrimRight (TrimRight s cutset) cutset = TrimRight s cutset.
Proof.
  induction s as [|c r IH]; [done |]. simpl.
  destruct (TrimRight r cutset) as [|a t] eqn:Ht.
  - destruct (inCutset cutset c) eqn:Hc; [done |]. simpl. by rewrite Hc.
  - simpl in *. by rewrite IH.
Qed.

Lemma TrimLeft_head (s cutset : string) (c : ascii) (r : string) :
  TrimLeft s cutset = String c r -> inCutset cutset c = false.
Proof.
  induction s as [|a t IH]; simpl; [done |].
  destruct (inCutset cutset a) eqn:Ha; [done |]. by intros [= <- <-].
Qed.

Lemma TrimRight_head (c : ascii) (r cutset : string) :
  inCutset cutset c = false -> exists r', TrimRight (String c r) cutset = String c r'.
Proof.
  intros Hc. simpl. destruct (TrimRight r cutset); rewrite ?Hc; by eexists.
Qed.

Lemma Trim_idempotent (s cutset : string) :
  Trim (Trim s cutset) cutset = Trim s cutset.
Proof.
  unfold Trim. destruct (TrimLeft s cutset) as [|c r] eqn:Hl; [done |].
  pose proof (TrimLeft_head _ _ _ _ Hl) as Hc.
  destruct (TrimRight_head c r cutset Hc) as (r' & Hr).
  rewrite Hr. simpl TrimLeft. rewrite Hc. rewrite <- Hr. apply TrimRight_idempotent.
Qed.

Lemma Get_store (animation : animationData) (tag : string) (v : value) (other : string) :
  animationData_normalizeTag tag = tag ->
  animationData_Get (withAnimationProperties (setProperty tag v) animation) other =
    if String.eqb (animationData_normalizeTag other) tag then v
    else animationData_Get animation other.
Proof.
  intros Htag. unfold animationData_Get, getRaw. simpl.
  destruct (String.eqb_spec (animationData_normalizeTag other) tag) as [-> | Hne].
  - by rewrite lookup_insert_eq.
  - by rewrite lookup_insert_ne.
Qed.

Lemma Get_delete (animation : animationData) (tag other : string) :
  animationData_Get (withAnimationProperties (deleteProperty tag) animation) other =
    if String.eqb (animationData_normalizeTag other) tag then VNil
    else animationData_Get animation other.
Proof.
  unfold animationData_Get, getRaw. simpl.
  destruct (String.eqb_spec (animationData_normalizeTag other) tag) as [-> | Hne].
  - by rewrite lookup_delete_eq.
  - by rewrite lookup_delete_ne.
Qed.

(** X6. Setting the identifier of an animation to a text always succeeds
    and is silent; [Get] then gives the text without the blanks, tabs, line
    feeds and carriage returns at its two ends, and nil when nothing is
    left; every other property, asked for under a tag written in ASCII,
    reads as before. An identifier read from an animation after such a call
    is never empty and has no such character at either end. *)
Theorem animation_id_round_trip `{AnimationExt} (tag text : string)
    (w : World animationData)
    (Htag : animationData_normalizeTag tag = ID) :
  let '(ok, w') := animationData_Set tag (VString text) w in
  ok = true
  /\ session w' = session w
  /\ trace w' = trace w
  /\ keyFramesName (self w') = keyFramesName (self w)
  /\ animationData_Get (self w') tag =
       (if String.eqb (Trim text blanksCR) EmptyString then VNil
        else VString (Trim text blanksCR))
  /\ heap w' = heap w
  /\ (forall other, isASCII other = true -> animationData_normalizeTag other <> ID ->
        animationData_Get (self w') other = animationData_Get (self w) other)
  /\ (forall id, animationData_Get (self w') ID = VString id ->
        id <> EmptyString /\ Trim id blanksCR = id).
Proof.
  unfold animationData_Set. rewrite Htag. simpl isNil. cbv iota.
  change (String.eqb ID ID) with true. cbv iota.
  destruct (String.eqb_spec (Trim text blanksCR) EmptyString) as [He | Hne].
  - cbv [bind update modify ret withSelf animationData_store]. cbn [self session trace heap].
    split_and!; try done; cbn [self session trace heap].
    + rewrite Get_delete, Htag. reflexivity.
    + intros other _ Hother. rewrite Get_delete.
      by destruct (String.eqb_spec (animationData_normalizeTag other) ID).
    + intros id. rewrite Get_delete. by change (animationData_normalizeTag ID) with ID.
  - cbv [bind update modify ret withSelf animationData_store]. cbn [self session trace heap].
    split_and!; try done; cbn [self session trace heap].
    + rewrite Get_store, Htag by done. reflexivity.
    + intros other _ Hother. rewrite Get_store by done.
      by destruct (String.eqb_spec (animationData_normalizeTag other) ID).
    + intros id. rewrite Get_store by done.
      change (animationData_normalizeTag ID) with ID. change (String.eqb ID ID) with true.
      cbv iota. intros [= <-]. split; [done |]. apply Trim_idempotent.
Qed.

(** The theorem for the tag "ID" and a text with blanks around it. *)
Lemma animation_id_round_trip_witness :
  animationData_Get
    (self (snd (animationData_Set (H := Samples.animationExt) "ID" (VString "  fade in ")
                  (Samples.world0 Samples.animation0))))
    "ID" = VString "fade in".
Proof.
  pose proof (animation_id_round_trip (H := Samples.animationExt) "ID" "  fade in "
                (Samples.world0 Samples.animation0) eq_refl) as Hrt.
  destruct (animationData_Set _ _ _) as [ok w'].
  destruct Hrt as (_ & _ & _ & _ & Hget & _). exact Hget.
Defined.


(** *** Parsing *)

Lemma logsOnly_refl {V} (w : World V) : logsOnly w w.
Proof. split_and!; [done | done |]. exists []. by rewrite app_nil_r. Qed.

Lemma logsOnly_heap {V} (w : World V) (maps : keyFrameMaps) :
  logsOnly w (mkWorld (self w) (session w) (trace w) maps).
Proof. split_and!; [done | done |]. exists []. by rewrite app_nil_r. Qed.

Lemma logsOnly_trans {V} (w1 w2 w3 : World V) :
  logsOnly w1 w2 -> logsOnly w2 w3 -> logsOnly w1 w3.
Proof.
  intros (Hs1 & Hn1 & log1 & Ht1) (Hs2 & Hn2 & log2 & Ht2).
  split_and!; [congruence | congruence |].
  exists (log1 ++ log2). by rewrite Ht2, Ht1, app_assoc.
Qed.

Lemma parsing_node {V} (base : keyFrameMaps) (result : AnimatedProperty) (node : DataNode)
    (w : World V) :
  parsing base (heap w) result ->
  let '(r', w') := parseObjectNode result node w in
  parsing base (heap w') r' /\ logsOnly w w'.
Proof.
  intros Hparsing. pose proof Hparsing as (Hbase & Hnew & Htag & Hfrom & Hto & Hframes).
  unfold parseObjectNode.
  destruct node as [nodeTag text | |].
  2:{ cbv beta iota delta [ret]; split; [done | apply logsOnly_refl]. }
  2:{ cbv beta iota delta [ret]; split; [done | apply logsOnly_refl]. }
  cbv zeta.
  destruct (bool_decide (ToLower nodeTag ∈ ["from"; "0"; "0%"])).
  { cbv beta iota delta [ret]. split; [| apply logsOnly_refl].
    unfold parsing, parsedShape. split_and!; try done. right. by eexists. }
  destruct (bool_decide (ToLower nodeTag ∈ ["to"; "100"; "100%"])).
  { cbv beta iota delta [ret]. split; [| apply logsOnly_refl].
    unfold parsing, parsedShape. split_and!; try done. right. by eexists. }
  match goal with |- context [Atoi ?s] => destruct (Atoi s) as [n |] eqn:Hn end.
  2:{ cbv beta iota delta [bind emit ret]. cbn [heap].
      split; [done |]. split_and!; [done | done | by eexists]. }
  destruct (Z.ltb_spec n 0) as [Hneg | Hpos].
  { cbv beta iota delta [bind emit ret orb]. cbn [heap].
    split; [done |]. split_and!; [done | done | by eexists]. }
  destruct (Z.ltb_spec 100 n) as [Hbig | Hsmall].
  { cbv beta iota delta [bind emit ret orb]. cbn [heap].
    split; [done |]. split_and!; [done | done | by eexists]. }
  cbn [orb]. destruct (KeyFrames result) as [r |] eqn:Hr.
  - (* the map of the result gets one more key frame *)
    destruct (Hframes r Hr) as (frames & Hmap & Hrange).
    cbv beta iota delta [bind setKeyFrame modify withHeap ret]. cbn [heap self session trace].
    split; [| apply logsOnly_heap].
    unfold parsing, parsedShape, framesInRange.
    split_and!; try done.
    + intros r0 frames0 H0. rewrite lookup_alter_ne; [by apply Hbase |].
      intros <-. rewrite (Hnew r eq_refl) in H0. discriminate.
    + intros r0. rewrite Hr. intros [= <-]. by apply Hnew.
    + intros r0. rewrite Hr. intros [= <-]. exists (<[n := VString text]> frames).
      split; [by rewrite lookup_alter_eq, Hmap |].
      intros k v. destruct (decide (k = n)) as [-> | Hne].
      * rewrite lookup_insert_eq. intros [= <-]. split; [lia | by eexists].
      * rewrite lookup_insert_ne by done. apply Hrange.
  - (* a new map *)
    cbv beta iota zeta delta [bind newKeyFrames withHeap ret]. cbn [heap self session trace].
    split; [| apply logsOnly_heap].
    pose proof (is_fresh (dom (heap w))) as Hfresh.
    apply not_elem_of_dom in Hfresh.
    set (r := fresh (dom (heap w))) in *.
    unfold parsing, parsedShape, framesInRange. cbn [Tag From To KeyFrames].
    split_and!; try done.
    + intros r0 frames0 H0. rewrite lookup_insert_ne; [by apply Hbase |].
      intros <-. apply Hbase in H0. congruence.
    + intros r0 [= <-]. destruct (base !! r) as [frames0 |] eqn:H0; [| done].
      apply Hbase in H0. congruence.
    + intros r0 [= <-]. exists {[ n := VString text ]}.
      split; [by rewrite lookup_insert_eq |].
      intros k v. destruct (decide (k = n)) as [-> | Hne].
      * rewrite lookup_singleton_eq. intros [= <-]. split; [lia | by eexists].
      * by rewrite lookup_singleton_ne.
Qed.

Lemma parsing_loop {V} (base : keyFrameMaps) (nodes : list DataNode)
    (result : AnimatedProperty) (w : World V) :
  parsing base (heap w) result ->
  let '(r', w') := parseObjectLoop nodes result w in
  parsing base (heap w') r' /\ logsOnly w w'.
Proof.
  revert result w. induction nodes as [|node rest IH]; intros result w Hparsing.
  - cbv beta iota delta [parseObjectLoop ret]. split; [done | apply logsOnly_refl].
  - cbn [parseObjectLoop]. unfold bind.
    pose proof (parsing_node base result node w Hparsing) as Hnode.
    destruct (parseObjectNode result node w) as [r1 w1]. destruct Hnode as [Hp1 Hl1].
    specialize (IH r1 w1 Hp1). destruct (parseObjectLoop rest r1 w1) as [r2 w2].
    destruct IH as [Hp2 Hl2]. split; [done | by eapply logsOnly_trans].
Qed.

(** What the closure [parseObject] does. *)
Lemma parseObject_spec {V} (obj : DataObject) (w : World V) :
  let '(result, w') := parseObject obj w in
  parsing (heap w) (heap w') (fst result)
  /\ logsOnly w w'
  /\ (snd result = true <-> complete (fst result)).
Proof.
  destruct obj as [objTag nodes]. unfold parseObject, bind, ret.
  assert (parsing (heap w) (heap w) (mkAnimatedProperty EmptyString VNil VNil None)) as H0.
  { split; [done |]. split; [done |]. split; [done |]. split; [by left |].
    split; [by left |]. intros r Hr. discriminate. }
  pose proof (parsing_loop (heap w) nodes _ w H0) as Hloop.
  destruct (parseObjectLoop nodes _ w) as [r w1]. destruct Hloop as [Hp Hl].
  cbn [fst snd]. split; [done |]. split; [done |].
  unfold complete. by rewrite andb_true_iff, !negb_true_iff.
Qed.

Lemma framesInRange_mono (maps maps' : keyFrameMaps) (p : AnimatedProperty) :
  (forall r frames, maps !! r = Some frames -> maps' !! r = Some frames) ->
  framesInRange maps p -> framesInRange maps' p.
Proof.
  intros Hsub Hp r Hr. destruct (Hp r Hr) as (frames & Hmap & Hrange).
  exists frames. split; [by apply Hsub | done].
Qed.

Lemma parsedShape_mono (maps maps' : keyFrameMaps) (p : AnimatedProperty) :
  (forall r frames, maps !! r = Some frames -> maps' !! r = Some frames) ->
  parsedShape maps p -> parsedShape maps' p.
Proof.
  intros Hsub (Htag & Hfrom & Hto & Hframes). split_and!; try done.
  by eapply framesInRange_mono.
Qed.

(** X7. The animated property that [Set] parses from an object node has
    an empty tag (no step of the parser sets it), ends that are texts or
    absent, and key frames between 0 and 100 that hold texts; the parser
    reports success exactly when both ends are there. It changes neither
    the receiver nor the session, and may write to the log; the key frames
    are in a new map, and no map that was there before is touched. *)
Theorem parsed_property_shape {V} (obj : DataObject) (w : World V) :
  let '(result, w') := parseObject obj w in
  let '(property, ok) := result in
  Tag property = EmptyString
  /\ textOrNil (From property)
  /\ textOrNil (To property)
  /\ framesInRange (heap w') property
  /\ (ok = true <-> complete property)
  /\ self w' = self w
  /\ session w' = session w
  /\ (exists log, trace w' = trace w ++ log)
  /\ (forall r frames, heap w !! r = Some frames -> heap w' !! r = Some frames)
  /\ (forall r, KeyFrames property = Some r -> heap w !! r = None).
Proof.
  pose proof (parseObject_spec obj w) as Hspec.
  destruct (parseObject obj w) as [[property ok] w'].
  destruct Hspec as ((Hbase & Hnew & Htag & Hfrom & Hto & Hframes)
                     & (Hself & Hsession & Hlog) & Hok).
  by split_and!.
Qed.

Lemma parseArrayElements_spec {V} (tag : string) (elems : list DataValue)
    (props : list AnimatedProperty) (w : World V) :
  Forall (fun p => parsedShape (heap w) p /\ complete p) props ->
  let '(props', w') := parseArrayElements tag elems props w in
  Forall (fun p => parsedShape (heap w') p /\ complete p) props'
  /\ logsOnly w w'
  /\ (forall r frames, heap w !! r = Some frames -> heap w' !! r = Some frames).
Proof.
  revert props w. induction elems as [|val rest IH]; intros props w Hprops.
  - cbv beta iota delta [parseArrayElements ret].
    split_and!; [done | apply logsOnly_refl | done].
  - cbn [parseArrayElements]. destruct val as [text | obj]; unfold bind.
    + cbv beta iota delta [emit].
      specialize (IH props (mkWorld (self w) (session w)
                              (trace w ++ [notCompatibleType tag (VDataValue (TextValue text))])
                              (heap w)) Hprops).
      destruct (parseArrayElements tag rest props _) as [props' w'].
      destruct IH as (Hall & Hlogs & Hsub). split_and!; [done | | done].
      eapply logsOnly_trans; [| exact Hlogs]. split_and!; [done | done | by eexists].
    + pose proof (parseObject_spec obj w) as Hobj.
      destruct (parseObject obj w) as [[prop ok] w1].
      destruct Hobj as ((Hbase & Hnew & Hshape) & Hlogs1 & Hok). cbn [fst snd] in *.
      assert (Forall (fun p => parsedShape (heap w1) p /\ complete p)
                (if ok then props ++ [prop] else props)) as Hnext.
      { assert (Forall (fun p => parsedShape (heap w1) p /\ complete p) props) as Hold.
        { eapply Forall_impl; [exact Hprops |]. intros p [Hp Hc].
          split; [by eapply parsedShape_mono | done]. }
        destruct ok; [| done]. apply Forall_app. split; [done |].
        apply Forall_cons_2; [| done]. split; [done | by apply Hok]. }
      specialize (IH _ w1 Hnext).
      destruct (parseArrayElements tag rest _ w1) as [props' w'].
      destruct IH as (Hall & Hlogs & Hsub). split_and!; [done | | by auto].
      by eapply logsOnly_trans.
Qed.

(** *** The maps of key frames after [Set] *)

Lemma endsTaken_extends (touched : list mapRef) (before after : keyFrameMaps) :
  (forall r frames, before !! r = Some frames -> after !! r = Some frames) ->
  endsTaken touched before after.
Proof. intros Hsub r frames Hr. exists frames. split_and!; by auto. Qed.

Lemma endsTaken_trans (t1 t2 : list mapRef) (a b c : keyFrameMaps) :
  endsTaken t1 a b -> endsTaken t2 b c -> endsTaken (t1 ++ t2) a c.
Proof.
  intros Hab Hbc r frames Hr.
  destruct (Hab r frames Hr) as (frames1 & Hb & Hout1 & Hin1 & Hsub1).
  destruct (Hbc r frames1 Hb) as (frames2 & Hc & Hout2 & Hin2 & Hsub2).
  exists frames2. split_and!; [done | | |].
  - intros Hnot. rewrite Hout2, Hout1; [done | |];
      intros Hin; apply Hnot, elem_of_app; by auto.
  - intros k H0 H100. by rewrite Hin2, Hin1.
  - intros k v Hk. by apply Hsub1, Hsub2.
Qed.

Lemma withoutEnds_spec (p : AnimatedProperty) (frames : gmap Z value) :
  (forall k, k <> 0%Z -> k <> 100%Z -> withoutEnds p frames !! k = frames !! k)
  /\ (forall k v, withoutEnds p frames !! k = Some v -> frames !! k = Some v).
Proof.
  unfold withoutEnds. split.
  - intros k H0 H100. destruct (isNil (From p)), (isNil (To p));
      by rewrite ?lookup_delete_ne.
  - intros k v. destruct (isNil (From p)), (isNil (To p)); try done.
    + intros [_ [_ Hk]%lookup_delete_Some]%lookup_delete_Some. done.
    + intros [_ Hk]%lookup_delete_Some. done.
    + intros [_ Hk]%lookup_delete_Some. done.
Qed.

Lemma endsTaken_promoted (maps : keyFrameMaps) (p : AnimatedProperty) :
  endsTaken (option_list (KeyFrames p)) maps (promotedMaps maps p).
Proof.
  unfold promotedMaps. destruct (KeyFrames p) as [r0 |]; [| by apply endsTaken_extends].
  intros r frames Hr. destruct (decide (r = r0)) as [-> | Hne].
  - exists (withoutEnds p frames). rewrite lookup_alter_eq, Hr.
    destruct (withoutEnds_spec p frames) as [Hin Hsub].
    split_and!; [done | | done | done].
    intros Hnot. destruct Hnot. simpl. apply list_elem_of_here.
  - exists frames. rewrite lookup_alter_ne by done. by split_and!.
Qed.

Lemma endsTaken_promotedList (maps : keyFrameMaps) (l : list AnimatedProperty) :
  endsTaken (omap KeyFrames l) maps (promotedMapsList maps l).
Proof.
  revert maps. induction l as [|p l IH]; intros maps.
  - by apply endsTaken_extends.
  - replace (omap KeyFrames (p :: l)) with (option_list (KeyFrames p) ++ omap KeyFrames l)
      by (simpl; by destruct (KeyFrames p)).
    eapply endsTaken_trans; [apply endsTaken_promoted | apply IH].
Qed.

Lemma normalizedList_complete (maps : keyFrameMaps) (l : list AnimatedProperty) :
  Forall complete (keptProperties maps l).
Proof.
  unfold keptProperties. revert maps. induction l as [|p l IH]; intros maps; simpl; [done |].
  destruct (resolvable (normalized maps p)) eqn:Hp; [| by apply IH].
  apply Forall_cons_2; [| by apply IH].
  unfold resolvable in Hp. apply andb_true_iff in Hp as [HF HT].
  apply negb_true_iff in HF, HT. by split.
Qed.

(** Close a goal that says that a trace extends another one. *)
Ltac extends :=
  first [ by eexists
        | exists []; by rewrite app_nil_r
        | eexists; by rewrite <- ?app_assoc ].

(** What the case "property" of [Set] does to the animation. *)
Lemma setProperty_shape (tag : string) (value : value) (w : World animationData) :
  let '(ok, w') := animationData_setProperty tag value w in
  session w' = session w
  /\ (exists log, trace w' = trace w ++ log)
  /\ endsTaken (keyFrameRefs value) (heap w) (heap w')
  /\ (ok = false -> self w' = self w)
  /\ (ok = true -> exists props,
        self w' = withAnimationProperties (setProperty tag (VAnimatedProperties props))
                    (self w)
        /\ props <> [] /\ Forall complete props).
Proof.
  unfold animationData_setProperty.
  destruct value;
    try (cbv beta iota delta [bind emit ret]; cbn [self session trace heap];
         split_and!; [done | extends | by apply endsTaken_extends | done | done]).
  - (* one property *)
    rewrite bind_assoc. unfold bind at 1. rewrite promotions_run.
    pose proof (endsTaken_promoted (heap w) p) as Hends.
    destruct (isNil (From (normalized (heap w) p))) eqn:HF.
    { cbv beta iota delta [bind emit ret]. cbn [self session trace heap].
      split_and!; [done | extends | done | done | done]. }
    destruct (isNil (To (normalized (heap w) p))) eqn:HT.
    { cbv beta iota delta [bind emit ret]. cbn [self session trace heap].
      split_and!; [done | extends | done | done | done]. }
    cbv beta iota delta [bind animationData_store update modify withSelf ret].
    cbn [self session trace heap].
    split_and!; [done | extends | done | done |].
    intros _. eexists. split_and!; [reflexivity | done |].
    apply Forall_cons_2; [by split | done].
  - (* a list of properties *)
    unfold bind. rewrite keepAnimatedProperties_spec. cbn [app].
    pose proof (normalizedList_complete (heap w) l) as Hall.
    pose proof (endsTaken_promotedList (heap w) l) as Hends.
    destruct (keptProperties (heap w) l) as [|q kept].
    + cbv beta iota delta [bind emit ret]. cbn [self session trace heap length Nat.ltb Nat.leb].
      split_and!; [done | extends | done | done | done].
    + cbv beta iota delta [bind animationData_store update modify withSelf ret].
      cbn [self session trace heap length Nat.ltb Nat.leb].
      split_and!; [done | extends | done | done |].
      intros _. eexists. split_and!; [reflexivity | done | done].
  - (* a data node *)
    destruct n as [nodeTag text | nodeTag obj | nodeTag elems].
    + cbv beta iota delta [bind emit ret]. cbn [self session trace heap].
      split_and!; [done | extends | by apply endsTaken_extends | done | done].
    + unfold bind. pose proof (parseObject_spec obj w) as Hobj.
      destruct (parseObject obj w) as [[prop ok] w1].
      destruct Hobj as ((Hbase & _) & (Hself & Hsession & Hlog) & Hok). cbn [fst snd] in *.
      destruct ok.
      * cbv beta iota delta [bind animationData_store update modify withSelf ret].
        cbn [self session trace heap].
        split_and!; [done | done | by apply endsTaken_extends | done |].
        intros _. eexists. rewrite Hself. split_and!; [reflexivity | done |].
        apply Forall_cons_2; [by apply Hok | done].
      * cbv beta iota delta [ret]. 
        split_and!; [done | done | by apply endsTaken_extends | done | done].
    + unfold bind.
      pose proof (parseArrayElements_spec tag elems [] w (Forall_nil_2 _)) as Harr.
      destruct (parseArrayElements tag elems [] w) as [props w1].
      destruct Harr as (Hall & (Hself & Hsession & Hlog) & Hsub).
      destruct props as [|q props].
      * cbv beta iota delta [ret]. cbn [length Nat.ltb Nat.leb].
        split_and!; [done | done | by apply endsTaken_extends | done | done].
      * cbv beta iota delta [bind animationData_store update modify withSelf ret].
        cbn [self session trace heap length Nat.ltb Nat.leb].
        split_and!; [done | done | by apply endsTaken_extends | done |].
        intros _. eexists. rewrite Hself. split_and!; [reflexivity | done |].
        eapply Forall_impl; [exact Hall |]. by intros p [_ Hc].
Qed.

(** X8. Whatever the form of the value (one animated property, a list of
    them, a data node), when [Set] of the tag "property" succeeds the
    animation holds a list of animated properties that is not empty and
    whose entries all have both ends, so that [hasAnimatedPropery] holds
    without a line in the log; when it fails the animation holds what it
    held. The session is never touched. Of the maps of key frames, those
    that the value does not refer to are as before, and one that it refers
    to has lost at most its key frames at 0 and at 100, also when [Set]
    fails: a property that the animation already holds with such a map
    loses these key frames with it. *)
Theorem stored_properties_are_complete `{AnimationExt} (tag : string) (value : value)
    (w : World animationData)
    (Htag : animationData_normalizeTag tag = PropertyTag)
    (Hvalue : isNil value = false) :
  let '(ok, w') := animationData_Set tag value w in
  session w' = session w
  /\ endsTaken (keyFrameRefs value) (heap w) (heap w')
  /\ (ok = false -> self w' = self w)
  /\ (ok = true ->
      (exists props,
         animationData_Get (self w') tag = VAnimatedProperties props
         /\ props <> [] /\ Forall complete props)
      /\ animationData_hasAnimatedPropery w' = (true, w')).
Proof.
  rewrite Set_property_tag by done.
  pose proof (setProperty_shape PropertyTag value w) as Hshape.
  destruct (animationData_setProperty PropertyTag value w) as [ok w'].
  destruct Hshape as (Hsession & _ & Hends & Hfalse & Htrue).
  split_and!; [done | done | done |].
  intros Hok. destruct (Htrue Hok) as (props & Hself & Hne & Hall).
  assert (getRaw (animationProperties (self w')) PropertyTag = VAnimatedProperties props)
    as Hraw.
  { rewrite Hself. unfold getRaw. simpl. by rewrite lookup_insert_eq. }
  split.
  - exists props. split_and!; [| done | done].
    unfold animationData_Get. by rewrite Htag.
  - unfold animationData_hasAnimatedPropery, bind, me. by rewrite Hraw.
Qed.

(** The theorem for a data node with the two ends and a key frame. *)
Lemma stored_properties_are_complete_witness :
  let node := ObjectNode "property" (dataObject "opacity"
                [TextNode "from" "0"; TextNode "50%" "0.3"; TextNode "to" "1"]) in
  let '(ok, w') := animationData_Set (H := Samples.animationExt) "Property" (VDataNode node)
                     (Samples.world0 Samples.animation0) in
  ok = true
  /\ exists props,
       animationData_Get (self w') "Property" = VAnimatedProperties props
       /\ props <> [] /\ Forall complete props.
Proof.
  cbv zeta.
  pose proof (stored_properties_are_complete (H := Samples.animationExt) "Property"
                (VDataNode (ObjectNode "property" (dataObject "opacity"
                   [TextNode "from" "0"; TextNode "50%" "0.3"; TextNode "to" "1"])))
                (Samples.world0 Samples.animation0) eq_refl eq_refl) as Hthm.
  destruct (animationData_Set _ _ _) as [ok w'] eqn:Hset.
  assert (ok = true) as Hok.
  { apply (f_equal fst) in Hset. simpl in Hset. rewrite <- Hset. vm_compute. reflexivity. }
  destruct Hthm as (_ & _ & _ & Htrue). split; [done |]. by destruct (Htrue Hok).
Defined.

(** X9. For every tag written in ASCII that the animation handles itself
    (all but "duration", "delay", "iteration-count" and
    "animation-direction", which go to the property list), a [Set] that
    returns false leaves the properties of the animation and the session as
    they were; it can have written to the log, and under "property" it can
    have taken the key frames at 0 and at 100 out of the maps that the
    value refers to, which a property of the animation with such a map
    then misses. *)
Theorem failed_Set_keeps_the_properties `{AnimationExt} (tag : string) (value : value)
    (w : World animationData)
    (Hascii : isASCII tag = true)
    (Hown : animationData_normalizeTag tag ∉
              [Duration; Delay; IterationCount; AnimationDirection]) :
  let '(ok, w') := animationData_Set tag value w in
  ok = false ->
  self w' = self w
  /\ session w' = session w
  /\ (exists log, trace w' = trace w ++ log)
  /\ endsTaken (keyFrameRefs value) (heap w) (heap w')
  /\ (animationData_normalizeTag tag <> PropertyTag -> heap w' = heap w).
Proof.
  unfold animationData_Set. destruct (isNil value) eqn:Hnil.
  { by destruct (animationData_Remove tag w). }
  cbv zeta. set (normal := animationData_normalizeTag tag) in *.
  destruct (String.eqb_spec normal ID) as [_ | _].
  { destruct value; try done;
      try (simpl; intros _; split_and!;
           first [done | by eexists | by apply endsTaken_extends]).
    unfold bind.
    match goal with |- context [?m w] => by destruct (m w) as [[] w1] end. }
  destruct (String.eqb_spec normal PropertyTag) as [He | _].
  { pose proof (setProperty_shape normal value w) as Hshape.
    destruct (animationData_setProperty normal value w) as [ok w'].
    destruct Hshape as (Hsession & Hlog & Hends & Hfalse & _). intros Hok.
    split_and!; auto. by intros []. }
  destruct (String.eqb_spec normal Duration) as [He | _].
  { destruct Hown. rewrite He. apply elem_of_cons. by left. }
  destruct (String.eqb_spec normal Delay) as [He | _].
  { destruct Hown. rewrite He. do 1 (apply elem_of_cons; right). apply elem_of_cons. by left. }
  destruct (String.eqb_spec normal TimingFunction) as [_ | _].
  { destruct value; simpl; try done; intros _; split_and!;
      first [done | exists []; by rewrite app_nil_r | by apply endsTaken_extends]. }
  destruct (String.eqb_spec normal IterationCount) as [He | _].
  { destruct Hown. rewrite He. do 2 (apply elem_of_cons; right). apply elem_of_cons. by left. }
  destruct (String.eqb_spec normal AnimationDirection) as [He | _].
  { destruct Hown. rewrite He. do 3 (apply elem_of_cons; right). apply elem_of_cons. by left. }
  simpl. intros _. split_and!; first [done | by eexists | by apply endsTaken_extends].
Qed.

(** The theorem for a property without ends whose map holds one key frame,
    at 0: [Set] fails, the animation holds what it held, and the map has
    lost its key frame. *)
Lemma failed_Set_keeps_the_properties_witness :
  let p := mkAnimatedProperty "opacity" VNil VNil (Some 7%nat) in
  let maps : keyFrameMaps := {[ 7%nat := {[ 0%Z := VString "0.5" ]} ]} in
  let '(ok, w') := animationData_Set (H := Samples.animationExt) "property"
                     (VAnimatedProperty p) (Samples.worldWith maps Samples.animation1) in
  ok = false /\ self w' = Samples.animation1 /\ heap w' !! 7%nat = Some ∅.
Proof.
  cbv zeta.
  pose proof (failed_Set_keeps_the_properties (H := Samples.animationExt) "property"
                (VAnimatedProperty (mkAnimatedProperty "opacity" VNil VNil (Some 7%nat)))
                (Samples.worldWith {[ 7%nat := {[ 0%Z := VString "0.5" ]} ]}
                   Samples.animation1) eq_refl) as Hthm.
  destruct (animationData_Set _ _ _) as [ok w'] eqn:Hset.
  assert (ok = false) as Hok.
  { apply (f_equal fst) in Hset. simpl in Hset. rewrite <- Hset. vm_compute. reflexivity. }
  assert (heap w' !! 7%nat = Some ∅) as Hheap.
  { apply (f_equal (fun r => heap (snd r) !! 7%nat)) in Hset. simpl in Hset.
    rewrite <- Hset. vm_compute. reflexivity. }
  split; [done |]. split; [| done]. apply Hthm; [| done]. vm_compute.
  intros Hin. repeat (apply elem_of_cons in Hin as [Heq | Hin]; [discriminate |]).
  by apply elem_of_nil in Hin.
Defined.

(** X10. The timing function of an animation is stored as it is given:
    [Set] accepts every text without a look at it and without a line in the
    log, and refuses a value of another type without a line in the log
    either. A text that [validateTimingFunction] does not accept is
    replaced by "ease" only when the CSS text is written. *)
Theorem timing_function_is_not_checked `{Strconv} `{AnimationExt} (tag : string)
    (w : World animationData)
    (Htag : animationData_normalizeTag tag = TimingFunction) :
  (forall text,
     let '(ok, w') := animationData_Set tag (VString text) w in
     ok = true
     /\ animationData_Get (self w') tag = VString text
     /\ session w' = session w
     /\ trace w' = trace w
     /\ forall session,
          stringProperty (self w') TimingFunction session = Some text ->
          resolveConstants session text = Some text ->
          validateTimingFunction text = false ->
          animationData_timingFunctionCSS (self w') session = "ease")
  /\ (forall value,
        isNil value = false -> (forall text, value <> VString text) ->
        animationData_Set tag value w = (false, w)).
Proof.
  split.
  - intros text. unfold animationData_Set. rewrite Htag. simpl isNil. cbv iota.
    change (String.eqb TimingFunction ID) with false.
    change (String.eqb TimingFunction PropertyTag) with false.
    change (String.eqb TimingFunction Duration) with false.
    change (String.eqb TimingFunction Delay) with false.
    change (String.eqb TimingFunction TimingFunction) with true. cbv iota.
    cbv [bind update modify ret withSelf animationData_store]. cbn [self session trace heap].
    split_and!; try done; cbn [self session trace heap].
    + rewrite Get_store, Htag by done. reflexivity.
    + intros session Hs Hr Hv. unfold animationData_timingFunctionCSS.
      by rewrite Hs, Hr, Hv.
  - intros value Hnil Hstr. unfold animationData_Set. rewrite Htag, Hnil.
    change (String.eqb TimingFunction ID) with false.
    change (String.eqb TimingFunction PropertyTag) with false.
    change (String.eqb TimingFunction Duration) with false.
    change (String.eqb TimingFunction Delay) with false.
    change (String.eqb TimingFunction TimingFunction) with true. cbv iota.
    destruct value; try (unfold ret; by destruct w). by destruct (Hstr s).
Qed.

(** The theorem for a text that is no timing function. *)
Lemma timing_function_is_not_checked_witness :
  let '(ok, w') := animationData_Set (H := Samples.animationExt) "Timing-Function"
                     (VString "bounce") (Samples.world0 Samples.animation0) in
  ok = true
  /\ animationData_Get (self w') "Timing-Function" = VString "bounce"
  /\ animationData_timingFunctionCSS (H := Samples.strconv) (H0 := Samples.animationExt)
       (self w') (session w') = "ease".
Proof.
  pose proof (proj1 (timing_function_is_not_checked (H := Samples.strconv)
                       (H0 := Samples.animationExt) "Timing-Function"
                       (Samples.world0 Samples.animation0) eq_refl) "bounce") as Hthm.
  destruct (animationData_Set _ _ _) as [ok w'] eqn:Hset.
  destruct Hthm as (Hok & Hget & _ & _ & Hcss). split_and!; [done | done |].
  apply Hcss.
  - apply (f_equal (fun r => self (snd r))) in Hset. simpl in Hset. rewrite <- Hset.
    vm_compute. reflexivity.
  - reflexivity.
  - vm_compute. reflexivity.
Defined.

(** ** Listeners of the transition and animation events *)

Lemma wrapListenersLoop_spec (wrap : goFunc -> listener) (l : list goFunc)
    (captured : goFunc) :
  wrapListenersLoop wrap l captured =
    if existsb isNilFunc l then None
    else Some (replicate (length l) (wrap captured)).
Proof.
  induction l as [|f l IH]; [done |]. simpl.
  destruct (isNilFunc f); [done |]. simpl. rewrite IH. by destruct (existsb isNilFunc l).
Qed.

Lemma wrapListeners_spec (wrap : goFunc -> listener) (l : list goFunc) :
  wrapListeners wrap l =
    if existsb isNilFunc l then None
    else Some (replicate (length l) (wrap (List.last l nilFunc))).
Proof. apply wrapListenersLoop_spec. Qed.

Lemma checkListeners_spec (l : list listener) :
  checkListeners l = negb (existsb isNilListener l).
Proof.
  induction l as [|f l IH]; [done |]. simpl. by destruct (isNilListener f).
Qed.

Lemma convertListeners_mapM (l : list value) :
  convertListeners l = mapM asListener l.
Proof.
  induction l as [|v l IH]; [done |]. simpl. rewrite IH.
  destruct v; simpl; try done; by destruct (mapM asListener l).
Qed.

(** X11. What [valueToAnimationListeners] makes of a collection. A list of
    functions of one shape with a nil element is refused. Without a nil
    element it becomes a list of the same length whose listeners are all
    the same: each of them calls the last function of the list, because the
    closures share the one variable of the loop; so of two different
    functions only the second is ever called, twice for an event. A list of
    functions of a view and a text is taken as it is, and a heterogeneous
    list becomes the list of the listeners of its elements, each calling its
    own element, when each of them has one of the four shapes; every other
    collection is refused. *)
Theorem listener_collections (l : list goFunc) (ls : list listener) (vs : list value) :
  let shared (wrap : goFunc -> listener) :=
    if existsb isNilFunc l then ([], false)
    else (replicate (length l) (wrap (List.last l nilFunc)), true) in
  valueToAnimationListeners (VSliceFuncString l) = shared wrapString
  /\ valueToAnimationListeners (VSliceFuncView l) = shared wrapView
  /\ valueToAnimationListeners (VSliceFunc l) = shared wrapNoArg
  /\ (forall f g,
        valueToAnimationListeners (VSliceFuncString [fn f; fn g]) =
          ([wrapString (fn g); wrapString (fn g)], true)
        /\ valueToAnimationListeners (VSlice [VFuncString (fn f); VFuncString (fn g)]) =
             ([wrapString (fn f); wrapString (fn g)], true))
  /\ valueToAnimationListeners (VListeners ls) =
       (if existsb isNilListener ls then ([], false) else (ls, true))
  /\ valueToAnimationListeners (VSlice vs) =
       match mapM asListener vs with
       | Some listeners => (listeners, true)
       | None => ([], false)
       end
  /\ (forall listeners, mapM asListener vs = Some listeners -> length listeners = length vs).
Proof.
  cbv zeta. split_and!.
  - simpl. rewrite wrapListeners_spec. destruct l as [|f l]; [done |].
    by destruct (existsb isNilFunc (f :: l)).
  - simpl. rewrite wrapListeners_spec. destruct l as [|f l]; [done |].
    by destruct (existsb isNilFunc (f :: l)).
  - simpl. rewrite wrapListeners_spec. destruct l as [|f l]; [done |].
    by destruct (existsb isNilFunc (f :: l)).
  - intros f g. split; reflexivity.
  - simpl. rewrite checkListeners_spec. destruct ls as [|f ls]; [done |].
    by destruct (existsb isNilListener (f :: ls)).
  - simpl. rewrite convertListeners_mapM. by destruct vs.
  - intros listeners Hm. symmetry. by apply (length_mapM asListener).
Qed.

(** *** Setting and removing the listeners of a view *)

Lemma removeEventListener_spec `{ViewExt} (table : list (string * (string * string)))
    (tag : string) (w : World viewData) :
  let '(_, w') := viewData_removeEventListener table tag w in
  viewProperties (self w') = delete tag (viewProperties (self w))
  /\ restOf (self w') = restOf (self w)
  /\ exists id,
       trace w' = trace w ++
         (if created (self w) then
            match lookupEvent table tag with
            | Some (jsEvent, _) => [removeProperty id jsEvent]
            | None => []
            end
          else []).
Proof.
  unfold viewData_removeEventListener. cbv [bind update modify me withSelf].
  cbn [self session trace heap]. destruct w as [view session0 trace0]. cbn [self session trace heap].
  change (created (withProperties (deleteProperty tag) view)) with (created view).
  destruct (created view) eqn:Hc.
  - destruct (lookupEvent table tag) as [[jsEvent jsFunc] |].
    + match goal with |- context [viewData_htmlID ?w0] =>
        destruct (htmlID_spec w0) as (id & session' & ->) end.
      cbn. split_and!; [done | reflexivity | by exists id].
    + cbn. split_and!; [done | reflexivity | exists EmptyString; by rewrite app_nil_r].
  - cbn. split_and!; [done | reflexivity | exists EmptyString; by rewrite app_nil_r].
Qed.

(** What the setters of the two event families do with a value that
    [valueToAnimationListeners] takes. *)
Lemma setEventListener_accepted `{ViewExt} (table : list (string * (string * string)))
    (tag : string) (value : value) (listeners : list listener) (jsEvent jsFunc : string)
    (w : World viewData) :
  valueToAnimationListeners value = (listeners, true) ->
  lookupEvent table tag = Some (jsEvent, jsFunc) ->
  let '(ok, w') := viewData_setEventListener table tag value w in
  ok = true
  /\ viewProperties (self w') =
       match listeners with
       | [] => delete tag (viewProperties (self w))
       | _ => <[tag := VListeners listeners]> (viewProperties (self w))
       end
  /\ restOf (self w') = restOf (self w)
  /\ exists id,
       trace w' = trace w ++
         (if created (self w) then
            match listeners with
            | [] => [removeProperty id jsEvent]
            | _ => [updateProperty id jsEvent (jsFunc +:+ "(this, event)")]
            end
          else []).
Proof.
  intros Hconv Hjs. unfold viewData_setEventListener. rewrite Hconv. cbv iota beta.
  change (negb true) with false. cbv iota. destruct listeners as [|f listeners].
  - unfold bind, ret. cbv beta. pose proof (removeEventListener_spec table tag w) as Hrm.
    destruct (viewData_removeEventListener table tag w) as [[] w'].
    destruct Hrm as (Hp & Hr & id & Ht). rewrite Hjs in Ht. cbv beta iota.
    split_and!; try done. by exists id.
  - rewrite Hjs. cbv [bind update modify me withSelf ret].
    cbn [self session trace heap]. destruct w as [view session0 trace0].
    cbn [self session trace heap].
    change (created (withProperties (setProperty tag (VListeners (f :: listeners))) view))
      with (created view).
    destruct (created view) eqn:Hc.
    + match goal with |- context [viewData_htmlID ?w0] =>
        destruct (htmlID_spec w0) as (id & session' & ->) end.
      cbn. split_and!; [done | done | reflexivity | by exists id].
    + cbn. split_and!; [done | done | reflexivity |].
      exists EmptyString. by rewrite app_nil_r.
Qed.

(** A change of a tag outside the groups of [propertyChangedEvent] is told
    to the listener of the tag only. *)
Lemma propertyChangedEvent_ungrouped (tag : string) (w : World viewData) :
  isOneOf tag (borderEdgeTags ++ borderStyleTags ++ borderColorTags ++ borderWidthTags)
    = false ->
  isOneOf tag cellBorderTags = false ->
  isOneOf tag outlineTags = false ->
  isOneOf tag radiusTags = false ->
  isOneOf tag marginTags = false ->
  isOneOf tag paddingTags = false ->
  isOneOf tag cellPaddingTags = false ->
  isOneOf tag columnSeparatorTags = false ->
  viewData_propertyChangedEvent tag w =
    (tt, mkWorld (self w) (session w)
           (trace w ++ match changeListener (self w) !! tag with
                       | Some listener => [call listener tag]
                       | None => []
                       end) (heap w)).
Proof.
  intros H1 H2 H3 H4 H5 H6 H7 H8. unfold viewData_propertyChangedEvent.
  cbv [bind me]. rewrite H1, H2, H3, H4, H5, H6, H7, H8.
  destruct (changeListener (self w) !! tag); cbv [emit ret]; cbn [self session trace heap].
  - reflexivity.
  - rewrite app_nil_r. by destruct w.
Qed.

Lemma listener_tag_cases (tag : string) :
  tag ∈ transitionTags ++ animationTags ->
  (tag ∈ transitionTags \/ tag ∈ animationTags)
  /\ (exists js, lookupEvent listenerEvents tag = Some js
                 /\ (tag ∈ transitionTags -> lookupEvent transitionEvents tag = Some js)
                 /\ (tag ∈ animationTags -> lookupEvent animationEvents tag = Some js))
  /\ forall w : World viewData,
       viewData_propertyChangedEvent tag w =
         (tt, mkWorld (self w) (session w)
                (trace w ++ match changeListener (self w) !! tag with
                            | Some listener => [call listener tag]
                            | None => []
                            end) (heap w)).
Proof.
  unfold transitionTags, animationTags. simpl app.
  rewrite !elem_of_cons, elem_of_nil.
  intros [-> | [-> | [-> | [-> | [-> | [-> | [-> | [-> | []]]]]]]]].
  all: split;
    [ first [ left; set_solver | right; set_solver ] | split ].
  all: try (eexists; split_and!; [reflexivity | ..]; intros Hin;
            first [ reflexivity
                  | exfalso; revert Hin; rewrite !elem_of_cons, elem_of_nil;
                    intros Hin; repeat destruct Hin as [Hin | Hin]; done ]).
  all: intros w; apply propertyChangedEvent_ungrouped; by vm_compute.
Qed.

Lemma set_listener_tag `{ViewExt} (tag : string) (v : value) :
  tag ∈ transitionTags ++ animationTags -> isNil v = false ->
  viewData_set tag v =
    (res <- viewData_setEventListener
              (if bool_decide (tag ∈ transitionTags) then transitionEvents
               else animationEvents) tag v ;;
     (if res : bool then viewData_propertyChangedEvent tag else ret tt) ;; ret res).
Proof.
  intros [Hin | Hin]%elem_of_app Hnil.
  - rewrite set_transition_tag by done. by rewrite bool_decide_eq_true_2.
  - rewrite set_animation_tag by done. rewrite bool_decide_eq_false_2; [done |].
    revert Hin. unfold transitionTags, animationTags.
    rewrite !elem_of_cons, !elem_of_nil.
    intros [-> | [-> | [-> | [-> | []]]]] Hin;
      repeat destruct Hin as [Hin | Hin]; done.
Qed.

(** What [set] does with a listener tag and a value that
    [valueToAnimationListeners] takes. *)
Lemma set_listener_accepted `{ViewExt} (tag : string) (value : value)
    (listeners : list listener) (w : World viewData) :
  tag ∈ transitionTags ++ animationTags ->
  isNil value = false ->
  valueToAnimationListeners value = (listeners, true) ->
  let '(ok, w') := viewData_set tag value w in
  ok = true
  /\ viewProperties (self w') =
       match listeners with
       | [] => delete tag (viewProperties (self w))
       | _ => <[tag := VListeners listeners]> (viewProperties (self w))
       end
  /\ restOf (self w') = restOf (self w)
  /\ exists id jsEvent jsFunc,
       lookupEvent listenerEvents tag = Some (jsEvent, jsFunc)
       /\ trace w' = trace w ++
            (if created (self w) then
               match listeners with
               | [] => [removeProperty id jsEvent]
               | _ => [updateProperty id jsEvent (jsFunc +:+ "(this, event)")]
               end
             else [])
            ++ match changeListener (self w) !! tag with
               | Some listener => [call listener tag]
               | None => []
               end.
Proof.
  intros Htag Hvalue Hlisteners.
  destruct (listener_tag_cases tag Htag) as (Hkind & ([jsEvent jsFunc] & Hjs & Htr & Han)
                                             & Hchanged).
  rewrite set_listener_tag by done. unfold bind.
  assert (lookupEvent (if bool_decide (tag ∈ transitionTags) then transitionEvents
                       else animationEvents) tag = Some (jsEvent, jsFunc)) as Htable.
  { destruct (decide (tag ∈ transitionTags)) as [Hin | Hout].
    - rewrite bool_decide_eq_true_2 by done. by apply Htr.
    - rewrite bool_decide_eq_false_2 by done. apply Han. by destruct Hkind. }
  pose proof (setEventListener_accepted _ tag value listeners jsEvent jsFunc w
                Hlisteners Htable) as Hset.
  destruct (viewData_setEventListener _ tag value w) as [ok w1].
  destruct Hset as (-> & Hprops & Hrest & id & Htrace).
  rewrite Hchanged. unfold ret. cbn [self session trace heap].
  assert (changeListener (self w1) = changeListener (self w)) as Hcl.
  { by injection Hrest. }
  split_and!; [done | done | done |].
  exists id, jsEvent, jsFunc. split; [done |]. by rewrite Htrace, Hcl, <- app_assoc.
Qed.

(** A heterogeneous list of callbacks is converted element by element,
    nil functions included. *)
Lemma convertListeners_callbacks (l : list value) :
  forallb isCallback l = true ->
  exists listeners,
    convertListeners l = Some listeners
    /\ length listeners = length l
    /\ (existsb boxedNil l = true -> existsb callsNil listeners = true).
Proof.
  induction l as [|v l IH]; [by exists [] |].
  cbn [forallb]. intros [Hv Hl]%andb_true_iff.
  destruct (IH Hl) as (listeners & Hconv & Hlen & Hnil).
  destruct v; try discriminate; cbn [convertListeners isNil]; rewrite Hconv.
  all: eexists; split_and!; [reflexivity | by cbn [length]; rewrite Hlen |].
  all: cbn [existsb]; intros [Hhere | Hthere]%orb_true_iff;
    apply orb_true_iff; [left | right; by apply Hnil].
  - by destruct f as [[] | | |].
  - by destruct f.
  - by destruct f.
  - by destruct f.
Qed.

(** ** A nil callback in a heterogeneous list

    C4 does not hold on the sources. An element of a heterogeneous list is
    an interface, and an interface that holds a nil function is not nil for
    Go: the test [v == nil] lets it pass, and the type switch wraps it like
    any other function. A heterogeneous list of callbacks with such an
    element is therefore normalized, not refused: the result has one
    listener for each element, one of which calls a nil function; the
    setters of the transition and animation event tags return true, and the
    view holds this list under the tag in place of what it held. *)
Theorem boxed_nil_callback_is_stored `{ViewExt} (l : list value) (tag : string)
    (w : World viewData)
    (Htag : tag ∈ transitionTags ++ animationTags)
    (Hcallbacks : forallb isCallback l = true)
    (Hnil : existsb boxedNil l = true) :
  exists listeners,
    valueToAnimationListeners (VSlice l) = (listeners, true)
    /\ length listeners = length l
    /\ listeners <> []
    /\ existsb callsNil listeners = true
    /\ (let '(ok, w') := viewData_set tag (VSlice l) w in
        ok = true /\ viewProperties (self w') !! tag = Some (VListeners listeners))
    /\ (let '(ok, w') := viewData_Set tag (VSlice l) w in
        ok = true /\ viewProperties (self w') !! tag = Some (VListeners listeners)).
Proof.
  destruct (convertListeners_callbacks l Hcallbacks) as (listeners & Hconv & Hlen & Hcalls).
  assert (valueToAnimationListeners (VSlice l) = (listeners, true)) as Hvalue.
  { cbn [valueToAnimationListeners]. rewrite Hconv. by destruct l. }
  assert (listeners <> []) as Hne.
  { destruct l; [discriminate |]. by destruct listeners. }
  assert (Hset : let '(ok, w') := viewData_set tag (VSlice l) w in
            ok = true /\ viewProperties (self w') !! tag = Some (VListeners listeners)).
  { pose proof (set_listener_accepted tag (VSlice l) listeners w Htag eq_refl Hvalue)
      as Hacc.
    destruct (viewData_set tag (VSlice l) w) as [ok w'].
    destruct Hacc as (-> & Hprops & _). split; [done |]. rewrite Hprops.
    destruct listeners; [done |]. apply lookup_insert_eq. }
  exists listeners. split_and!; [done | done | done | by apply Hcalls | exact Hset |].
  unfold viewData_Set.
  assert (ToLower tag = tag) as ->; [| exact Hset].
  revert Htag. unfold transitionTags, animationTags. simpl app.
  rewrite !elem_of_cons, elem_of_nil.
  intros [-> | [-> | [-> | [-> | [-> | [-> | [-> | [-> | []]]]]]]]]; reflexivity.
Qed.

(** The theorem for the list of a function and a nil function, set as the
    listeners of the end of a transition on a fresh view: [Set] returns
    true and stores two listeners, the second around the nil function. *)
Lemma boxed_nil_callback_is_stored_witness :
  let value := VSlice [VFunc (fn 1); VFunc nilFunc] in
  let '(ok, w') := viewData_Set (H := Samples.viewExt) TransitionEndEvent value
                     (Samples.world0 Samples.view0) in
  ok = true
  /\ viewProperties (self w') !! TransitionEndEvent =
       Some (VListeners [wrapNoArg (fn 1); wrapNoArg nilFunc]).
Proof.
  cbv zeta.
  destruct (boxed_nil_callback_is_stored (H := Samples.viewExt)
              [VFunc (fn 1); VFunc nilFunc] TransitionEndEvent
              (Samples.world0 Samples.view0))
    as (listeners & Hvalue & _ & _ & _ & _ & Hset);
    [do 2 (apply list_elem_of_further); apply list_elem_of_here | reflexivity
    | reflexivity |].
  injection Hvalue as <-. exact Hset.
Defined.

(** X12. Setting a listener tag of the transition or animation events to
    a value that [valueToAnimationListeners] takes succeeds: the view then
    holds the converted list under the tag (an empty list removes the
    entry), no other part of the view changes, a shown view gets one
    instruction for the event attribute of the page, and the change listener
    of the tag, if any, is called last. For a transition event the attribute
    is also written when the view is rendered. The converted list of a list
    of functions of a text holds closures that all call its last
    function. *)
Theorem listeners_are_stored `{ViewExt} (tag : string) (value : value)
    (listeners : list listener) (w : World viewData)
    (Htag : tag ∈ transitionTags ++ animationTags)
    (Hvalue : isNil value = false)
    (Hlisteners : valueToAnimationListeners value = (listeners, true)) :
  let '(ok, w') := viewData_set tag value w in
  ok = true
  /\ viewProperties (self w') =
       match listeners with
       | [] => delete tag (viewProperties (self w))
       | _ => <[tag := VListeners listeners]> (viewProperties (self w))
       end
  /\ restOf (self w') = restOf (self w)
  /\ (exists id jsEvent jsFunc,
        lookupEvent listenerEvents tag = Some (jsEvent, jsFunc)
        /\ trace w' = trace w ++
             (if created (self w) then
                match listeners with
                | [] => [removeProperty id jsEvent]
                | _ => [updateProperty id jsEvent (jsFunc +:+ "(this, event)")]
                end
              else [])
             ++ match changeListener (self w) !! tag with
                | Some listener => [call listener tag]
                | None => []
                end)
  /\ (tag ∈ transitionTags -> listeners <> [] ->
      forall visited js, (tag, js) ∈ visited ->
        eventAttribute js ∈ transitionEventsHtml (self w') visited).
Proof.
  pose proof (set_listener_accepted tag value listeners w Htag Hvalue Hlisteners) as Hset.
  destruct (viewData_set tag value w) as [ok w1].
  destruct Hset as (Hok & Hprops & Hrest & Htrace).
  split_and!; [done | done | done | done |].
  intros Hin Hne visited js Hvisited.
  unfold transitionEventsHtml. apply list_elem_of_In, in_flat_map.
  exists (tag, js). split; [by apply list_elem_of_In |]. simpl fst. simpl snd.
  unfold getRaw. change (properties (stylePropertyList (style (self w1))))
    with (viewProperties (self w1)). rewrite Hprops.
  destruct listeners as [|f listeners]; [done |].
  rewrite lookup_insert_eq. simpl. by left.
Qed.

(** The theorem for a list of two functions of a text on a shown view: the
    two listeners stored both call the second function. *)
Lemma listeners_are_stored_witness :
  let value := VSliceFuncString [fn 1; fn 2] in
  let '(ok, w') := viewData_set (H := Samples.viewExt) TransitionEndEvent value
                     (Samples.world0 (withCreated true Samples.view0)) in
  ok = true
  /\ viewProperties (self w') !! TransitionEndEvent =
       Some (VListeners [wrapString (fn 2); wrapString (fn 2)]).
Proof.
  cbv zeta.
  pose proof (listeners_are_stored (H := Samples.viewExt) TransitionEndEvent
                (VSliceFuncString [fn 1; fn 2]) [wrapString (fn 2); wrapString (fn 2)]
                (Samples.world0 (withCreated true Samples.view0))) as Hthm.
  destruct (viewData_set _ _ _) as [ok w'].
  destruct Hthm as (Hok & Hprops & _);
    [do 2 (apply list_elem_of_further); apply list_elem_of_here | reflexivity
    | reflexivity |].
  split; [done |]. rewrite Hprops. apply lookup_insert_eq.
Defined.

(** X13. A single callback is taken without a look at it: a value that is
    one nil function of one of the four shapes is turned into a list of one
    listener and stored by [Set], while the same nil function inside a list
    of its shape makes [Set] fail. *)
Theorem single_nil_function_is_stored `{ViewExt} (tag : string) (w : World viewData)
    (Htag : tag ∈ transitionTags ++ animationTags) :
  let stores (value : value) (listener : listener) :=
    fst (viewData_set tag value w) = true
    /\ viewProperties (self (snd (viewData_set tag value w))) !! tag =
         Some (VListeners [listener]) in
  let refuses (value : value) :=
    fst (viewData_set tag value w) = false
    /\ self (snd (viewData_set tag value w)) = self w in
  stores (VFuncViewString (direct nilFunc)) (direct nilFunc)
  /\ stores (VFuncString nilFunc) (wrapString nilFunc)
  /\ stores (VFuncView nilFunc) (wrapView nilFunc)
  /\ stores (VFunc nilFunc) (wrapNoArg nilFunc)
  /\ refuses (VListeners [direct nilFunc])
  /\ refuses (VSliceFuncString [nilFunc])
  /\ refuses (VSliceFuncView [nilFunc])
  /\ refuses (VSliceFunc [nilFunc]).
Proof.
  cbv zeta.
  assert (Hstore : forall value listener,
             isNil value = false ->
             valueToAnimationListeners value = ([listener], true) ->
             fst (viewData_set tag value w) = true
             /\ viewProperties (self (snd (viewData_set tag value w))) !! tag =
                  Some (VListeners [listener])).
  { intros value listener Hnil Hconv.
    pose proof (set_listener_accepted tag value [listener] w Htag Hnil Hconv) as Hthm.
    destruct (viewData_set tag value w) as [ok w']. simpl.
    destruct Hthm as (Hok & Hprops & _). split; [done |].
    rewrite Hprops. apply lookup_insert_eq. }
  assert (Hrefuse : forall value,
             rejectedCollection value ->
             fst (viewData_set tag value w) = false
             /\ self (snd (viewData_set tag value w)) = self w).
  { intros value Hrej.
    rewrite set_listener_tag by (try apply rejected_not_nil; done).
    unfold bind. rewrite setEventListener_rejected by done. done. }
  do 4 (split; [by apply Hstore |]).
  do 3 (split; [apply Hrefuse; constructor; apply list_elem_of_here |]).
  apply Hrefuse; constructor; apply list_elem_of_here.
Qed.

(** The theorem for the end of an animation on a fresh view. *)
Lemma single_nil_function_is_stored_witness :
  viewProperties
    (self (snd (viewData_set (H := Samples.viewExt) AnimationEndEvent
                  (VFuncString nilFunc) (Samples.world0 Samples.view0))))
    !! AnimationEndEvent = Some (VListeners [wrapString nilFunc]).
Proof.
  refine (proj2 (proj1 (proj2 (single_nil_function_is_stored (H := Samples.viewExt)
                                 AnimationEndEvent (Samples.world0 Samples.view0) _)))).
  do 5 (apply list_elem_of_further). apply list_elem_of_here.
Defined.

(** *** The event attributes of a rendered view *)

Lemma remove_listener_tag `{ViewExt} (tag : string) :
  tag ∈ animationTags ->
  viewData_remove tag =
    (viewData_removeEventListener animationEvents tag ;; viewData_propertyChangedEvent tag).
Proof.
  unfold animationTags. rewrite !elem_of_cons, elem_of_nil.
  intros [-> | [-> | [-> | [-> | []]]]]; reflexivity.
Qed.

Lemma animationEventsHtml_empty (view : viewData)
    (visited : list (string * (string * string))) :
  (forall t l, getRaw (stylePropertyList (style view)) t <> VSliceFuncView l) ->
  animationEventsHtml view visited = [].
Proof.
  intros Hraw. induction visited as [|entry rest IH]; [done |].
  unfold animationEventsHtml in *. simpl. rewrite IH.
  destruct (getRaw _ (fst entry)) eqn:Hv; try done. by destruct (Hraw (fst entry) l).
Qed.

Lemma no_view_functions_insert (props : gmap string value) (tag : string)
    (listeners : list listener) :
  (forall t l, default VNil (props !! t) <> VSliceFuncView l) ->
  forall t l, default VNil (<[tag := VListeners listeners]> props !! t) <> VSliceFuncView l.
Proof.
  intros Hraw t l. destruct (decide (t = tag)) as [-> | Hne].
  - by rewrite lookup_insert_eq.
  - rewrite lookup_insert_ne by done. apply Hraw.
Qed.

Lemma no_view_functions_delete (props : gmap string value) (tag : string) :
  (forall t l, default VNil (props !! t) <> VSliceFuncView l) ->
  forall t l, default VNil (delete tag props !! t) <> VSliceFuncView l.
Proof.
  intros Hraw t l. destruct (decide (t = tag)) as [-> | Hne].
  - by rewrite lookup_delete_eq.
  - rewrite lookup_delete_ne by done. apply Hraw.
Qed.

(** X14. The listeners of the animation events never reach the rendered
    page: [Set] stores them as a list of functions of a view and a text,
    and [animationEventsHtml] looks for a list of functions of a view only.
    On a view whose properties hold no list of that type, whatever is set
    under an animation event tag, and whether [Set] succeeds or not,
    [animationEventsHtml] writes nothing, although after a success with a
    list that is not empty the listeners are there. *)
Theorem animation_listeners_are_not_written `{ViewExt} (tag : string) (value : value)
    (w : World viewData)
    (Htag : tag ∈ animationTags)
    (Hraw : forall t l, getRaw (stylePropertyList (style (self w))) t <> VSliceFuncView l) :
  let '(ok, w') := viewData_set tag value w in
  (forall visited, animationEventsHtml (self w') visited = [])
  /\ (forall listeners,
        isNil value = false ->
        valueToAnimationListeners value = (listeners, true) ->
        listeners <> [] ->
        ok = true
        /\ getRaw (stylePropertyList (style (self w'))) tag = VListeners listeners).
Proof.
  assert (Htags : tag ∈ transitionTags ++ animationTags) by (apply elem_of_app; by right).
  destruct (listener_tag_cases tag Htags) as (_ & ([jsEvent jsFunc] & _ & _ & Han)
                                              & Hchanged).
  specialize (Han Htag).
  destruct (isNil value) eqn:Hnil.
  - (* nil: the listener is removed *)
    unfold viewData_set. rewrite Hnil. rewrite remove_listener_tag by done.
    unfold bind, ret.
    pose proof (removeEventListener_spec animationEvents tag w) as Hrm.
    destruct (viewData_removeEventListener animationEvents tag w) as [[] w1].
    destruct Hrm as (Hprops & _). rewrite Hchanged. cbn [self session trace heap].
    split; [| done]. intros visited. apply animationEventsHtml_empty.
    unfold getRaw. change (properties (stylePropertyList (style (self w1))))
      with (viewProperties (self w1)). rewrite Hprops.
    by apply no_view_functions_delete.
  - rewrite set_animation_tag by done. unfold bind, viewData_setAnimationListener.
    destruct (valueToAnimationListeners value) as [listeners ok] eqn:Hconv.
    destruct ok.
    + pose proof (setEventListener_accepted animationEvents tag value listeners
                    jsEvent jsFunc w Hconv Han) as Hset.
      destruct (viewData_setEventListener animationEvents tag value w) as [ok w1].
      destruct Hset as (-> & Hprops & _). rewrite Hchanged. unfold ret.
      cbn [self session trace heap]. split.
      * intros visited. apply animationEventsHtml_empty.
        unfold getRaw. change (properties (stylePropertyList (style (self w1))))
          with (viewProperties (self w1)). rewrite Hprops.
        destruct listeners; [by apply no_view_functions_delete |].
        by apply no_view_functions_insert.
      * intros listeners' _ [= <-] Hne. split; [done |].
        unfold getRaw. change (properties (stylePropertyList (style (self w1))))
          with (viewProperties (self w1)). rewrite Hprops.
        destruct listeners; [done |]. by rewrite lookup_insert_eq.
    + unfold viewData_setEventListener. rewrite Hconv. simpl. split; [| done].
      intros visited. by apply animationEventsHtml_empty.
Qed.

(** The theorem for one listener of the end of an animation on a fresh
    view: the listener is stored, and nothing is written for the page. *)
Lemma animation_listeners_are_not_written_witness :
  let w' := snd (viewData_set (H := Samples.viewExt) AnimationEndEvent
                   (VFuncViewString (direct (fn 1))) (Samples.world0 Samples.view0)) in
  getRaw (stylePropertyList (style (self w'))) AnimationEndEvent =
    VListeners [direct (fn 1)]
  /\ animationEventsHtml (self w') animationEvents = [].
Proof.
  cbv zeta.
  pose proof (animation_listeners_are_not_written (H := Samples.viewExt) AnimationEndEvent
                (VFuncViewString (direct (fn 1))) (Samples.world0 Samples.view0)) as Hthm.
  destruct (viewData_set _ _ _) as [ok w'].
  destruct Hthm as (Hempty & Hstored);
    [do 1 (apply list_elem_of_further); apply list_elem_of_here | done |].
  cbn [snd]. split.
  - by apply (Hstored [direct (fn 1)]).
  - apply Hempty.
Defined.

(** ** Overrides of a transition and their end *)

(** What [SetAnimated] with an animation does when the inner [Set]
    succeeds and leaves the two tables of transitions alone. *)
Lemma SetAnimated_accepted `{ViewExt} (tag : string) (value : value) (animation : animRef)
    (w : World viewData) :
  (forall w1 : World viewData,
      let r := viewData_Set tag value w1 in
      fst r = true
      /\ viewTransitions (self (snd r)) = viewTransitions (self w1)
      /\ singleTransition (self (snd r)) = singleTransition (self w1)) ->
  let '(ok, w') := viewData_SetAnimated tag value (Some animation) w in
  ok = true
  /\ viewTransitions (self w') = <[tag := Some animation]> (viewTransitions (self w))
  /\ singleTransition (self w') =
       <[tag := default None (viewTransitions (self w) !! tag)]> (singleTransition (self w)).
Proof.
  intros Hset. unfold viewData_SetAnimated, viewData_updateTransitionCSS.
  cbv [bind emit me update modify get].
  repeat match goal with
  | |- context [viewData_htmlID ?w0] =>
      destruct (htmlID_spec w0) as (? & ? & ->); cbn [self session trace heap withSelf]
  | |- context [match viewTransitions ?v !! tag with _ => _ end] =>
      change (viewTransitions v) with (viewTransitions (self w));
      destruct (viewTransitions (self w) !! tag); cbn [self session trace heap withSelf]
  | |- context [viewData_Set tag value ?w1] =>
      let Hr := fresh "Hr" in
      pose proof (Hset w1) as Hr; cbv zeta in Hr;
      destruct (viewData_Set tag value w1) as [? ?];
      cbn [fst snd] in Hr; destruct Hr as (-> & HT & HS);
      cbn [negb self session trace heap withSelf]
  end.
  all: cbn [ret]; rewrite HT, HS; split_and!; done.
Qed.

(** What a terminal event does. *)
Lemma terminal_event_spec `{ViewExt} (event property : string) (data : DataObject)
    (w : World viewData) :
  terminalEvent event ->
  PropertyValue data "property" = Some property ->
  let '(_, w') := viewData_handleTransitionEvents event data w in
  match singleTransition (self w) !! property with
  | Some saved =>
      singleTransition (self w') = delete property (singleTransition (self w))
      /\ viewTransitions (self w') =
           match saved with
           | Some animation => <[property := Some animation]> (viewTransitions (self w))
           | None => delete property (viewTransitions (self w))
           end
  | None => self w' = self w /\ session w' = session w
  end.
Proof.
  intros Hterm Hproperty. unfold viewData_handleTransitionEvents. rewrite Hproperty.
  assert (Htest : String.eqb event TransitionEndEvent
                  || String.eqb event TransitionCancelEvent = true).
  { destruct Hterm as [-> | ->]; reflexivity. }
  rewrite Htest. cbv [bind me update modify]. cbn [self].
  destruct (singleTransition (self w) !! property) as [saved |] eqn:Hsaved.
  - set (w1 := withSelf (withSingleTransition (delete property)) w).
    destruct saved as [animation |].
    + set (w2 := withSelf (withTransitions <[property:=Some animation]>) w1).
      destruct (updateTransitionCSS_spec w2) as (id & session' & ->).
      rewrite forEach_emit. by simpl.
    + set (w2 := withSelf (withTransitions (delete property)) w1).
      destruct (updateTransitionCSS_spec w2) as (id & session' & ->).
      rewrite forEach_emit. by simpl.
  - unfold ret. rewrite forEach_emit. by simpl.
Qed.

(** X15. An override and its end, when the property itself can be set:
    [SetAnimated] with an animation puts the animation into [transitions]
    and keeps what was declared before in [singleTransition]; the end or
    the cancellation of the transition of that property then puts
    [transitions] and [singleTransition] back as they were before the
    override (a declared nil animation is dropped); a second such event
    changes nothing any more. *)
Theorem override_and_its_end `{ViewExt} (tag : string) (value : value)
    (animation : animRef) (event : string) (data : DataObject) (w : World viewData)
    (Hset : forall w1 : World viewData,
        let r := viewData_Set tag value w1 in
        fst r = true
        /\ viewTransitions (self (snd r)) = viewTransitions (self w1)
        /\ singleTransition (self (snd r)) = singleTransition (self w1))
    (Hevent : terminalEvent event)
    (Hdata : PropertyValue data "property" = Some tag)
    (Hsteady : singleTransition (self w) !! tag = None) :
  let '(ok, w1) := viewData_SetAnimated tag value (Some animation) w in
  let '(_, w2) := viewData_handleTransitionEvents event data w1 in
  let '(_, w3) := viewData_handleTransitionEvents event data w2 in
  ok = true
  /\ viewTransitions (self w1) !! tag = Some (Some animation)
  /\ singleTransition (self w1) !! tag = Some (default None (viewTransitions (self w) !! tag))
  /\ viewTransitions (self w2) =
       match viewTransitions (self w) !! tag with
       | Some None => delete tag (viewTransitions (self w))
       | _ => viewTransitions (self w)
       end
  /\ singleTransition (self w2) = singleTransition (self w)
  /\ self w3 = self w2.
Proof.
  pose proof (SetAnimated_accepted tag value animation w Hset) as H1.
  destruct (viewData_SetAnimated tag value (Some animation) w) as [ok w1].
  destruct H1 as (-> & HT1 & HS1).
  pose proof (terminal_event_spec event tag data w1 Hevent Hdata) as H2.
  destruct (viewData_handleTransitionEvents event data w1) as [[] w2].
  rewrite HS1, lookup_insert_eq in H2. destruct H2 as (HS2 & HT2).
  pose proof (terminal_event_spec event tag data w2 Hevent Hdata) as H3.
  destruct (viewData_handleTransitionEvents event data w2) as [[] w3].
  rewrite HS2, lookup_delete_eq in H3. destruct H3 as (H3 & _).
  split_and!; [done | | | | | done].
  - rewrite HT1. apply lookup_insert_eq.
  - rewrite HS1. apply lookup_insert_eq.
  - rewrite HT2, HT1.
    destruct (viewTransitions (self w) !! tag) as [[previous |] |] eqn:Hprev; simpl.
    + rewrite insert_insert_eq. by apply insert_id.
    + by rewrite delete_insert_eq.
    + rewrite delete_insert_eq. by apply delete_id.
  - rewrite HS2, delete_insert_eq. by apply delete_id.
Qed.

(** Setting "id" or "user-data" succeeds and leaves the tables alone. *)
Lemma Set_user_data `{ViewExt} (value : value) (w1 : World viewData) :
  isNil value = false ->
  let r := viewData_Set UserData value w1 in
  fst r = true
  /\ viewTransitions (self (snd r)) = viewTransitions (self w1)
  /\ singleTransition (self (snd r)) = singleTransition (self w1).
Proof.
  intros Hnil. cbv zeta. unfold viewData_Set, viewData_set. rewrite Hnil.
  change (ToLower UserData) with UserData.
  change (String.eqb UserData ID) with false.
  change (String.eqb UserData UserData) with true. cbv iota.
  cbv [bind update modify]. rewrite propertyChangedEvent_ungrouped by (by vm_compute).
  by simpl.
Qed.

(** The theorem for an override of "user-data" on a fresh view. *)
Lemma override_and_its_end_witness :
  let data := dataObject EmptyString [TextNode "property" UserData] in
  let '(ok, w1) := viewData_SetAnimated (H := Samples.viewExt) UserData (VInt 1)
                     (Some Samples.A1) (Samples.world0 Samples.view0) in
  let '(_, w2) := viewData_handleTransitionEvents (H := Samples.viewExt)
                    TransitionEndEvent data w1 in
  viewTransitions (self w1) !! UserData = Some (Some Samples.A1)
  /\ viewTransitions (self w2) = viewTransitions Samples.view0
  /\ singleTransition (self w2) = singleTransition Samples.view0.
Proof.
  cbv zeta.
  pose proof (override_and_its_end (H := Samples.viewExt) UserData (VInt 1) Samples.A1
                TransitionEndEvent (dataObject EmptyString [TextNode "property" UserData])
                (Samples.world0 Samples.view0)
                (fun w1 => Set_user_data (VInt 1) w1 eq_refl)
                (or_introl eq_refl) eq_refl eq_refl) as Hthm.
  destruct (viewData_SetAnimated _ _ _ _) as [ok w1].
  destruct (viewData_handleTransitionEvents _ _ w1) as [[] w2].
  destruct (viewData_handleTransitionEvents _ _ w2) as [[] w3].
  destruct Hthm as (_ & H1 & _ & H2 & H3 & _). done.
Defined.

(** X16. Overrides do not stack: when a second override of a tag starts
    before the first has ended, the first override takes the place of the
    declared transition in [singleTransition], and the end of the transition
    installs the first override in [transitions] for good. What was
    declared before the first override is lost. *)
Theorem second_override_loses_the_declared_transition `{ViewExt} (tag : string)
    (value1 value2 : value) (first second : animRef) (event : string) (data : DataObject)
    (w : World viewData)
    (Hset : forall value (w1 : World viewData),
        value = value1 \/ value = value2 ->
        let r := viewData_Set tag value w1 in
        fst r = true
        /\ viewTransitions (self (snd r)) = viewTransitions (self w1)
        /\ singleTransition (self (snd r)) = singleTransition (self w1))
    (Hevent : terminalEvent event)
    (Hdata : PropertyValue data "property" = Some tag) :
  let '(ok1, w1) := viewData_SetAnimated tag value1 (Some first) w in
  let '(ok2, w2) := viewData_SetAnimated tag value2 (Some second) w1 in
  let '(_, w3) := viewData_handleTransitionEvents event data w2 in
  ok1 = true /\ ok2 = true
  /\ singleTransition (self w2) !! tag = Some (Some first)
  /\ viewTransitions (self w3) !! tag = Some (Some first)
  /\ singleTransition (self w3) !! tag = None.
Proof.
  pose proof (SetAnimated_accepted tag value1 first w
                (fun w1 => Hset value1 w1 (or_introl eq_refl))) as H1.
  destruct (viewData_SetAnimated tag value1 (Some first) w) as [ok1 w1].
  destruct H1 as (-> & HT1 & HS1).
  pose proof (SetAnimated_accepted tag value2 second w1
                (fun w2 => Hset value2 w2 (or_intror eq_refl))) as H2.
  destruct (viewData_SetAnimated tag value2 (Some second) w1) as [ok2 w2].
  destruct H2 as (-> & HT2 & HS2).
  rewrite HT1, lookup_insert_eq in HS2. simpl in HS2.
  pose proof (terminal_event_spec event tag data w2 Hevent Hdata) as H3.
  destruct (viewData_handleTransitionEvents event data w2) as [[] w3].
  rewrite HS2, lookup_insert_eq in H3. destruct H3 as (HS3 & HT3).
  split_and!; [done | done | | |].
  - rewrite HS2. apply lookup_insert_eq.
  - rewrite HT3. apply lookup_insert_eq.
  - rewrite HS3. apply lookup_delete_eq.
Qed.

(** The theorem for two overrides of "user-data" on a view that declares
    no transition: after the end, the first override is declared. *)
Lemma second_override_loses_the_declared_transition_witness :
  let data := dataObject EmptyString [TextNode "property" UserData] in
  let '(ok1, w1) := viewData_SetAnimated (H := Samples.viewExt) UserData (VInt 1)
                      (Some Samples.A1) (Samples.world0 Samples.view0) in
  let '(ok2, w2) := viewData_SetAnimated (H := Samples.viewExt) UserData (VInt 2)
                      (Some Samples.A2) w1 in
  let '(_, w3) := viewData_handleTransitionEvents (H := Samples.viewExt)
                    TransitionEndEvent data w2 in
  viewTransitions Samples.view0 !! UserData = None
  /\ viewTransitions (self w3) !! UserData = Some (Some Samples.A1).
Proof.
  cbv zeta.
  pose proof (second_override_loses_the_declared_transition (H := Samples.viewExt)
                UserData (VInt 1) (VInt 2) Samples.A1 Samples.A2 TransitionEndEvent
                (dataObject EmptyString [TextNode "property" UserData])
                (Samples.world0 Samples.view0)) as Hthm.
  destruct (viewData_SetAnimated _ _ _ _) as [ok1 w1].
  destruct (viewData_SetAnimated _ _ _ w1) as [ok2 w2].
  destruct (viewData_handleTransitionEvents _ _ w2) as [[] w3].
  destruct Hthm as (_ & _ & _ & H3 & _).
  - intros value w0 [-> | ->]; by apply Set_user_data.
  - by left.
  - reflexivity.
  - done.
Defined.

(** ** Change listeners *)

Lemma propertyChangedEvent_spec (tag : string) (w : World viewData) :
  exists group : option string,
    group <> Some tag
    /\ viewData_propertyChangedEvent tag w =
         (tt, mkWorld (self w) (session w)
                (trace w
                 ++ match changeListener (self w) !! tag with
                    | Some listener => [call listener tag]
                    | None => []
                    end
                 ++ match group with
                    | Some groupTag =>
                        match changeListener (self w) !! groupTag with
                        | Some listener => [call listener groupTag]
                        | None => []
                        end
                    | None => []
                    end) (heap w)).
Proof.
  unfold viewData_propertyChangedEvent. cbv [bind me]. cbv zeta.
  match goal with
  | |- context [match (if isOneOf tag ?l then ?a else ?b) with _ => _ end] =>
      set (group := if isOneOf tag l then a else b)
  end.
  exists group. split.
  - subst group. intros Hgroup.
    repeat match type of Hgroup with
    | (if isOneOf tag ?l then _ else _) = _ =>
        let Hl := fresh "Hl" in
        destruct (isOneOf tag l) eqn:Hl;
        [ injection Hgroup as <-; vm_compute in Hl; discriminate |]
    end.
    discriminate.
  - destruct (changeListener (self w) !! tag) as [listener |];
      destruct group as [groupTag |]; cbv [emit ret]; cbn [self session trace heap];
      try destruct (changeListener (self w) !! groupTag) as [groupListener |];
      cbn [self session trace heap]; rewrite <- ?app_assoc, ?app_nil_r; try reflexivity;
      by destruct w.
Qed.

(** X17. A change listener set with [SetChangeListener] is the first to
    be told of a change of its tag, and it is told once; the only other call
    that [propertyChangedEvent] can make is to the listener of the group of
    the tag, with the tag of the group. Setting a nil listener removes the
    entry: no listener is told of the tag any more. Nothing else of the view
    changes in either step. *)
Theorem change_listener_is_told (tag : string) (listener : listener) (w : World viewData) :
  let '(_, w1) := viewData_SetChangeListener tag listener w in
  let told := issued (viewData_propertyChangedEvent tag) w1 in
  changeListener (self w1) !! tag =
    (if isNilListener listener then None else Some listener)
  /\ (forall other, other <> tag ->
        changeListener (self w1) !! other = changeListener (self w) !! other)
  /\ style (self w1) = style (self w)
  /\ singleTransition (self w1) = singleTransition (self w)
  /\ trace w1 = trace w
  /\ self (snd (viewData_propertyChangedEvent tag w1)) = self w1
  /\ (isNilListener listener = false ->
      exists rest, told = call listener tag :: rest
                   /\ (length rest <= 1)%nat
                   /\ forall f, call f tag ∉ rest)
  /\ (isNilListener listener = true -> forall f, call f tag ∉ told).
Proof.
  unfold viewData_SetChangeListener.
  destruct (propertyChangedEvent_spec tag
              (snd ((if isNilListener listener
                     then update (withChangeListener (delete tag))
                     else update (withChangeListener <[tag:=listener]>)) w)))
    as (group & Hgroup & Hevent).
  destruct (isNilListener listener) eqn:Hnil; cbv [update modify withSelf] in *;
    cbn [fst snd self session trace heap] in *; unfold issued; rewrite Hevent;
    cbn [self session trace heap snd]; rewrite drop_app_length.
  - split_and!; try done.
    + simpl. apply lookup_delete_eq.
    + intros other Hother. simpl. by rewrite lookup_delete_ne.
    + intros _ f. simpl changeListener. rewrite lookup_delete_eq. simpl.
      destruct group as [groupTag |]; [| apply not_elem_of_nil].
      destruct (delete tag (changeListener (self w)) !! groupTag); [| apply not_elem_of_nil].
      intros Hin%list_elem_of_singleton. injection Hin as _ <-. by destruct Hgroup.
  - split_and!; try done.
    + simpl. apply lookup_insert_eq.
    + intros other Hother. simpl. by rewrite lookup_insert_ne.
    + intros _. simpl changeListener. rewrite lookup_insert_eq. simpl. eexists.
      split; [reflexivity |].
      destruct group as [groupTag |]; [| split; [simpl; lia | intros f; apply not_elem_of_nil]].
      destruct (<[tag:=listener]> (changeListener (self w)) !! groupTag);
        [| split; [simpl; lia | intros f; apply not_elem_of_nil]].
      split; [simpl; lia |]. intros f Hin%list_elem_of_singleton.
      injection Hin as _ <-. by destruct Hgroup.
Qed.

(** ** Drop-down lists *)

(** A method of the embedded view leaves the fields of the list alone. *)
Lemma onListView_fields {A} (m : M (World viewData) A) (w : World dropDownListData) :
  let '(_, w') := onListView m w in
  items (self w') = items (self w)
  /\ disabledItems (self w') = disabledItems (self w)
  /\ dropDownListener (self w') = dropDownListener (self w)
  /\ listView (self w') = self (snd (m (mkWorld (listView (self w)) (session w) (trace w) (heap w))))
  /\ session w' = session (snd (m (mkWorld (listView (self w)) (session w) (trace w) (heap w))))
  /\ trace w' = trace (snd (m (mkWorld (listView (self w)) (session w) (trace w) (heap w)))).
Proof.
  unfold onListView, embedded.
  by destruct (m (mkWorld (listView (self w)) (session w) (trace w) (heap w))) as [a w1].
Qed.

Lemma wrapIndexListenersLoop_spec (l : list goFunc) (captured : goFunc) :
  wrapIndexListenersLoop l captured =
    if existsb isNilFunc l then None
    else Some (replicate (length l) (wrapIndex captured)).
Proof.
  induction l as [|f l IH]; [done |]. simpl.
  destruct (isNilFunc f); [done |]. simpl. rewrite IH. by destruct (existsb isNilFunc l).
Qed.

Lemma wrapIndexListeners_spec (l : list goFunc) :
  wrapIndexListeners l =
    if existsb isNilFunc l then None
    else Some (replicate (length l) (wrapIndex (List.last l nilFunc))).
Proof. apply wrapIndexListenersLoop_spec. Qed.

(** What [setDropDownListener] does with the listeners it takes. *)
Lemma setDropDownListener_accepts `{ViewExt} (listeners : list dropDownFunc)
    (w : World dropDownListData) :
  let '(ok, w') :=
    (update (withDropDownListener listeners) ;;
     onListView (viewData_propertyChangedEvent DropDownEvent) ;; ret true) w in
  ok = true
  /\ session w' = session w
  /\ listView (self w') = listView (self w)
  /\ items (self w') = items (self w)
  /\ disabledItems (self w') = disabledItems (self w)
  /\ dropDownListener (self w') = listeners
  /\ trace w' = trace w ++
       match changeListener (listView (self w)) !! DropDownEvent with
       | Some listener => [call listener DropDownEvent]
       | None => []
       end.
Proof.
  cbv [bind update modify ret].
  pose proof (onListView_fields (viewData_propertyChangedEvent DropDownEvent)
                (withSelf (withDropDownListener listeners) w)) as Hfields.
  destruct (onListView _ _) as [[] w'].
  rewrite propertyChangedEvent_ungrouped in Hfields by (by vm_compute).
  cbn [self session trace heap snd withSelf] in Hfields.
  destruct Hfields as (Hi & Hd & Hl & Hv & Hs & Ht). split_and!; done.
Qed.

(** X18. [setDropDownListener] either refuses the value, and then leaves
    the list as it was and writes one line to the log, or replaces the
    listeners of the list and tells the change listener of
    "drop-down-event"; it never touches the items, the embedded view or the
    session. A list of functions of a list and an index is stored as it is,
    be it empty or with nil elements; a list of functions of an index is
    refused when one of them is nil, and otherwise stored as a list of the
    same length of closures that all call the last function of the list,
    the closures sharing the one variable of the loop. *)
Theorem drop_down_listener_is_stored `{ViewExt} (value : value)
    (w : World dropDownListData) :
  let '(ok, w') := dropDownListData_setDropDownListener value w in
  session w' = session w
  /\ listView (self w') = listView (self w)
  /\ items (self w') = items (self w)
  /\ disabledItems (self w') = disabledItems (self w)
  /\ (ok = false ->
      dropDownListener (self w') = dropDownListener (self w)
      /\ trace w' = trace w ++ [notCompatibleType DropDownEvent value])
  /\ (ok = true ->
      trace w' = trace w ++
        match changeListener (listView (self w)) !! DropDownEvent with
        | Some listener => [call listener DropDownEvent]
        | None => []
        end)
  /\ (forall listeners, value = VDropDownListeners listeners ->
        ok = true /\ dropDownListener (self w') = listeners)
  /\ (forall functions, value = VSliceFuncInt functions ->
        if existsb isNilFunc functions then ok = false
        else ok = true
             /\ dropDownListener (self w') =
                  replicate (length functions) (wrapIndex (List.last functions nilFunc))).
Proof.
  pose proof (fun listeners => setDropDownListener_accepts listeners w) as Haccept.
  assert (Hreject :
    let '(ok, w') :=
      (emit (notCompatibleType DropDownEvent value) ;; ret false) w in
    ok = false /\ self w' = self w /\ session w' = session w
    /\ trace w' = trace w ++ [notCompatibleType DropDownEvent value]).
  { by cbv [bind emit ret]. }
  unfold dropDownListData_setDropDownListener. cbv zeta.
  destruct value;
    try (destruct ((emit (notCompatibleType DropDownEvent _) ;; ret false) w)
           as [ok w'];
         destruct Hreject as (-> & Hself & Hsession & Htrace); rewrite Hself;
         split_and!; done).
  - (* a heterogeneous list *)
    destruct (convertDropDownListeners l) as [listeners |].
    + specialize (Haccept listeners).
      destruct ((update (withDropDownListener listeners) ;; _) w) as [ok w'].
      destruct Haccept as (-> & ? & ? & ? & ? & ? & ?). split_and!; done.
    + destruct ((emit (notCompatibleType DropDownEvent _) ;; ret false) w)
        as [ok w'].
      destruct Hreject as (-> & Hself & Hsession & Htrace). rewrite Hself.
      split_and!; done.
  - (* one function of a list and an index *)
    specialize (Haccept [f]).
    destruct ((update (withDropDownListener [f]) ;; _) w) as [ok w'].
    destruct Haccept as (-> & ? & ? & ? & ? & ? & ?). split_and!; done.
  - (* one function of an index *)
    specialize (Haccept [wrapIndex f]).
    destruct ((update (withDropDownListener [wrapIndex f]) ;; _) w) as [ok w'].
    destruct Haccept as (-> & ? & ? & ? & ? & ? & ?). split_and!; done.
  - (* a list of functions of a list and an index *)
    specialize (Haccept l).
    destruct ((update (withDropDownListener l) ;; _) w) as [ok w'].
    destruct Haccept as (-> & ? & ? & ? & ? & ? & ?). split_and!; try done.
    by intros listeners [= <-].
  - (* a list of functions of an index *)
    rewrite wrapIndexListeners_spec. destruct (existsb isNilFunc l) eqn:Hnil.
    + destruct ((emit (notCompatibleType DropDownEvent _) ;; ret false) w)
        as [ok w'].
      destruct Hreject as (-> & Hself & Hsession & Htrace). rewrite Hself.
      split_and!; try done. intros functions [= <-]. by rewrite Hnil.
    + specialize (Haccept (replicate (length l) (wrapIndex (List.last l nilFunc)))).
      destruct ((update (withDropDownListener _) ;; _) w) as [ok w'].
      destruct Haccept as (-> & ? & ? & ? & ? & ? & ?). split_and!; try done.
      intros functions [= <-]. by rewrite Hnil.
Qed.

(** X19. Removing the items, the disabled items or the listeners of a
    drop-down list a second time does nothing at all: the first [remove]
    leaves the field empty, and on an empty field [remove] changes nothing,
    sends nothing and tells no listener. *)
Theorem drop_down_remove_twice `{ViewExt} `{DropDownExt} (tag : string)
    (w : World dropDownListData)
    (Htag : tag ∈ [Items; DisabledItems; DropDownEvent]) :
  let '(_, w1) := dropDownListData_remove tag w in
  dropDownListData_remove tag w1 = (tt, w1)
  /\ (tag = Items -> items (self w1) = [])
  /\ (tag = DisabledItems -> disabledItems (self w1) = [])
  /\ (tag = DropDownEvent -> dropDownListener (self w1) = [])
  /\ (dropDownListData_remove tag w = (tt, w) \/ w1 <> w).
Proof.
  assert (Hrefresh : forall w0 : World dropDownListData,
    let '(_, w') := dropDownListData_refresh w0 in
    items (self w') = items (self w0)
    /\ disabledItems (self w') = disabledItems (self w0)
    /\ dropDownListener (self w') = dropDownListener (self w0)).
  { intros w0. unfold dropDownListData_refresh. cbv [bind me].
    destruct (created (listView (self w0))); [| done].
    pose proof (onListView_fields viewData_htmlID w0) as Hfields.
    destruct (onListView viewData_htmlID w0) as [id w'].
    destruct Hfields as (? & ? & ? & _). by cbv [emit]. }
  revert Htag. rewrite !elem_of_cons, elem_of_nil. intros [-> | [-> | [-> | []]]].
  - (* items *)
    unfold dropDownListData_remove at 1. cbv [bind me]. cbn [self].
    change (String.eqb Items Items) with true. cbv iota.
    destruct (items (self w)) as [|item rest] eqn:Hitems; simpl length; cbv iota.
    + change (0 <? length (@nil _))%nat with false. cbv beta iota. unfold ret.
      assert (dropDownListData_remove Items w = (tt, w)) as Hnoop.
      { unfold dropDownListData_remove. cbv [bind me]. cbn [self].
        change (String.eqb Items Items) with true. cbv iota. by rewrite Hitems. }
      split_and!; try done. by left.
    + change (0 <? length (item :: rest))%nat with true. cbv beta iota. cbv [update modify]. cbv beta iota zeta.
      pose proof (Hrefresh (withSelf (withItems []) w)) as Hr.
      destruct (dropDownListData_refresh _) as [[] w0]. cbv beta iota zeta.
      pose proof (onListView_fields (viewData_propertyChangedEvent Items) w0) as Hf.
      destruct (onListView _ w0) as [[] w1]. cbv beta iota zeta.
      destruct Hr as (Hi0 & _). destruct Hf as (Hi1 & _).
      assert (items (self w1) = []) as Hempty by (by rewrite Hi1, Hi0).
      split_and!; try done.
      * unfold dropDownListData_remove. cbv [bind me]. cbn [self].
        change (String.eqb Items Items) with true. cbv iota. by rewrite Hempty.
      * right. intros ->. by rewrite Hitems in Hempty.
  - (* disabled items *)
    unfold dropDownListData_remove at 1. cbv [bind me]. cbn [self].
    change (String.eqb DisabledItems Items) with false.
    change (String.eqb DisabledItems DisabledItems) with true. cbv iota.
    destruct (disabledItems (self w)) as [|item rest] eqn:Hitems; simpl length; cbv iota.
    + change (0 <? length (@nil _))%nat with false. cbv beta iota. unfold ret.
      assert (dropDownListData_remove DisabledItems w = (tt, w)) as Hnoop.
      { unfold dropDownListData_remove. cbv [bind me]. cbn [self].
        change (String.eqb DisabledItems Items) with false.
        change (String.eqb DisabledItems DisabledItems) with true. cbv iota.
        by rewrite Hitems. }
      split_and!; try done. by left.
    + change (0 <? length (item :: rest))%nat with true. cbv beta iota. cbv [update modify]. cbv beta iota zeta.
      pose proof (Hrefresh (withSelf (withDisabledItems []) w)) as Hr.
      destruct (dropDownListData_refresh _) as [[] w0]. cbv beta iota zeta.
      pose proof (onListView_fields (viewData_propertyChangedEvent DisabledItems) w0)
        as Hf.
      destruct (onListView _ w0) as [[] w1]. cbv beta iota zeta.
      destruct Hr as (_ & Hd0 & _). destruct Hf as (_ & Hd1 & _).
      assert (disabledItems (self w1) = []) as Hempty by (by rewrite Hd1, Hd0).
      split_and!; try done.
      * unfold dropDownListData_remove. cbv [bind me]. cbn [self].
        change (String.eqb DisabledItems Items) with false.
        change (String.eqb DisabledItems DisabledItems) with true. cbv iota.
        by rewrite Hempty.
      * right. intros ->. by rewrite Hitems in Hempty.
  - (* listeners *)
    unfold dropDownListData_remove at 1. cbv [bind me]. cbn [self].
    change (String.eqb DropDownEvent Items) with false.
    change (String.eqb DropDownEvent DisabledItems) with false.
    change (String.eqb DropDownEvent DropDownEvent) with true. cbv iota.
    destruct (dropDownListener (self w)) as [|item rest] eqn:Hitems; simpl length;
      cbv iota.
    + change (0 <? length (@nil _))%nat with false. cbv beta iota. unfold ret.
      assert (dropDownListData_remove DropDownEvent w = (tt, w)) as Hnoop.
      { unfold dropDownListData_remove. cbv [bind me]. cbn [self].
        change (String.eqb DropDownEvent Items) with false.
        change (String.eqb DropDownEvent DisabledItems) with false.
        change (String.eqb DropDownEvent DropDownEvent) with true. cbv iota.
        by rewrite Hitems. }
      split_and!; try done. by left.
    + change (0 <? length (item :: rest))%nat with true. cbv beta iota. cbv [update modify]. cbv beta iota zeta.
      pose proof (onListView_fields (viewData_propertyChangedEvent DropDownEvent)
                    (withSelf (withDropDownListener []) w)) as Hf.
      destruct (onListView _ _) as [[] w1]. cbv beta iota zeta.
      destruct Hf as (_ & _ & Hl1 & _).
      assert (dropDownListener (self w1) = []) as Hempty by (by rewrite Hl1).
      split_and!; try done.
      * unfold dropDownListData_remove. cbv [bind me]. cbn [self].
        change (String.eqb DropDownEvent Items) with false.
        change (String.eqb DropDownEvent DisabledItems) with false.
        change (String.eqb DropDownEvent DropDownEvent) with true. cbv iota.
        by rewrite Hempty.
      * right. intros ->. by rewrite Hitems in Hempty.
Qed.

(** The theorem for the items of a list of two items. *)
Lemma drop_down_remove_twice_witness :
  let list := mkDropDownList Samples.view0 ["one"; "two"] [] [] in
  let '(_, w1) := dropDownListData_remove (H := Samples.viewExt) (H0 := Samples.dropDownExt)
                    Items (Samples.world0 list) in
  items (self w1) = []
  /\ dropDownListData_remove (H := Samples.viewExt) (H0 := Samples.dropDownExt) Items w1 =
       (tt, w1).
Proof.
  cbv zeta.
  pose proof (drop_down_remove_twice (H := Samples.viewExt) (H0 := Samples.dropDownExt)
                Items (Samples.world0 (mkDropDownList Samples.view0 ["one"; "two"] [] []))
                (list_elem_of_here _ _)) as Hthm.
  destruct (dropDownListData_remove _ _) as [[] w1].
  destruct Hthm as (Htwice & Hitems & _). split; [by apply Hitems | done].
Defined.


(** ** [SetAnimated] on a drop-down list

    C9 does not hold on the sources. [SetAnimated] is declared for
    [viewData] only, and a drop-down list has it through the view that it
    embeds: there the call with a nil animation is [Set] of the embedded
    view, not the [Set] of the list. On a drop-down list,
    [SetAnimated(tag, value, nil)] therefore never changes the items, the
    disabled items and the listeners of the list, whatever the tag and the
    value, while [Set] does for the tags of the list:
    [Set("drop-down-event", f)] for a function [f] of an index returns true
    and makes [f] the one listener of the list, and
    [SetAnimated("drop-down-event", f, nil)] leaves the listeners as they
    were, so that the two calls differ unless [f] was the one listener
    already. *)
Theorem SetAnimated_without_animation_skips_the_list `{ViewExt} `{DropDownExt}
    (dropDown : dropDownListData) (f : goFunc) (w : World viewObject)
    (Hlist : self w = DropDownView dropDown) :
  (forall tag value,
     let '(_, w') := View_SetAnimated tag value None w in
     exists after,
       self w' = DropDownView after
       /\ items after = items dropDown
       /\ disabledItems after = disabledItems dropDown
       /\ dropDownListener after = dropDownListener dropDown)
  /\ (let '(ok, w') := View_Set DropDownEvent (VFuncInt f) w in
      ok = true
      /\ exists after,
           self w' = DropDownView after /\ dropDownListener after = [wrapIndex f])
  /\ (dropDownListener dropDown <> [wrapIndex f] ->
      View_SetAnimated DropDownEvent (VFuncInt f) None w <>
        View_Set DropDownEvent (VFuncInt f) w).
Proof.
  assert (Hanimated : forall tag value,
     let '(_, w') := View_SetAnimated tag value None w in
     exists after,
       self w' = DropDownView after
       /\ items after = items dropDown
       /\ disabledItems after = disabledItems dropDown
       /\ dropDownListener after = dropDownListener dropDown).
  { intros tag value. unfold View_SetAnimated, dispatch. rewrite Hlist.
    pose proof (onListView_fields (viewData_SetAnimated tag value None)
                  (mkWorld dropDown (session w) (trace w) (heap w))) as Hfields.
    destruct (onListView _ _) as [ok w1]. cbn [self] in Hfields.
    destruct Hfields as (Hi & Hd & Hl & _). exists (self w1). by split_and!. }
  assert (Hset :
     let '(ok, w') := View_Set DropDownEvent (VFuncInt f) w in
     ok = true
     /\ exists after,
          self w' = DropDownView after /\ dropDownListener after = [wrapIndex f]).
  { unfold View_Set, dispatch. rewrite Hlist.
    change (dropDownListData_Set DropDownEvent (VFuncInt f))
      with (update (withDropDownListener [wrapIndex f]) ;;
            onListView (viewData_propertyChangedEvent DropDownEvent) ;; ret true).
    pose proof (setDropDownListener_accepts [wrapIndex f]
                  (mkWorld dropDown (session w) (trace w) (heap w))) as Hacc.
    destruct ((update _ ;; _) _) as [ok w1].
    destruct Hacc as (-> & _ & _ & _ & _ & Hl & _).
    split; [done |]. by exists (self w1). }
  split_and!; [exact Hanimated | exact Hset |].
  intros Hne Heq. specialize (Hanimated DropDownEvent (VFuncInt f)).
  rewrite Heq in Hanimated.
  destruct (View_Set DropDownEvent (VFuncInt f) w) as [ok w'].
  destruct Hanimated as (after & Hself & _ & _ & Hkept).
  destruct Hset as (_ & after' & Hself' & Hnew).
  rewrite Hself in Hself'. injection Hself' as <-. congruence.
Qed.

(** The theorem for a fresh drop-down list without listeners and the
    function 1: [Set] returns true, [SetAnimated] with a nil animation
    returns false, and the results differ. *)
Lemma SetAnimated_without_animation_skips_the_list_witness :
  let w := Samples.world0 (DropDownView (mkDropDownList Samples.view0 [] [] [])) in
  fst (View_Set (H := Samples.viewExt) (H0 := Samples.dropDownExt) DropDownEvent
         (VFuncInt (fn 1)) w) = true
  /\ fst (View_SetAnimated (H := Samples.viewExt) DropDownEvent (VFuncInt (fn 1)) None w)
     = false
  /\ View_SetAnimated (H := Samples.viewExt) DropDownEvent (VFuncInt (fn 1)) None w <>
       View_Set (H := Samples.viewExt) (H0 := Samples.dropDownExt) DropDownEvent
         (VFuncInt (fn 1)) w.
Proof.
  cbv zeta.
  pose proof (SetAnimated_without_animation_skips_the_list (H := Samples.viewExt)
                (H0 := Samples.dropDownExt) (mkDropDownList Samples.view0 [] [] [])
                (fn 1) (Samples.world0 (DropDownView (mkDropDownList Samples.view0 [] [] [])))
                eq_refl) as (_ & Hset & Hdiffer).
  split_and!.
  - by destruct (View_Set _ _ _) as [ok w'], Hset as [-> _].
  - reflexivity.
  - apply Hdiffer. discriminate.
Defined.

(** ** Timing functions, again *)

Lemma Trim_blank (s : string) : Trim (String " " s) blanks = Trim s blanks.
Proof. reflexivity. Qed.

Lemma comma_blank (a b : string) : a +:+ ", " +:+ b = a +:+ "," +:+ String " " b.
Proof. by rewrite !app_cons, !app_nil. Qed.

(** X21. The timing function that [CubicBezierTiming] builds is valid,
    whatever its four arguments, as long as the numbers that can be written
    (the arguments, and 0 and 1 for an abscissa out of range) are written by
    [%g] without a comma and in a form that [ParseFloat] takes. *)
Theorem CubicBezierTiming_is_valid `{Strconv} `{FloatOrder} (x1 y1 x2 y2 : float64)
    (Hprintable : Forall printable [floatOfInt 0; floatOfInt 1; x1; y1; x2; y2]) :
  validateTimingFunction (CubicBezierTiming x1 y1 x2 y2) = true.
Proof.
  apply Forall_cons in Hprintable as [Hzero Hprintable].
  apply Forall_cons in Hprintable as [Hone Hprintable].
  apply Forall_cons in Hprintable as [Hx1 Hprintable].
  apply Forall_cons in Hprintable as [Hy1 Hprintable].
  apply Forall_cons in Hprintable as [Hx2 Hprintable].
  apply Forall_cons in Hprintable as [Hy2 _].
  unfold CubicBezierTiming. cbv zeta.
  set (a := if floatLess x1 (floatOfInt 0) then floatOfInt 0
            else if floatLess (floatOfInt 1) x1 then floatOfInt 1 else x1).
  set (c := if floatLess x2 (floatOfInt 0) then floatOfInt 0
            else if floatLess (floatOfInt 1) x2 then floatOfInt 1 else x2).
  assert (printable a) as Ha.
  { subst a. destruct (floatLess x1 _); [done |]. by destruct (floatLess _ x1). }
  assert (printable c) as Hc.
  { subst c. destruct (floatLess x2 _); [done |]. by destruct (floatLess _ x2). }
  assert (forall x, printable x ->
            occurs "," (String " " (formatG x)) = false
            /\ ParseFloat (Trim (String " " (formatG x)) blanks) = true) as Hblank.
  { intros x [Hcomma Hparse]. rewrite Trim_blank. split; [| done]. simpl. exact Hcomma. }
  apply validate_iff. right. right. right.
  exists (formatG a), (String " " (formatG y1)), (String " " (formatG c)),
         (String " " (formatG y2)).
  split.
  - by rewrite !comma_blank.
  - repeat (apply Forall_cons_2; [first [assumption | by apply Hblank] |]).
    apply Forall_nil_2.
Qed.

(** The theorem for abscissas out of range on the integers:
    "cubic-bezier(1, 0, 0, 1)". *)
Lemma CubicBezierTiming_is_valid_witness :
  CubicBezierTiming (H0 := integerOrder) 5%Z 0%Z (-3)%Z 1%Z = "cubic-bezier(1, 0, 0, 1)"
  /\ validateTimingFunction (H := Samples.strconv)
       (CubicBezierTiming (H0 := integerOrder) 5%Z 0%Z (-3)%Z 1%Z) = true.
Proof.
  split; [reflexivity |].
  apply (CubicBezierTiming_is_valid (H := Samples.strconv) (H1 := integerOrder)).
  repeat (apply Forall_cons_2; [split; reflexivity |]). apply Forall_nil_2.
Defined.

(** X22. [writeTransitionString] writes the timing function of an animation
    only when it holds a blank, a comma or a parenthesis, and then in
    quotes; for any other text that is not empty, as for the five named
    timing functions, it writes "timing-function = " and no value: two
    animations that differ in such a timing function only are written
    alike. *)
Theorem plain_timing_function_is_not_written `{AnimationExt} (animation : animationData)
    (tag text1 text2 : string)
    (Htext1 : text1 <> EmptyString) (Htext2 : text2 <> EmptyString)
    (Hplain1 : ContainsAny text1 " ,()" = false)
    (Hplain2 : ContainsAny text2 " ,()" = false) :
  let with_timing (text : string) :=
    withAnimationProperties (setProperty TimingFunction (VString text)) animation in
  animationData_writeTransitionString (with_timing text1) tag =
    animationData_writeTransitionString (with_timing text2) tag
  /\ exists written,
       animationData_writeTransitionString (with_timing text1) tag =
         written +:+ "timing-function = " +:+ " }".
Proof.
  cbv zeta. unfold animationData_writeTransitionString, getRaw. simpl.
  rewrite !lookup_insert_eq, !lookup_insert_ne by done. simpl.
  destruct (String.eqb_spec text1 EmptyString) as [? | _]; [done |].
  destruct (String.eqb_spec text2 EmptyString) as [? | _]; [done |].
  rewrite Hplain1, Hplain2. simpl. split; [done |].
  destruct (default VNil (properties (animationProperties animation) !! Duration));
    destruct (default VNil (properties (animationProperties animation) !! Delay));
    eexists; rewrite ?app_empty_r, <- ?app_assoc_s; f_equal;
    rewrite app_assoc_s; reflexivity.
Qed.

(** The theorem for "ease-in" and "linear". *)
Lemma plain_timing_function_is_not_written_witness :
  animationData_writeTransitionString (H := Samples.animationExt)
    (withAnimationProperties (setProperty TimingFunction (VString "ease-in"))
       Samples.animation0) "opacity"
  = animationData_writeTransitionString (H := Samples.animationExt)
      (withAnimationProperties (setProperty TimingFunction (VString "linear"))
         Samples.animation0) "opacity".
Proof.
  refine (proj1 (plain_timing_function_is_not_written (H := Samples.animationExt)
                   Samples.animation0 "opacity" "ease-in" "linear" _ _ _ _));
    first [ discriminate | reflexivity ].
Defined.

(** ** The animations of a style *)

Lemma animationCSS_step `{Strconv} `{AnimationExt} (w : World animationData) :
  let '(css, w') := animationData_animationCSS w in
  animationProperties (self w') = animationProperties (self w)
  /\ (keyFramesName (self w) <> EmptyString -> w' = w)
  /\ (forall props,
        getRaw (animationProperties (self w)) PropertyTag = VAnimatedProperties props ->
        keyFramesName (self w') <> EmptyString).
Proof.
  destruct (String.eqb_spec (keyFramesName (self w)) EmptyString) as [Hname | Hname].
  - unfold animationData_animationCSS, bind, me. cbn [self]. rewrite Hname.
    change (String.eqb EmptyString EmptyString) with true. cbv iota.
    destruct (getRaw (animationProperties (self w)) PropertyTag) eqn:Hraw;
      cbv [emit ret]; cbn [self]; split_and!; done.
  - rewrite animationCSS_named by done. split_and!; done.
Qed.

Lemma atAnimation_step `{Strconv} `{AnimationExt} (r : animRef)
    (w : World (gmap animRef animationData)) :
  let '(css, w') := atAnimation r animationData_animationCSS EmptyString w in
  match self w !! r with
  | None => w' = w
  | Some animation =>
      exists animation',
        self w' = <[r := animation']> (self w)
        /\ animationProperties animation' = animationProperties animation
        /\ (keyFramesName animation <> EmptyString -> w' = w)
        /\ (forall props,
              getRaw (animationProperties animation) PropertyTag =
                VAnimatedProperties props ->
              keyFramesName animation' <> EmptyString)
  end.
Proof.
  unfold atAnimation. destruct (self w !! r) as [animation |] eqn:Hr; [| done].
  pose proof (animationCSS_step (mkWorld animation (session w) (trace w) (heap w))) as Hstep.
  destruct (animationData_animationCSS _) as [css w1]. cbn [self] in Hstep.
  destruct Hstep as (Hprops & Hnamed & Hnames).
  exists (self w1). split_and!; [done | done | | done].
  intros Hname. rewrite (Hnamed Hname). cbn [self session trace heap].
  rewrite insert_id by done. by destruct w.
Qed.

(** The animations of the list that are in the store keep their property
    lists, those with a name stay as they are, and the other animations of
    the store are not touched. *)
Lemma viewStyle_animationCSS_keeps `{Strconv} `{AnimationExt} (animations : list animRef)
    (buffer : string) (w : World (gmap animRef animationData)) :
  let '(_, w') := viewStyle_animationCSS animations buffer w in
  (forall r animation, self w !! r = Some animation ->
     exists animation',
       self w' !! r = Some animation'
       /\ animationProperties animation' = animationProperties animation
       /\ (keyFramesName animation <> EmptyString -> animation' = animation))
  /\ (forall r, r ∉ animations -> self w' !! r = self w !! r).
Proof.
  revert buffer w. induction animations as [|first rest IH]; intros buffer w.
  - simpl. split; [| done]. intros r animation Hr. by exists animation.
  - simpl. unfold bind. pose proof (atAnimation_step first w) as Hstep.
    destruct (atAnimation first animationData_animationCSS EmptyString w) as [css w1].
    match goal with |- context [viewStyle_animationCSS rest ?b w1] =>
      specialize (IH b w1); destruct (viewStyle_animationCSS rest b w1) as [text w2]
    end.
    destruct IH as (IHkeep & IHother).
    assert (Hfirst : forall r animation, self w !! r = Some animation ->
              exists animation1,
                self w1 !! r = Some animation1
                /\ animationProperties animation1 = animationProperties animation
                /\ (keyFramesName animation <> EmptyString -> animation1 = animation)).
    { intros r animation Hr. destruct (self w !! first) as [a |] eqn:Ha.
      - destruct Hstep as (a' & Hself & Hprops & Hnamed & _). rewrite Hself.
        destruct (decide (r = first)) as [-> | Hne].
        + rewrite lookup_insert_eq. assert (a = animation) as -> by congruence.
          exists a'. split_and!; [done | done |].
          intros Hname. specialize (Hnamed Hname). subst w1.
          apply (f_equal (fun m => m !! first)) in Hself.
          rewrite lookup_insert_eq, Ha in Hself. congruence.
        + rewrite lookup_insert_ne by done. by exists animation.
      - subst w1. by exists animation. }
    split.
    + intros r animation Hr. destruct (Hfirst r animation Hr) as (a1 & Hr1 & Hp1 & Hn1).
      destruct (IHkeep r a1 Hr1) as (a2 & Hr2 & Hp2 & Hn2).
      exists a2. split_and!; [done | congruence |].
      intros Hname. rewrite <- (Hn1 Hname). apply Hn2. by rewrite (Hn1 Hname).
    + intros r [Hne Hrest]%not_elem_of_cons. rewrite (IHother r Hrest).
      destruct (self w !! first) as [a |] eqn:Ha.
      * destruct Hstep as (a' & Hself & _). rewrite Hself. by rewrite lookup_insert_ne.
      * by subst w1.
Qed.

(** After the loop every animation of the list that has a list of animated
    properties has a name. *)
Lemma viewStyle_animationCSS_names `{Strconv} `{AnimationExt} (animations : list animRef)
    (buffer : string) (w : World (gmap animRef animationData)) :
  let '(_, w') := viewStyle_animationCSS animations buffer w in
  forall r animation props,
    r ∈ animations -> self w !! r = Some animation ->
    getRaw (animationProperties animation) PropertyTag = VAnimatedProperties props ->
    exists animation', self w' !! r = Some animation'
                       /\ keyFramesName animation' <> EmptyString.
Proof.
  revert buffer w. induction animations as [|first rest IH]; intros buffer w.
  - simpl. intros r animation props Hin. by apply elem_of_nil in Hin.
  - simpl. unfold bind. pose proof (atAnimation_step first w) as Hstep.
    destruct (atAnimation first animationData_animationCSS EmptyString w) as [css w1].
    match goal with |- context [viewStyle_animationCSS rest ?b w1] =>
      specialize (IH b w1);
      pose proof (viewStyle_animationCSS_keeps rest b w1) as Hkeep;
      destruct (viewStyle_animationCSS rest b w1) as [text w2]
    end.
    destruct Hkeep as (Hkeep & _).
    intros r animation props Hin Hr Hprops.
    assert (exists a1, self w1 !! r = Some a1
                       /\ animationProperties a1 = animationProperties animation
                       /\ (r = first -> keyFramesName a1 <> EmptyString)) as (a1 & Hr1 & Hp1 & Hn1).
    { destruct (self w !! first) as [a |] eqn:Ha.
      - destruct Hstep as (a' & Hself & Hp & _ & Hnames). rewrite Hself.
        destruct (decide (r = first)) as [-> | Hne].
        + rewrite lookup_insert_eq. assert (a = animation) as -> by congruence.
          exists a'. split_and!; [done | done |]. intros _. by apply (Hnames props).
        + rewrite lookup_insert_ne by done. exists animation. by split_and!.
      - subst w1. exists animation. split_and!; [done | done |]. intros ->. congruence. }
    destruct (decide (r = first)) as [-> | Hne].
    + destruct (Hkeep first a1 Hr1) as (a2 & Hr2 & _ & Hsame).
      exists a2. split; [done |]. rewrite (Hsame (Hn1 eq_refl)). by apply Hn1.
    + apply elem_of_cons in Hin as [-> | Hin]; [done |].
      apply (IH r a1 props Hin Hr1). by rewrite Hp1.
Qed.

(** The loop changes nothing when every animation of the list has a name. *)
Lemma viewStyle_animationCSS_named `{Strconv} `{AnimationExt} (animations : list animRef)
    (buffer : string) (w : World (gmap animRef animationData)) :
  (forall r, r ∈ animations ->
     exists animation, self w !! r = Some animation
                       /\ keyFramesName animation <> EmptyString) ->
  snd (viewStyle_animationCSS animations buffer w) = w.
Proof.
  revert buffer. induction animations as [|first rest IH]; intros buffer Hall; [done |].
  simpl. unfold bind. pose proof (atAnimation_step first w) as Hstep.
  destruct (atAnimation first animationData_animationCSS EmptyString w) as [css w1].
  destruct (Hall first (list_elem_of_here _ _)) as (a & Ha & Hname).
  rewrite Ha in Hstep. destruct Hstep as (a' & _ & _ & Hsame & _).
  rewrite (Hsame Hname). apply IH. intros r Hr. apply Hall. by apply list_elem_of_further.
Qed.

(** X23. The animations of a style are registered once. When every
    animation that the style lists is in the store and holds a list of
    animated properties, the loop of [viewStyle.animationCSS] gives each of
    them a keyframe name (also one that is listed twice) and leaves their
    properties, the animations that had a name and the animations that are
    not listed as they were; a second run of the loop then changes neither
    the store nor the session and sends nothing. *)
Theorem style_animations_are_registered_once `{Strconv} `{AnimationExt}
    (animations : list animRef) (buffer : string)
    (w : World (gmap animRef animationData))
    (Hprops : forall r, r ∈ animations ->
       exists animation props,
         self w !! r = Some animation
         /\ getRaw (animationProperties animation) PropertyTag =
              VAnimatedProperties props) :
  let '(_, w1) := viewStyle_animationCSS animations buffer w in
  let '(_, w2) := viewStyle_animationCSS animations buffer w1 in
  w2 = w1
  /\ (forall r, r ∈ animations ->
        exists animation animation1,
          self w !! r = Some animation
          /\ self w1 !! r = Some animation1
          /\ keyFramesName animation1 <> EmptyString
          /\ animationProperties animation1 = animationProperties animation
          /\ (keyFramesName animation <> EmptyString -> animation1 = animation))
  /\ (forall r, r ∉ animations -> self w1 !! r = self w !! r).
Proof.
  pose proof (viewStyle_animationCSS_keeps animations buffer w) as Hkeep.
  pose proof (viewStyle_animationCSS_names animations buffer w) as Hnames.
  destruct (viewStyle_animationCSS animations buffer w) as [css1 w1].
  destruct Hkeep as (Hkeep & Hother).
  assert (Hall : forall r, r ∈ animations ->
            exists animation1, self w1 !! r = Some animation1
                               /\ keyFramesName animation1 <> EmptyString).
  { intros r Hr. destruct (Hprops r Hr) as (a & props & Ha & Hp).
    by apply (Hnames r a props). }
  pose proof (viewStyle_animationCSS_named animations buffer w1 Hall) as Hsecond.
  destruct (viewStyle_animationCSS animations buffer w1) as [css2 w2].
  simpl in Hsecond. split_and!; [done | | done].
  intros r Hr. destruct (Hprops r Hr) as (a & props & Ha & Hp).
  destruct (Hkeep r a Ha) as (a1 & Ha1 & Hp1 & Hsame).
  destruct (Hall r Hr) as (a1' & Ha1' & Hname).
  assert (a1' = a1) as -> by congruence.
  exists a, a1. by split_and!.
Qed.

(** The theorem for a style that lists one animation twice: the animation
    is named "kf000001" and the counter of the session is 1. *)
Lemma style_animations_are_registered_once_witness :
  let store : gmap animRef animationData := {[ Samples.A1 := Samples.animation1 ]} in
  let '(_, w1) := viewStyle_animationCSS (H := Samples.strconv) (H0 := Samples.animationExt)
                    [Samples.A1; Samples.A1] EmptyString (Samples.world0 store) in
  (keyFramesName <$> self w1 !! Samples.A1) = Some "kf000001"
  /\ animationCounter (session w1) = 1%Z
  /\ snd (viewStyle_animationCSS (H := Samples.strconv) (H0 := Samples.animationExt)
            [Samples.A1; Samples.A1] EmptyString w1) = w1.
Proof.
  cbv zeta.
  pose proof (style_animations_are_registered_once (H := Samples.strconv)
                (H0 := Samples.animationExt) [Samples.A1; Samples.A1] EmptyString
                (Samples.world0 {[ Samples.A1 := Samples.animation1 ]})) as Hthm.
  destruct (viewStyle_animationCSS _ _ _) as [css1 w1] eqn:Hrun.
  assert ((keyFramesName <$> self w1 !! Samples.A1) = Some "kf000001"
          /\ animationCounter (session w1) = 1%Z) as [Hname Hcounter].
  { apply (f_equal snd) in Hrun. simpl in Hrun. rewrite <- Hrun. by vm_compute. }
  split_and!; [done | done |].
  destruct (viewStyle_animationCSS _ _ w1) as [css2 w2]. simpl.
  apply Hthm. intros r Hr.
  assert (r = Samples.A1) as ->.
  { apply elem_of_cons in Hr as [-> | Hr]; [done |].
    apply elem_of_cons in Hr as [-> | Hr]; [done |]. by apply elem_of_nil in Hr. }
  eexists _, _. split; [apply lookup_singleton_eq | reflexivity].
Defined.
(** ** Animations from a parsed object *)

Lemma parsedAnimation_mono (maps maps' : keyFrameMaps) (animation : animationData) :
  (forall r frames, maps !! r = Some frames -> maps' !! r = Some frames) ->
  parsedAnimation maps animation -> parsedAnimation maps' animation.
Proof.
  intros Hsub (Hname & Hprops). split; [done |].
  destruct Hprops as [Hnone | (props & Hraw & Hne & Hall)]; [by left |].
  right. exists props. split_and!; [done | done |].
  eapply Forall_impl; [exact Hall |]. intros p [Hp Hc].
  split; [by eapply parsedShape_mono | done].
Qed.

(** [Set] of a text or of a data node keeps an animation a parsed one. *)
Lemma Set_keeps_parsed `{AnimationExt} (tag : string) (value : value)
    (w : World animationData) :
  (forall tag value lo hi, leavesAnimatedProperties (setFloatProperty tag value lo hi)) ->
  (forall tag value, leavesAnimatedProperties (setIntProperty tag value)) ->
  (forall tag value values, leavesAnimatedProperties (setEnumProperty tag value values)) ->
  (exists text, value = VString text) \/ (exists node, value = VDataNode node) ->
  parsedAnimation (heap w) (self w) ->
  parsedAnimation (heap (snd (animationData_Set tag value w)))
    (self (snd (animationData_Set tag value w))).
Proof.
  intros Hfloat Hint Henum Hvalue Hparsed. pose proof Hparsed as (Hname & Hprops).
  assert (isNil value = false) as Hnil.
  { by destruct Hvalue as [(text & ->) | (node & ->)]. }
  assert (Hdelegated : forall (m : M (World propertyList) bool),
             leavesAnimatedProperties m ->
             parsedAnimation (heap (snd (onAnimationProperties m w)))
               (self (snd (onAnimationProperties m w)))).
  { intros m Hm. unfold onAnimationProperties, embedded.
    specialize (Hm (mkWorld (animationProperties (self w)) (session w) (trace w) (heap w))).
    destruct (m _) as [ok w1]. cbn [snd self heap] in *. destruct Hm as [Hraw Hheap].
    apply (parsedAnimation_mono (heap w)); [exact Hheap |].
    unfold parsedAnimation, getRaw in *. simpl in *.
    split; [done |]. by rewrite Hraw. }
  assert (Hother : forall key v, key <> PropertyTag ->
             parsedAnimation (heap w)
               (withAnimationProperties (setProperty key v) (self w))).
  { intros key v Hkey. split; [done |]. unfold getRaw. simpl.
    by rewrite lookup_insert_ne. }
  unfold animationData_Set. rewrite Hnil. cbv zeta.
  set (normal := animationData_normalizeTag tag).
  destruct (String.eqb_spec normal ID) as [He | _].
  { destruct value; try done. unfold bind, ret.
    destruct (String.eqb (Trim s blanksCR) EmptyString).
    - simpl. split; [done |]. unfold getRaw. simpl. rewrite He.
      by rewrite lookup_delete_ne.
    - simpl. rewrite He. by apply Hother. }
  destruct (String.eqb_spec normal PropertyTag) as [He | _].
  { rewrite He. destruct Hvalue as [(text & ->) | (node & ->)]; [done |].
    unfold animationData_setProperty.
    destruct node as [nodeTag text | nodeTag obj | nodeTag elems].
    - done.
    - unfold bind. pose proof (parseObject_spec obj w) as Hobj.
      destruct (parseObject obj w) as [[prop ok] w1].
      destruct Hobj as ((Hbase & _ & Hshape) & (Hself & Hsession & Hlog) & Hok).
      cbn [fst snd] in *.
      destruct ok;
        cbv beta iota delta [bind animationData_store update modify withSelf ret];
        cbn [snd self heap].
      + split; [by rewrite Hself | ]. right.
        exists [prop]. unfold getRaw. simpl. rewrite lookup_insert_eq.
        split_and!; [done | done |].
        apply Forall_cons_2; [split; [done | by apply Hok] | done].
      + rewrite Hself. by eapply parsedAnimation_mono.
    - unfold bind.
      pose proof (parseArrayElements_spec PropertyTag elems [] w (Forall_nil_2 _)) as Harr.
      destruct (parseArrayElements PropertyTag elems [] w) as [props w1].
      destruct Harr as (Hall & (Hself & Hsession & Hlog) & Hsub).
      destruct props as [|q props]; cbn [length Nat.ltb Nat.leb];
        cbv beta iota delta [bind animationData_store update modify withSelf ret];
        cbn [snd self heap].
      + rewrite Hself. by eapply parsedAnimation_mono.
      + split; [by rewrite Hself |]. right. exists (q :: props). unfold getRaw. simpl.
        by rewrite lookup_insert_eq. }
  destruct (String.eqb_spec normal Duration) as [_ | _]; [by apply Hdelegated |].
  destruct (String.eqb_spec normal Delay) as [_ | _]; [by apply Hdelegated |].
  destruct (String.eqb_spec normal TimingFunction) as [He | _].
  { destruct value; try done. simpl. rewrite He. by apply Hother. }
  destruct (String.eqb_spec normal IterationCount) as [_ | _]; [by apply Hdelegated |].
  destruct (String.eqb_spec normal AnimationDirection) as [_ | _]; [by apply Hdelegated |].
  done.
Qed.

Lemma parseAnimationNode_keeps_parsed `{AnimationExt} (node : DataNode)
    (w : World animationData) :
  (forall tag value lo hi, leavesAnimatedProperties (setFloatProperty tag value lo hi)) ->
  (forall tag value, leavesAnimatedProperties (setIntProperty tag value)) ->
  (forall tag value values, leavesAnimatedProperties (setEnumProperty tag value values)) ->
  parsedAnimation (heap w) (self w) ->
  parsedAnimation (heap (snd (parseAnimationNode node w)))
    (self (snd (parseAnimationNode node w))).
Proof.
  intros Hfloat Hint Henum Hparsed.
  destruct node as [nodeTag text | nodeTag obj | nodeTag elems]; unfold parseAnimationNode,
    bind, ret.
  - pose proof (Set_keeps_parsed nodeTag (VString text) w Hfloat Hint Henum
                  (or_introl (ex_intro _ text eq_refl)) Hparsed) as Hset.
    by destruct (animationData_Set nodeTag (VString text) w).
  - pose proof (Set_keeps_parsed nodeTag (VDataNode (ObjectNode nodeTag obj)) w Hfloat Hint
                  Henum (or_intror (ex_intro _ _ eq_refl)) Hparsed) as Hset.
    by destruct (animationData_Set nodeTag _ w).
  - pose proof (Set_keeps_parsed nodeTag (VDataNode (ArrayNode nodeTag elems)) w Hfloat Hint
                  Henum (or_intror (ex_intro _ _ eq_refl)) Hparsed) as Hset.
    by destruct (animationData_Set nodeTag _ w).
Qed.

(** X24. An animation that [parseAnimation] builds from a parsed object
    never names the property that it animates: when the setters of the
    property list leave the entry of "property" and the maps of key frames
    that are there alone, the animation has no keyframe name yet, and under "property" it
    holds nothing, or a list that is not empty of animated properties that
    have both ends, key frames between 0 and 100, and an empty [Tag]. The
    caller's receiver is not touched. *)
Theorem parsed_animation_names_no_property `{AnimationExt} {V} (obj : DataObject)
    (w : World V)
    (Hfloat : forall tag value lo hi,
        leavesAnimatedProperties (setFloatProperty tag value lo hi))
    (Hint : forall tag value, leavesAnimatedProperties (setIntProperty tag value))
    (Henum : forall tag value values,
        leavesAnimatedProperties (setEnumProperty tag value values)) :
  let '(animation, w') := parseAnimation obj w in
  self w' = self w
  /\ animationData_animationName animation = EmptyString
  /\ (animationData_Get animation PropertyTag = VNil
      \/ exists props,
           animationData_Get animation PropertyTag = VAnimatedProperties props
           /\ props <> []
           /\ Forall (fun p => Tag p = EmptyString /\ complete p
                               /\ framesInRange (heap w') p) props).
Proof.
  destruct obj as [objTag nodes]. unfold parseAnimation. cbv zeta.
  assert (Hloop : forall (nodes : list DataNode) (w0 : World animationData),
             parsedAnimation (heap w0) (self w0) ->
             parsedAnimation (heap (snd (forEach nodes parseAnimationNode w0)))
               (self (snd (forEach nodes parseAnimationNode w0)))).
  { clear nodes. intros nodes. induction nodes as [|node rest IH]; intros w0 Hparsed.
    - done.
    - simpl. unfold bind.
      pose proof (parseAnimationNode_keeps_parsed node w0 Hfloat Hint Henum Hparsed) as Hn.
      destruct (parseAnimationNode node w0) as [[] w1]. by apply IH. }
  specialize (Hloop nodes (mkWorld newAnimationData (session w) (trace w) (heap w))).
  destruct (forEach nodes parseAnimationNode _) as [[] w1]. simpl in Hloop.
  destruct Hloop as (Hname & Hprops).
  { split; [done |]. by left. }
  split_and!; [done | done |].
  destruct Hprops as [Hnone | (props & Hraw & Hne & Hall)]; [by left |].
  right. exists props. split_and!; [done | done |].
  eapply Forall_impl; [exact Hall |]. intros p ((Htag & _ & _ & Hframes) & Hcomplete).
  by split_and!.
Qed.

(** The theorem for an object with a duration and a property from 0 to 1:
    the animation holds one animated property, with an empty tag. *)
Lemma parsed_animation_names_no_property_witness :
  let obj := dataObject "animation"
               [TextNode "duration" "2";
                ObjectNode "property" (dataObject "opacity"
                  [TextNode "from" "0"; TextNode "to" "1"])] in
  let '(animation, w') :=
    parseAnimation (H := Samples.animationExt) obj (Samples.world0 tt) in
  animationData_Get animation PropertyTag =
    VAnimatedProperties [mkAnimatedProperty EmptyString (VString "0") (VString "1") None]
  /\ exists props,
       animationData_Get animation PropertyTag = VAnimatedProperties props
       /\ Forall (fun p => Tag p = EmptyString /\ complete p /\ framesInRange (heap w') p)
            props.
Proof.
  cbv zeta.
  pose proof (parsed_animation_names_no_property (H := Samples.animationExt)
                (dataObject "animation"
                   [TextNode "duration" "2";
                    ObjectNode "property" (dataObject "opacity"
                      [TextNode "from" "0"; TextNode "to" "1"])])
                (Samples.world0 tt)) as Hthm.
  destruct (parseAnimation _ _) as [animation w'] eqn:Hrun.
  assert (animationData_Get animation PropertyTag =
            VAnimatedProperties
              [mkAnimatedProperty EmptyString (VString "0") (VString "1") None]) as Hget.
  { apply (f_equal fst) in Hrun. simpl in Hrun. rewrite <- Hrun. by vm_compute. }
  split; [done |].
  destruct Hthm as (_ & _ & [Hnone | (props & Hprops & _ & Hall)]);
    try (by intros **).
  - rewrite Hnone in Hget. discriminate.
  - by exists props.
Defined.
